(** * go-sqlancer: the round orchestrator, its oracles and the schema cache

    A shallow embedding of [pkg/sqlancer/sqlancer.go] and of the schema
    reflection of package [executor] ([reloadSchema], [loadSchema]).

    Go values are modelled as follows.
    - [int] is a 64-bit two's complement integer: a [Z] with the wrap-around
      written out ([wrap64]); lengths and indices are [nat].
    - A pointer [*T] is an [option T]; [None] is [nil].
    - [map[string]*T] is a [gmap string T]; reading an absent key gives [nil].
    - A slice is a [list]; indexing out of range panics.
    - [panic] and [log.Fatal] end the run; they are the [Panic] and [Fatal]
      results of [Res]. *)

From stdpp Require Import gmap strings list fin_maps pretty.
From Stdlib Require Import ZArith Lia.

Open Scope Z_scope.
Open Scope string_scope.
Open Scope list_scope.

(** ** Results of fallible code *)

Inductive Res (A : Type) : Type :=
| Ret (a : A)
| Panic (why : string)
| Fatal (why : string).
Arguments Ret {A} a.
Arguments Panic {A} why.
Arguments Fatal {A} why.

Definition nil_dereference : string := "invalid memory address or nil pointer dereference".
Definition index_out_of_range : string := "index out of range".
Definition slice_out_of_range : string := "slice bounds out of range".
Definition invalid_Intn : string := "invalid argument to Intn".

(** ** Package types (names as the sources use them) *)

Module types.

(** [CIStr] is a string type: the sources convert with [CIStr(s)]. *)
Abbreviation CIStr := string (only parsing).

(** The fields of [Column] that the sources read or write: [Table], [Name],
    [Type], [Null]; [Length] is the width that [ParseType] stores. *)
Module Column.
Record t : Type := mk
  { Table : CIStr;
    Name : CIStr;
    Type_ : string;
    Length : Z;
    Null : bool }.
End Column.
Abbreviation Column := Column.t.

Module Table.
Record t : Type := mk
  { Name : CIStr;
    Columns : list Column;
    Indexes : list CIStr;
    Type_ : string }.
End Table.
Abbreviation Table := Table.t.

(** Modelled from the spec: [Column.String] of package [types] is not among
    the sources. The pivot row is keyed by the dotted [table.column] name, and
    [printPivotRows] splits the keys at the dot. *)
Definition Column_String (c : Column) : string :=
  Column.Table c ++ "." ++ Column.Name c.

End types.
Export types.

Module connection.

(** The column type of a result cell ([database/sql]'s [ColumnType]); the
    sources only call [Name()] on it. *)
Record ColumnType : Type := mkColumnType { ct_Name : string }.

(** One cell of a result set. *)
Record QueryItem : Type := mkQueryItem
  { QNull : bool;
    ValType : ColumnType;
    ValString : string }.

End connection.
Export connection.

(** A pointer: [None] is [nil]. *)
Abbreviation ptr A := (option A) (only parsing).

(** ** The Go library and the helpers of packages [types] and [util] that the
    sources call but do not contain *)

Class GoLib : Type :=
  { (** [strings.EqualFold]: equality under Unicode case folding *)
    EqualFold : string -> string -> bool;
    EqualFold_refl : forall s, EqualFold s s = true;
    EqualFold_sym : forall s t, EqualFold s t = EqualFold t s;
    (** [Column.ParseType]: the type name and width read from a catalogue
        type such as [varchar(255)] *)
    parseType : string -> string * Z;
    (** [Column.GetAliasName] *)
    GetAliasName : Column -> CIStr }.

Section Helpers.
Context `{GoLib}.

(** Modelled from the spec: [CIStr.EqString] of package [types] is not among
    the sources. Identifiers are compared ignoring case. *)
Definition EqString (c : CIStr) (s : string) : bool := EqualFold c s.

(** Modelled from the spec: [Column.ParseType] of package [types] is not
    among the sources. It stores the parsed type descriptor of the column and
    leaves its other fields alone. *)
Definition ParseType (c : Column) (t : string) : Column :=
  {| Column.Table := Column.Table c; Column.Name := Column.Name c;
     Column.Type_ := fst (parseType t); Column.Length := snd (parseType t);
     Column.Null := Column.Null c |}.

End Helpers.

(** ** Oracles: the pure checks of [sqlancer.go] *)

Section Oracles.
Context `{GoLib}.

(** [compareQueryItem], lines 566-575. Both arguments are dereferenced. *)
Definition compareQueryItem (left right : ptr QueryItem) : Res bool :=
  match left, right with
  | Some l, Some r =>
      if negb (Bool.eqb (QNull l) (QNull r)) then Ret false
      else Ret ((QNull l && QNull r) || String.eqb (ValString l) (ValString r))
  | _, _ => Panic nil_dereference
  end.

(** [checkRow], lines 538-546: the loop over [columns], from index [i] on.
    [resultSet[i]] panics when [i] is out of range; the arguments are
    evaluated before [compareQueryItem] dereferences them. *)
Fixpoint checkRow_from (i : nat) (originRow : gmap string QueryItem)
    (columns : list Column) (resultSet : list (ptr QueryItem)) : Res bool :=
  match columns with
  | [] => Ret true
  | c :: columns' =>
      let l := originRow !! GetAliasName c in
      match resultSet !! i with
      | None => Panic index_out_of_range
      | Some r =>
          match compareQueryItem l r with
          | Ret true => checkRow_from (S i) originRow columns' resultSet
          | Ret false => Ret false
          | Panic why => Panic why
          | Fatal why => Fatal why
          end
      end
  end.

Definition checkRow (originRow : gmap string QueryItem)
    (columns : list Column) (resultSet : list (ptr QueryItem)) : Res bool :=
  checkRow_from 0 originRow columns resultSet.

(** [verifyPQS], lines 529-536. *)
Fixpoint verifyPQS (originRow : gmap string QueryItem) (columns : list Column)
    (resultSets : list (list (ptr QueryItem))) : Res bool :=
  match resultSets with
  | [] => Ret false
  | row :: resultSets' =>
      match checkRow originRow columns row with
      | Ret true => Ret true
      | Ret false => verifyPQS originRow columns resultSets'
      | Panic why => Panic why
      | Fatal why => Fatal why
      end
  end.

(** [checkResultSet], lines 594-609. *)
Definition checkResultSet (set : list (list (list (ptr QueryItem))))
    (ignoreSort : bool) : bool :=
  if (length set <? 2)%nat then true
  else
    match set with
    | [] => true
    | set0 :: _ =>
        let length_ := length set0 in
        forallb (fun rows => (length rows =? length_)%nat) set
    end.

End Oracles.

(** ** Package executor: the schema cache ([reloadSchema], [loadSchema]) *)

(** A catalogue record [[6]string], with the names [loadSchema] gives to its
    six entries. *)
Record record : Type := mkRecord
  { dbname : string;
    tableName : string;
    tableType : string;
    columnName : string;
    columnType : string;
    columnNull : string }.

Section LoadSchema.
Context `{GoLib}.

(** The inner loop of [loadSchema], lines 80-86: the first column whose name
    equals [columnName] ignoring case gets the record's type and nullability,
    in place. [None] when no column matches (the loop falls through). *)
Fixpoint updateColumn (columns : list Column) (columnName columnType columnNull : string)
    : option (list Column) :=
  match columns with
  | [] => None
  | column :: columns' =>
      if EqString (Column.Name column) columnName then
        Some ({| Column.Table := Column.Table column;
                 Column.Name := Column.Name column;
                 Column.Type_ := columnType;
                 Column.Length := Column.Length column;
                 Column.Null := EqualFold columnNull "Yes" |} :: columns')
      else
        match updateColumn columns' columnName columnType columnNull with
        | Some updated => Some (column :: updated)
        | None => None
        end
  end.

(** The column appended at lines 87-94. *)
Definition newColumn (tableName columnName columnType columnNull : string) : Column :=
  ParseType
    {| Column.Table := tableName; Column.Name := columnName;
       Column.Type_ := ""; Column.Length := 0;
       Column.Null := EqualFold columnNull "Yes" |}
    columnType.

(** One iteration of the loop of [loadSchema], lines 53-95. The cache maps
    the table name, as fetched, to the table. *)
Definition loadRecord (db : string) (indexes : gmap string (list CIStr))
    (tables : gmap string Table) (r : record) : gmap string Table :=
  if negb (String.eqb (dbname r) db) then tables
  else
    let index := default [] (indexes !! tableName r) in
    let t :=
      match tables !! tableName r with
      | Some t => t
      | None =>
          {| Table.Name := tableName r; Table.Columns := [];
             Table.Indexes := index; Table.Type_ := tableType r |}
      end in
    let columns :=
      match updateColumn (Table.Columns t) (columnName r) (columnType r) (columnNull r) with
      | Some updated => updated
      | None =>
          Table.Columns t ++
            [newColumn (tableName r) (columnName r) (columnType r) (columnNull r)]
      end in
    <[tableName r :=
        {| Table.Name := Table.Name t; Table.Columns := columns;
           Table.Indexes := Table.Indexes t; Table.Type_ := Table.Type_ t |}]> tables.

(** [loadSchema], lines 49-96: the cache is rebuilt from the empty map. *)
Definition loadSchema (db : string) (records : list record)
    (indexes : gmap string (list CIStr)) : gmap string Table :=
  fold_left (loadRecord db indexes) records ∅.

(** Column identifiers pairwise distinct ignoring case. *)
Definition distinctColumns (columns : list Column) : Prop :=
  forall i j ci cj,
    i <> j -> columns !! i = Some ci -> columns !! j = Some cj ->
    EqString (Column.Name ci) (Column.Name cj) = false.

End LoadSchema.

(** ** Package sqlancer: configuration, collaborators and state *)

(** The fields of [Config] that the sources read. *)
Record Config : Type := mkConfig
  { DSN : string;
    DBName : string;
    LogLevel : string;
    Depth : Z;
    ViewCount : Z;
    Silent : bool;
    EnableHint : bool;
    EnableExprIndex : bool;
    EnablePQSApproach : bool;
    EnableNoRECApproach : bool;
    EnableTLPApproach : bool }.

(** [testingApproach], lines 32-38. *)
Inductive testingApproach : Type :=
| approachPQS
| approachNoREC
| approachTLP.

#[global] Instance testingApproach_eq_dec : EqDecision testingApproach.
Proof. solve_decision. Defined.

(** A Go [error] value is its message; [None] is the [nil] error. *)
Abbreviation error := string (only parsing).

(** Modelled from the spec: the generation context of package [generator] is
    not among the sources. It holds the tables in scope, an optional pivot row
    and the three flags; the sources assign the flags and leave the rest to
    [NewGenCtx]. *)
Record GenCtx : Type := mkGenCtx
  { gc_Tables : list Table;
    gc_PivotRows : option (gmap string QueryItem);
    IsPQSMode : bool;
    IsInExprIndex : bool;
    EnableLeftRightJoin : bool }.

(** The assignment [genCtx.IsPQSMode = b]. *)
Definition setPQSMode (b : bool) (g : GenCtx) : GenCtx :=
  {| gc_Tables := gc_Tables g; gc_PivotRows := gc_PivotRows g;
     IsPQSMode := b; IsInExprIndex := IsInExprIndex g;
     EnableLeftRightJoin := EnableLeftRightJoin g |}.

(** The transformers that [progress] builds, lines 326-337. *)
Inductive Transformer (ExprNode : Type) : Type :=
| NoREC
| TLPTrans (Expr : ExprNode).
Arguments NoREC {ExprNode}.
Arguments TLPTrans {ExprNode} Expr.

Abbreviation resultRows := (list (list (ptr QueryItem))) (only parsing).

(** The collaborators outside the sources: the connection driver, the
    statement generator, the transformer library, the known-bug filter. Each
    is a function of the state [W] of the outside world (the database and
    whatever randomness the collaborator draws). [setUpDB] stands for lines
    110-229 (drop and create the database, create the tables, populate them,
    add expression indexes): it reads and writes [p.Tables], the executor's
    cache and the random source, and assigns neither [batch] nor
    [roundInBatch]. *)
Class Externals : Type :=
  { W : Type;
    SelectStmt : Type;
    Node : Type;
    ExprNode : Type;
    conn_Select : string -> W -> (resultRows + error) * W;
    conn_Begin : W -> option error * W;
    conn_Commit : W -> option error * W;
    conn_CreateViewBySelect :
      string -> string -> nat -> list Column -> W -> option error * W;
    conn_FetchTables : string -> W -> (list string + error) * W;
    conn_FetchColumns :
      string -> string -> W -> (list (string * string * string) + error) * W;
    conn_FetchIndexes : string -> string -> W -> (list string + error) * W;
    conn_FetchSchema : string -> W -> (list record + error) * W;
    NewGenCtx : list Table -> option (gmap string QueryItem) -> GenCtx;
    gen_SelectStmt :
      bool -> list Table -> GenCtx -> Z -> W ->
      (ptr SelectStmt * string * list Column * gmap string QueryItem * option error) * W;
    gen_ConditionClause : bool -> list Table -> GenCtx -> Z -> W -> ExprNode * W;
    ParenthesesExpr : ExprNode -> ExprNode;
    transformer_Transform :
      list (Transformer ExprNode) -> ptr SelectStmt -> Z -> W -> list (list Node) * W;
    BufferOut : Node -> string * option error;
    IsKnownBug : ptr SelectStmt -> gmap string QueryItem -> bool;
    Columns_sort : list Column -> list Column;
    QueryItem_String : QueryItem -> string;
    setUpDB :
      Config -> list Table * gmap string Table * list nat -> W ->
      Res (list Table * gmap string Table * list nat) * W }.

(** What the run does to the outside, in order. *)
Inductive Event `{Externals} : Type :=
| ESelect (stmt : string) (res : resultRows + error)
| EBegin (err : option error)
| ECommit (err : option error)
| ECreateViewBySelect (view selectStmt : string) (rows : nat)
    (columns : list Column) (err : option error)
| ELoadSchema
| EReloadSchema (err : option error)
| ELog (level msg : string)
| EPrint (text : string).

(** The [SQLancer] struct (lines 40-48) with the executor's cache
    [e.tables], the global random source, the outside world and the trace.
    [rng] is the script of raw draws to come; it continues with zeros. *)
Record State `{Externals} : Type := mkState
  { Tables : list Table;
    batch : Z;
    roundInBatch : Z;
    e_tables : gmap string Table;
    rng : list nat;
    world : W;
    trace : list Event }.

Section Monad.
Context `{Externals}.

(** A computation reads and writes the state and returns, panics or exits. *)
Definition M (A : Type) : Type := State -> Res A * State.

Definition ret {A} (a : A) : M A := fun s => (Ret a, s).

Definition bind {A B} (m : M A) (k : A -> M B) : M B :=
  fun s =>
    match m s with
    | (Ret a, s') => k a s'
    | (Panic why, s') => (Panic why, s')
    | (Fatal why, s') => (Fatal why, s')
    end.

Definition panic {A} (why : string) : M A := fun s => (Panic why, s).
Definition exit {A} (why : string) : M A := fun s => (Fatal why, s).
Definition get : M State := fun s => (Ret s, s).

Definition set_Tables (ts : list Table) : M unit :=
  fun s => (Ret tt, mkState _ ts (batch s) (roundInBatch s) (e_tables s) (rng s) (world s) (trace s)).
Definition set_batch (b : Z) : M unit :=
  fun s => (Ret tt, mkState _ (Tables s) b (roundInBatch s) (e_tables s) (rng s) (world s) (trace s)).
Definition set_roundInBatch (r : Z) : M unit :=
  fun s => (Ret tt, mkState _ (Tables s) (batch s) r (e_tables s) (rng s) (world s) (trace s)).
Definition set_e_tables (m : gmap string Table) : M unit :=
  fun s => (Ret tt, mkState _ (Tables s) (batch s) (roundInBatch s) m (rng s) (world s) (trace s)).
Definition set_rng (r : list nat) : M unit :=
  fun s => (Ret tt, mkState _ (Tables s) (batch s) (roundInBatch s) (e_tables s) r (world s) (trace s)).
Definition set_world (w : W) : M unit :=
  fun s => (Ret tt, mkState _ (Tables s) (batch s) (roundInBatch s) (e_tables s) (rng s) w (trace s)).
Definition emit (e : Event) : M unit :=
  fun s => (Ret tt, mkState _ (Tables s) (batch s) (roundInBatch s) (e_tables s) (rng s) (world s) (trace s ++ [e])).

(** A call to a collaborator. *)
Definition call {A} (f : W -> A * W) : M A :=
  fun s =>
    let (a, w) := f (world s) in
    (Ret a, mkState _ (Tables s) (batch s) (roundInBatch s) (e_tables s) (rng s) w (trace s)).

(** [defer cleanup; body]: the deferred call runs when [body] returns or
    panics, not when the process exits. *)
Definition defer {A} (cleanup : M unit) (body : M A) : M A :=
  fun s =>
    match body s with
    | (Fatal why, s') => (Fatal why, s')
    | (r, s') =>
        match cleanup s' with
        | (Ret _, s'') => (r, s'')
        | (Panic why, s'') => (Panic why, s'')
        | (Fatal why, s'') => (Fatal why, s'')
        end
    end.

End Monad.

Declare Scope go_scope.
Delimit Scope go_scope with go.
Notation "'do' x <- m ; k" := (bind m (fun x => k))
  (at level 10, x pattern, m at level 100, k at level 200) : go_scope.
Notation "m ;; k" := (bind m (fun _ => k))
  (at level 100, k at level 200, right associativity) : go_scope.

Definition nl : string := String (Ascii.ascii_of_nat 10) EmptyString.

Definition dot : Ascii.ascii := Ascii.ascii_of_nat 46.

(** [strings.Split(s, sep)] for a separator of one character. *)
Fixpoint split (sep : Ascii.ascii) (s : string) : list string :=
  match s with
  | EmptyString => [EmptyString]
  | String a s' =>
      if Ascii.eqb a sep then EmptyString :: split sep s'
      else
        match split sep s' with
        | [] => [String a EmptyString]
        | part :: parts => String a part :: parts
        end
  end.

(** [int] arithmetic: the 64-bit wrap-around. *)
Definition wrap64 (z : Z) : Z := (z + 2 ^ 63) mod 2 ^ 64 - 2 ^ 63.

Section SQLancer.
Context `{GoLib} `{Externals}.
Variable conf : Config.
Local Open Scope go_scope.

Definition log (level msg : string) : M unit := emit (ELog level msg).

(** [log.L().Fatal]: the message is logged and the process exits. *)
Definition log_Fatal {A} (msg : string) : M A := (log "fatal" msg ;; exit msg).

(** ** The random source *)

(** [rand.Intn(n)]: a number in [[0,n)], here the next raw draw modulo [n];
    it panics for [n <= 0]. *)
Definition Intn (n : nat) : M nat :=
  if (n =? 0)%nat then panic invalid_Intn
  else
    do s <- get;
    match rng s with
    | [] => ret 0%nat
    | x :: rest => (set_rng rest ;; ret (x mod n)%nat)
    end.

(** Modelled from the spec: [Rd] and [RdBool] of package [util] are not among
    the sources. [Rd(n)] is a random integer in [[0,n)]; [RdBool] is a fair
    coin. *)
Definition Rd (n : nat) : M nat := Intn n.
Definition RdBool : M bool := (do r <- Rd 2; ret (r =? 1)%nat).

(** The swap handed to [rand.Shuffle], line 470. *)
Definition swapTables (i j : nat) : M unit :=
  do s <- get;
  match Tables s !! i, Tables s !! j with
  | Some ti, Some tj => set_Tables (<[j := ti]> (<[i := tj]> (Tables s)))
  | _, _ => panic index_out_of_range
  end.

(** [rand.Shuffle(n, swap)], Fisher-Yates: for [i] from [n-1] down to [1],
    swap [i] with a random [j] in [[0,i]]. *)
Fixpoint shuffleFrom (i : nat) (swap : nat -> nat -> M unit) : M unit :=
  match i with
  | O => ret tt
  | S i' => (do j <- Intn (S i); swap i j ;; shuffleFrom i' swap)
  end.

Definition Shuffle (n : nat) (swap : nat -> nat -> M unit) : M unit :=
  shuffleFrom (n - 1) swap.

(** [randTables], lines 462-474. *)
Definition randCount (len : nat) : M nat :=
  if (1 <? len)%nat then
    do r <- Rd (len - 1);
    let count := (r + 1)%nat in
    if (4 <? count)%nat then
      (do r' <- Rd 4; ret (r' + 1)%nat)
    else ret count
  else ret 1%nat.

Definition randTables : M (list Table) :=
  do s <- get;
  do count <- randCount (length (Tables s));
  Shuffle (length (Tables s)) swapTables ;;
  do s' <- get;
  if (count <=? length (Tables s'))%nat then ret (take count (Tables s'))
  else panic slice_out_of_range.

(** ** Selecting *)

(** [execSelect], lines 524-527. *)
Definition execSelect (stmt : string) : M (resultRows + error) :=
  log "debug" "execSelect" ;;
  do res <- call (conn_Select stmt);
  emit (ESelect stmt res) ;;
  ret res.

(** The query of line 484. *)
Definition pivotQuery (i : Table) : string :=
  "SELECT * FROM " ++ Table.Name i ++ " ORDER BY RAND() LIMIT 1;".

(** Lines 490-494: the cells of the sampled row go into the map under the
    name of their column. A [nil] cell is dereferenced for its name. *)
Fixpoint storeCells (i : Table) (cells : list (ptr QueryItem))
    (result : gmap string QueryItem) : Res (gmap string QueryItem) :=
  match cells with
  | [] => Ret result
  | None :: _ => Panic nil_dereference
  | Some c :: cells' =>
      let tableColumn :=
        {| Column.Table := Table.Name i; Column.Name := ct_Name (ValType c);
           Column.Type_ := ""; Column.Length := 0; Column.Null := false |} in
      storeCells i cells' (<[Column_String tableColumn := c]> result)
  end.

(** The loop of [ChoosePivotedRow], lines 483-498. *)
Fixpoint pivotLoop (usedTables : list Table)
    (result : gmap string QueryItem) (reallyUsed : list Table)
    : M (gmap string QueryItem * list Table) :=
  match usedTables with
  | [] => ret (result, reallyUsed)
  | i :: usedTables' =>
      do exeRes <- execSelect (pivotQuery i);
      match exeRes with
      | inr err => panic err
      | inl [] => pivotLoop usedTables' result reallyUsed
      | inl (row :: _) =>
          match storeCells i row result with
          | Ret result' => pivotLoop usedTables' result' (reallyUsed ++ [i])
          | Panic why => panic why
          | Fatal why => exit why
          end
      end
  end.

(** [ChoosePivotedRow], lines 478-500; the returned error is always [nil]. *)
Definition ChoosePivotedRow : M (gmap string QueryItem * list Table * option error) :=
  do usedTables <- randTables;
  do (result, reallyUsed) <- pivotLoop usedTables ∅ [];
  ret (result, reallyUsed, None).

(** ** Schema reflection *)

(** The column built at lines 90-95 from a fetched [(name, type, nullable)]. *)
Definition loadColumn (i : string) (column : string * string * string) : Column :=
  let '(column0, column1, column2) := column in
  ParseType
    {| Column.Table := i; Column.Name := column0;
       Column.Type_ := ""; Column.Length := 0;
       Column.Null := EqualFold column2 "Yes" |}
    column1.

(** The loop of [LoadSchema], lines 83-106. *)
Fixpoint loadTables (tables : list string) : M unit :=
  match tables with
  | [] => ret tt
  | i :: tables' =>
      do columns <- call (conn_FetchColumns (DBName conf) i);
      match columns with
      | inr err => panic err
      | inl columns =>
          do idx <- call (conn_FetchIndexes (DBName conf) i);
          match idx with
          | inr err => panic err
          | inl idx =>
              let t :=
                {| Table.Name := i; Table.Columns := map (loadColumn i) columns;
                   Table.Indexes := idx; Table.Type_ := "" |} in
              do s <- get;
              set_Tables (Tables s ++ [t]) ;;
              loadTables tables'
          end
      end
  end.

(** [LoadSchema], lines 75-107. Reseeding the random source leaves the script
    of draws to come arbitrary, as it was. *)
Definition LoadSchema : M unit :=
  emit ELoadSchema ;;
  set_Tables [] ;;
  do tables <- call (conn_FetchTables (DBName conf));
  match tables with
  | inr err => panic err
  | inl tables => loadTables tables
  end.

(** The loop of [reloadSchema], lines 28-43 of the executor: a record is
    skipped when [indexes] has its third entry as a key, and the fetched
    indexes are stored under its second entry. *)
Fixpoint fetchIndexes (schema : list record) (indexes : gmap string (list CIStr))
    : M (gmap string (list CIStr) + error) :=
  match schema with
  | [] => ret (inl indexes)
  | col :: schema' =>
      match indexes !! tableType col with
      | Some _ => fetchIndexes schema' indexes
      | None =>
          do index <- call (conn_FetchIndexes (DBName conf) (tableName col));
          match index with
          | inr err => ret (inr err)
          | inl index => fetchIndexes schema' (<[tableName col := index]> indexes)
          end
      end
  end.

(** [reloadSchema], lines 22-47 of the executor; [e.db] is [conf.DBName]. *)
Definition reloadSchema : M (option error) :=
  do schema <- call (conn_FetchSchema (DBName conf));
  match schema with
  | inr err => ret (Some err)
  | inl schema =>
      do indexes <- fetchIndexes schema ∅;
      match indexes with
      | inr err => ret (Some err)
      | inl indexes =>
          set_e_tables (loadSchema (DBName conf) schema indexes) ;;
          ret None
      end
  end.

(** [ReloadSchema], lines 18-20 of the executor. *)
Definition ReloadSchema : M (option error) :=
  do err <- reloadSchema;
  emit (EReloadSchema err) ;;
  ret err.

(** ** Statement generation *)

(** [GenPQSSelectStmt], lines 502-508. *)
Definition GenPQSSelectStmt (pivotRows : gmap string QueryItem) (usedTables : list Table)
    : M (ptr SelectStmt * string * list Column * gmap string QueryItem * option error) :=
  let genCtx := setPQSMode true (NewGenCtx usedTables (Some pivotRows)) in
  do s <- get;
  call (gen_SelectStmt (EnableHint conf) (Tables s) genCtx (Depth conf)).

(** [GenSelectStmt], lines 586-592. *)
Definition GenSelectStmt : M (ptr SelectStmt * string * GenCtx * option error) :=
  do usedTables <- randTables;
  let genCtx := setPQSMode false (NewGenCtx usedTables None) in
  do s <- get;
  do res <- call (gen_SelectStmt (EnableHint conf) (Tables s) genCtx (Depth conf));
  let '(selectAST, selectSQL, _, _, err) := res in
  ret (selectAST, selectSQL, genCtx, err).

(** ** Transactions *)

(** The deferred commit of [withTxn], lines 390-396. *)
Definition commitTxn : M unit :=
  do err <- call conn_Commit;
  emit (ECommit err) ;;
  match err with
  | Some _ => log "error" "commit txn failed"
  | None => log "debug" "commit txn success"
  end.

(** [withTxn], lines 381-399. *)
Definition withTxn (useExplicitTxn : bool) (action : M (option error)) : M (option error) :=
  if useExplicitTxn then
    do err <- call conn_Begin;
    emit (EBegin err) ;;
    match err with
    | Some e => (log "error" "begin txn failed" ;; ret (Some e))
    | None => (log "debug" "begin txn success" ;; defer commitTxn action)
    end
  else action.

(** ** Reporting *)

(** The first loop of [printPivotRows], lines 550-557: each key is split at
    the dots and its first two parts are taken. *)
Fixpoint parseKeys (keys : list string) : Res (list Column) :=
  match keys with
  | [] => Ret []
  | column :: keys' =>
      match split dot column with
      | table :: col :: _ =>
          match parseKeys keys' with
          | Ret tableColumns =>
              Ret ({| Column.Table := table; Column.Name := col; Column.Type_ := "";
                      Column.Length := 0; Column.Null := false |} :: tableColumns)
          | Panic why => Panic why
          | Fatal why => Fatal why
          end
      | _ => Panic index_out_of_range
      end
  end.

(** The second loop of [printPivotRows], lines 560-563. *)
Fixpoint printColumns (pivotRows : gmap string QueryItem) (tableColumns : list Column)
    : M unit :=
  match tableColumns with
  | [] => ret tt
  | column :: tableColumns' =>
      match pivotRows !! Column_String column with
      | None => panic nil_dereference
      | Some value =>
          emit (EPrint (Column.Table column ++ "." ++ Column.Name column ++ "="
                        ++ QueryItem_String value ++ nl)) ;;
          printColumns pivotRows tableColumns'
      end
  end.

(** [printPivotRows], lines 548-564. The keys are visited in the order of
    [map_to_list]; Go leaves the order open, and the columns are sorted
    before they are printed. *)
Definition printPivotRows (pivotRows : gmap string QueryItem) : M unit :=
  match parseKeys (fst <$> map_to_list pivotRows) with
  | Ret tableColumns => printColumns pivotRows (Columns_sort tableColumns)
  | Panic why => panic why
  | Fatal why => exit why
  end.

(** ** One round: [progress], lines 247-377 *)

Definition liftRes {A} (r : Res A) : M A :=
  match r with
  | Ret a => ret a
  | Panic why => panic why
  | Fatal why => exit why
  end.

(** The choice of the approaches, lines 252-268. *)
Definition approachesAt (roundInBatch : Z) : list testingApproach :=
  if (roundInBatch <? ViewCount conf)%Z then [approachPQS]
  else
    (if EnableNoRECApproach conf then [approachNoREC] else []) ++
    (if EnablePQSApproach conf then [approachPQS] else []) ++
    (if EnableTLPApproach conf then [approachTLP] else []).

(** Line 269: [approaches[Rd(len(approaches))]]. *)
Definition chooseApproach : M testingApproach :=
  do s <- get;
  let approaches := approachesAt (roundInBatch s) in
  do i <- Rd (length approaches);
  match approaches !! i with
  | Some approach => ret approach
  | None => panic index_out_of_range
  end.

(** The name of the view of a round, [fmt.Sprintf("view_%d", r)]. *)
Definition viewName (r : Z) : string := "view_" ++ pretty r.

(** The report of a PQS round that failed verification, lines 296-305. *)
Definition reportMismatch (selectAST : ptr SelectStmt)
    (pivotRows : gmap string QueryItem) : M (option error) :=
  if IsKnownBug selectAST pivotRows then ret None
  else
    emit (EPrint ("row:" ++ nl)) ;;
    printPivotRows pivotRows ;;
    do s <- get;
    if (roundInBatch s <? ViewCount conf)%Z || Silent conf
    then panic "data verified failed"
    else ret None.

(** The view of a verified PQS round, lines 307-311. *)
Definition seedView (selectSQL : string) (resultRows : resultRows)
    (columns : list Column) : M unit :=
  do s <- get;
  if (roundInBatch s <=? ViewCount conf)%Z then
    do err <- call (conn_CreateViewBySelect (viewName (roundInBatch s)) selectSQL
                      (length resultRows) columns);
    emit (ECreateViewBySelect (viewName (roundInBatch s)) selectSQL
            (length resultRows) columns err) ;;
    match err with
    | Some _ => log "error" "create view failed"
    | None => ret tt
    end
  else ret tt.

(** The reload at the end of the view rounds, lines 312-317. *)
Definition reloadViews : M unit :=
  do s <- get;
  if (roundInBatch s =? ViewCount conf)%Z then
    LoadSchema ;;
    do err <- ReloadSchema;
    match err with
    | Some e => panic e
    | None => ret tt
    end
  else ret tt.

(** The action of a PQS round, lines 278-320. *)
Definition pqsAction (selectAST : ptr SelectStmt) (selectSQL : string)
    (columns : list Column) (pivotRows : gmap string QueryItem) : M (option error) :=
  do resultRows <- execSelect selectSQL;
  match resultRows with
  | inr err => (log "error" "execSelect failed" ;; ret (Some err))
  | inl resultRows =>
      do correct <- liftRes (verifyPQS pivotRows columns resultRows);
      if negb correct then reportMismatch selectAST pivotRows
      else
        seedView selectSQL resultRows columns ;;
        reloadViews ;;
        log "info" "check finished" ;;
        ret None
  end.

(** The inner loop of a NoREC or TLP round, lines 348-362. *)
Fixpoint execNodes (nodesArr : list Node) (sqlInOneGroup : list string)
    (resultSet : list resultRows) : M (list string * list resultRows + error) :=
  match nodesArr with
  | [] => ret (inl (sqlInOneGroup, resultSet))
  | node :: nodesArr' =>
      let (sql, err) := BufferOut node in
      match err with
      | Some _ =>
          log "error" "err on restoring" ;;
          execNodes nodesArr' (sqlInOneGroup ++ [sql]) resultSet
      | None =>
          do resultRows <- execSelect sql;
          log "warn" sql ;;
          match resultRows with
          | inr err' => (log "error" "execSelect failed" ;; ret (inr err'))
          | inl resultRows =>
              execNodes nodesArr' (sqlInOneGroup ++ [sql]) (resultSet ++ [resultRows])
          end
      end
  end.

(** The loop over the groups, lines 340-371. *)
Fixpoint checkGroups (nodesGroup : list (list Node)) : M (option error) :=
  match nodesGroup with
  | [] => ret None
  | nodesArr :: nodesGroup' =>
      if (length nodesArr <? 2)%nat then
        log "warn" "no enough sqls were generated" ;;
        checkGroups nodesGroup'
      else
        do res <- execNodes nodesArr [] [];
        match res with
        | inr err => ret (Some err)
        | inl (sqlInOneGroup, resultSet) =>
            let correct := checkResultSet resultSet true in
            (if negb correct then
               log "error" "last round SQLs" ;;
               if negb (Silent conf) then log_Fatal "data verified failed" else ret tt
             else ret tt) ;;
            log "info" "check finished" ;;
            checkGroups nodesGroup'
        end
  end.

(** The action of a NoREC or TLP round, lines 338-373. *)
Definition norecAction (selectAst : ptr SelectStmt)
    (transformers : list (Transformer ExprNode)) : M (option error) :=
  do nodesGroup <- call (transformer_Transform transformers selectAst 3);
  checkGroups nodesGroup.

(** [progress], lines 247-377. The read lock is not modelled: the loop of
    [run] is the only thread that takes it. *)
Definition progress : M unit :=
  do approach <- chooseApproach;
  match approach with
  | approachPQS =>
      do chosen <- ChoosePivotedRow;
      let '(pivotRows, usedTables, err) := chosen in
      match err with
      | Some _ => log_Fatal "choose pivot row failed"
      | None =>
          do generated <- GenPQSSelectStmt pivotRows usedTables;
          let '(selectAST, selectSQL, columns, pivotRows', _) := generated in
          do useExplicitTxn <- RdBool;
          withTxn useExplicitTxn (pqsAction selectAST selectSQL columns pivotRows') ;;
          ret tt
      end
  | _ =>
      do generated <- GenSelectStmt;
      let '(selectAst, _, genCtx, err) := generated in
      (match err with
       | Some _ => log "error" "generate normal SQL statement failed"
       | None => ret tt
       end) ;;
      do transformers <-
        (match approach with
         | approachNoREC => ret [NoREC]
         | _ =>
             do s <- get;
             do expr <- call (gen_ConditionClause (EnableHint conf) (Tables s) genCtx 2);
             ret [NoREC; TLPTrans (ParenthesesExpr expr)]
         end);
      do useExplicitTxn <- RdBool;
      withTxn useExplicitTxn (norecAction selectAst transformers) ;;
      ret tt
  end.

(** ** The main loop: [run], lines 231-245 *)

(** [refreshDatabase], lines 577-584. *)
Definition refreshDatabase : M unit :=
  log "debug" "refresh database" ;;
  fun s =>
    match setUpDB conf (Tables s, e_tables s, rng s) (world s) with
    | (Ret (ts, cache, r), w) =>
        (Ret tt, mkState _ ts (batch s) (roundInBatch s) cache r w (trace s))
    | (Panic why, w) =>
        (Panic why, mkState _ (Tables s) (batch s) (roundInBatch s) (e_tables s) (rng s) w (trace s))
    | (Fatal why, w) =>
        (Fatal why, mkState _ (Tables s) (batch s) (roundInBatch s) (e_tables s) (rng s) w (trace s))
    end.

(** The [default] case of the loop, lines 237-242. Go's [%] truncates. *)
Definition round : M unit :=
  do s <- get;
  (if (roundInBatch s =? 0)%Z then
     refreshDatabase ;;
     do s1 <- get;
     set_batch (wrap64 (batch s1 + 1))
   else ret tt) ;;
  progress ;;
  do s2 <- get;
  set_roundInBatch (Z.rem (wrap64 (roundInBatch s2 + 1)) 100).

(** [run]: the loop takes the [default] case [rounds] times before the
    context is done. *)
Fixpoint run (rounds : nat) : M unit :=
  match rounds with
  | O => ret tt
  | S rounds' => (round ;; run rounds')
  end.

End SQLancer.

(** The state that [NewSQLancer] builds (lines 51-62) when the executor
    connects: no tables, [batch] and [roundInBatch] zero. *)
Definition NewSQLancer `{Externals} (cache : gmap string Table) (draws : list nat)
    (w : W) : State :=
  mkState _ [] 0 0 cache draws w [].

(** ** Notions used to state the properties *)

(** A result cell is read at every column position and the pivot row has an
    item under every alias: the precondition under which [checkRow] reads
    nothing that is missing. *)
Definition rowCovers `{GoLib} (originRow : gmap string QueryItem)
    (columns : list Column) (resultSet : list (ptr QueryItem)) : Prop :=
  (length columns <= length resultSet)%nat /\
  forall c, c ∈ columns -> is_Some (originRow !! GetAliasName c).

(** The cells at the column positions are not [nil]. *)
Definition cellsPresent (columns : list Column) (resultSet : list (ptr QueryItem)) : Prop :=
  forall i cell, (i < length columns)%nat -> resultSet !! i = Some cell -> is_Some cell.

(** Every column position of the row compares equal to the pivot row. *)
Definition rowMatches `{GoLib} (originRow : gmap string QueryItem)
    (columns : list Column) (resultSet : list (ptr QueryItem)) : Prop :=
  forall i c, columns !! i = Some c ->
    exists cell, resultSet !! i = Some cell /\
      compareQueryItem (originRow !! GetAliasName c) cell = Ret true.

(** The column that the in-place update of [loadSchema] leaves at the place
    of [c]. *)
Definition retyped `{GoLib} (c : Column) (columnType columnNull : string) : Column :=
  {| Column.Table := Column.Table c; Column.Name := Column.Name c;
     Column.Type_ := columnType; Column.Length := Column.Length c;
     Column.Null := EqualFold columnNull "Yes" |}.

(** The invariant of the cache: in every table the column identifiers are
    pairwise distinct ignoring case. *)
Definition cacheDistinct `{GoLib} (tables : gmap string Table) : Prop :=
  forall name t, tables !! name = Some t -> distinctColumns (Table.Columns t).

(** The state [s] with other tables and another script of draws: what
    [randTables] may change. *)
Definition reshuffled `{Externals} (s : State) (ts : list Table) (draws : list nat) : State :=
  mkState _ ts (batch s) (roundInBatch s) (e_tables s) draws (world s) (trace s).

(** The largest number of tables that [randTables] returns for [n] tables. *)
Definition maxCount (n : nat) : nat := Nat.min (Nat.max (n - 1) 1) 4.

(** The two counters of the batch state. *)
Definition counters `{Externals} (s : State) : Z * Z := (batch s, roundInBatch s).

(** The computation [m] leaves the part [f] of the state as it found it,
    however it ends. *)
Definition preserves `{Externals} {A X : Type} (f : State -> X) (m : M A) : Prop :=
  forall s r s', m s = (r, s') -> f s' = f s.

(** The trace and [p.Tables]: what the executor's reload leaves alone. *)
Definition traceAndTables `{Externals} (s : State) : list Event * list Table :=
  (trace s, Tables s).

(** The key of a sampled cell in the pivot row. *)
Definition pivotKey (i : Table) (c : QueryItem) : string :=
  Table.Name i ++ "." ++ ct_Name (ValType c).

(** The cells of the sampled rows with their keys, in the order in which
    [ChoosePivotedRow] stores them; a table with no row contributes none. *)
Definition sampledCells (samples : list (Table * resultRows)) : list (string * QueryItem) :=
  flat_map
    (fun '(i, exeRes) =>
       match exeRes with
       | [] => []
       | row :: _ => omap (fun cell => (fun c => (pivotKey i c, c)) <$> cell) row
       end)
    samples.

(** The map after storing the cells in order: a later cell replaces an
    earlier one with the same key. *)
Definition storeAll (cells : list (string * QueryItem)) (result : gmap string QueryItem)
    : gmap string QueryItem :=
  fold_left (fun m kv => <[kv.1 := kv.2]> m) cells result.

(** The tables whose sample has a row. *)
Definition sampledTables (samples : list (Table * resultRows)) : list Table :=
  omap (fun '(i, exeRes) => match exeRes with [] => None | _ :: _ => Some i end) samples.

(** The calls made to the connection and to the schema loaders, without the
    log and the printed lines. *)
Definition isCall `{Externals} (e : Event) : bool :=
  match e with
  | ELog _ _ | EPrint _ => false
  | _ => true
  end.

Definition calls `{Externals} (t : list Event) : list Event :=
  List.filter isCall t.

(** The approaches that the configuration enables. *)
Definition enabled (conf : Config) (a : testingApproach) : bool :=
  match a with
  | approachPQS => EnablePQSApproach conf
  | approachNoREC => EnableNoRECApproach conf
  | approachTLP => EnableTLPApproach conf
  end.

(** ** A small instance to run the model on *)

Definition lowerAscii (a : Ascii.ascii) : Ascii.ascii :=
  let n := Ascii.nat_of_ascii a in
  if ((65 <=? n) && (n <=? 90))%nat then Ascii.ascii_of_nat (n + 32) else a.

Fixpoint toLower (s : string) : string :=
  match s with
  | EmptyString => EmptyString
  | String a s' => String (lowerAscii a) (toLower s')
  end.

(** Case folding on ASCII letters; the alias of a column is its name. *)
Definition asciiLib : GoLib :=
  {| EqualFold := fun s t => String.eqb (toLower s) (toLower t);
     EqualFold_refl := fun s => String.eqb_refl (toLower s);
     EqualFold_sym := fun s t => String.eqb_sym (toLower s) (toLower t);
     parseType := fun t => (t, 0);
     GetAliasName := Column.Name |}.

(** A world in which the connection answers the selects from a script of
    result sets, nothing fails, the database holds the one table [t0] with
    no columns (which is what [setUpDB] loads), and no query is a known
    bug. *)
Definition scripted : Externals :=
  {| W := list resultRows;
     SelectStmt := unit;
     Node := string;
     ExprNode := unit;
     conn_Select := fun _ w =>
       match w with
       | [] => (inl [], [])
       | rows :: w' => (inl rows, w')
       end;
     conn_Begin := fun w => (None, w);
     conn_Commit := fun w => (None, w);
     conn_CreateViewBySelect := fun _ _ _ _ w => (None, w);
     conn_FetchTables := fun _ w => (inl ["t0"], w);
     conn_FetchColumns := fun _ _ w => (inl [], w);
     conn_FetchIndexes := fun _ _ w => (inl [], w);
     conn_FetchSchema := fun _ w => (inl [], w);
     NewGenCtx := fun usedTables pivotRows =>
       {| gc_Tables := usedTables; gc_PivotRows := pivotRows; IsPQSMode := false;
          IsInExprIndex := false; EnableLeftRightJoin := true |};
     gen_SelectStmt := fun _ _ _ _ w => ((None, "SELECT 1", [], ∅, None), w);
     gen_ConditionClause := fun _ _ _ _ w => (tt, w);
     ParenthesesExpr := fun e => e;
     transformer_Transform := fun _ _ _ w => ([], w);
     BufferOut := fun n => (n, None);
     IsKnownBug := fun _ _ => false;
     Columns_sort := fun cs => cs;
     QueryItem_String := ValString;
     setUpDB := fun _ '(_, cache, draws) w =>
       (Ret ([{| Table.Name := "t0"; Table.Columns := []; Table.Indexes := [];
                 Table.Type_ := "BASE TABLE" |}], cache, draws), w) |}.

Definition exampleConf (viewCount : Z) (silent : bool) : Config :=
  {| DSN := ""; DBName := "test"; LogLevel := "info"; Depth := 1;
     ViewCount := viewCount; Silent := silent; EnableHint := false;
     EnableExprIndex := false; EnablePQSApproach := true;
     EnableNoRECApproach := true; EnableTLPApproach := true |}.

Definition exampleState (ts : list Table) (draws : list nat) (r : Z)
    (w : list resultRows) : @State scripted :=
  mkState scripted ts 0 r ∅ draws w [].

Definition exampleTable (name : string) : Table :=
  {| Table.Name := name; Table.Columns := []; Table.Indexes := [];
     Table.Type_ := "BASE TABLE" |}.

Definition exampleColumn (table name : string) : Column :=
  {| Column.Table := table; Column.Name := name; Column.Type_ := "int";
     Column.Length := 0; Column.Null := false |}.

Definition exampleItem (name value : string) : QueryItem :=
  {| QNull := false; ValType := {| ct_Name := name |}; ValString := value |}.

(** ** Further notions *)

(** The columns before position [k] compare equal, cell by cell, to the
    cells of the row from position [i] on. *)
Definition matchesUpTo `{GoLib} (originRow : gmap string QueryItem)
    (columns : list Column) (resultSet : list (ptr QueryItem)) (i k : nat) : Prop :=
  forall k' c', (k' < k)%nat -> columns !! k' = Some c' ->
    exists cell', resultSet !! (i + k')%nat = Some cell' /\
      compareQueryItem (originRow !! GetAliasName c') cell' = Ret true.

(** [checkRow] stops with the answer false at position [k]: the columns
    before [k] compare equal and the one at [k] does not. *)
Definition differsAt `{GoLib} (originRow : gmap string QueryItem)
    (columns : list Column) (resultSet : list (ptr QueryItem)) (k : nat) : Prop :=
  exists c cell,
    columns !! k = Some c /\ resultSet !! k = Some cell /\
    compareQueryItem (originRow !! GetAliasName c) cell = Ret false /\
    matchesUpTo originRow columns resultSet 0 k.

(** [checkRow] panics with [why] at position [k]: the columns before [k]
    compare equal, and at [k] the row has no cell (index out of range), or
    the cell or the pivot item is [nil]. *)
Definition panicsAt `{GoLib} (originRow : gmap string QueryItem)
    (columns : list Column) (resultSet : list (ptr QueryItem)) (k : nat)
    (why : string) : Prop :=
  exists c,
    columns !! k = Some c /\
    matchesUpTo originRow columns resultSet 0 k /\
    ((resultSet !! k = None /\ why = index_out_of_range) \/
     (exists cell, resultSet !! k = Some cell /\
                   (originRow !! GetAliasName c = None \/ cell = None) /\
                   why = nil_dereference)).

(** Everything in the state but the outside world. *)
Definition inside `{Externals} (s : State)
    : list Table * Z * Z * gmap string Table * list nat * list Event :=
  (Tables s, batch s, roundInBatch s, e_tables s, rng s, trace s).

(** ** [ExecAndVerify], lines 510-521 *)

Section ExecAndVerify.
Context `{GoLib} `{Externals}.
Local Open Scope go_scope.

(** A statement is a node of the syntax tree ([BufferOut] takes a node). *)
Variable stmtNode : ptr SelectStmt -> Node.

Definition ExecAndVerify (stmt : ptr SelectStmt) (originRow : gmap string QueryItem)
    (columns : list Column) : M (bool * option error) :=
  let (sql, err) := BufferOut (stmtNode stmt) in
  match err with
  | Some e => ret (false, Some e)
  | None =>
      do resultSets <- execSelect sql;
      match resultSets with
      | inr e => ret (false, Some e)
      | inl resultSets =>
          do res <- liftRes (verifyPQS originRow columns resultSets);
          ret (res, None)
      end
  end.

End ExecAndVerify.

(** ** Expression indexes: lines 223-229 and 401-460 *)

(** The [ast.CreateIndexStmt] that [createExpressionIndex] fills in: the
    index name, the name of the table and the expressions of the index
    parts. *)
Record CreateIndexStmt (ExprNode : Type) : Type := mkCreateIndexStmt
  { IndexName : string;
    ci_Table : CIStr;
    IndexPartSpecifications : list ExprNode }.
Arguments mkCreateIndexStmt {ExprNode} _ _ _.
Arguments IndexName {ExprNode} _.
Arguments ci_Table {ExprNode} _.
Arguments IndexPartSpecifications {ExprNode} _.

(** The helpers of packages [types] and [util] and of the syntax tree that
    the expression indexes use and the sources do not contain:
    [CIStr.HasPrefix], [RdStringChar] (a random string of the given length)
    and the view of a [CreateIndexStmt] as a node for [BufferOut]. *)
Class IndexExternals `{Externals} : Type :=
  { HasPrefix : CIStr -> string -> bool;
    RdStringChar : nat -> W -> string * W;
    indexNode : CreateIndexStmt ExprNode -> Node }.

(** The assignments [gCtx.IsInExprIndex = b] and
    [gCtx.EnableLeftRightJoin = b]. *)
Definition setInExprIndex (b : bool) (g : GenCtx) : GenCtx :=
  {| gc_Tables := gc_Tables g; gc_PivotRows := gc_PivotRows g;
     IsPQSMode := IsPQSMode g; IsInExprIndex := b;
     EnableLeftRightJoin := EnableLeftRightJoin g |}.

Definition setLeftRightJoin (b : bool) (g : GenCtx) : GenCtx :=
  {| gc_Tables := gc_Tables g; gc_PivotRows := gc_PivotRows g;
     IsPQSMode := IsPQSMode g; IsInExprIndex := IsInExprIndex g;
     EnableLeftRightJoin := b |}.

Section ExprIndex.
Context `{GoLib} `{Externals} `{!IndexExternals}.
Variable conf : Config.
Local Open Scope go_scope.

(** Lines 428-438: the local copy of the table, without the columns whose
    name starts with [id_]. [p.Tables] keeps the table as it is: [table] is
    a copy of the struct. *)
Definition withoutIdColumns (table : Table) : Table :=
  {| Table.Name := Table.Name table;
     Table.Columns :=
       List.filter (fun column => negb (HasPrefix (Column.Name column) "id_"))
         (Table.Columns table);
     Table.Indexes := Table.Indexes table;
     Table.Type_ := Table.Type_ table |}.

(** The loop of lines 441-446, [for x := 0; x < Rd(3)+1; x++]: the bound is
    drawn again at every test. [remaining] is [3 - x]; at [x = 3] the test
    fails for every draw. *)
Fixpoint exprLoop (table : Table) (remaining : nat) (exprs : list ExprNode)
    : M (list ExprNode) :=
  do r <- Rd 3;
  match remaining with
  | O => ret exprs
  | S remaining' =>
      if (3 - remaining <? r + 1)%nat then
        let gCtx := setLeftRightJoin false (setInExprIndex true (NewGenCtx [table] None)) in
        do s <- get;
        do expr <- call (gen_ConditionClause (EnableHint conf) (Tables s) gCtx 1);
        exprLoop table remaining' (exprs ++ [ParenthesesExpr expr])
      else ret exprs
  end.

(** [createExpressionIndex], lines 419-460; [None] is the [nil] result. *)
Definition createExpressionIndex : M (ptr (CreateIndexStmt ExprNode)) :=
  do s <- get;
  do i <- Rd (length (Tables s));
  match Tables s !! i with
  | None => panic index_out_of_range
  | Some table =>
      if EqString (Table.Name table) "table_varchar" then ret None
      else
        let table' := withoutIdColumns table in
        do exprs <- exprLoop table' 3 [];
        do suffix <- call (RdStringChar 5);
        ret (Some {| IndexName := "idx_" ++ suffix;
                     ci_Table := Table.Name table';
                     IndexPartSpecifications := exprs |})
  end.

(** The body of the loop of [addExprIndex], lines 403-414. The [sql] that is
    printed is the variable declared at line 407, which stays empty: the
    [sql] of line 408 is another variable. *)
Definition addOneExprIndex : M unit :=
  do n <- createExpressionIndex;
  match n with
  | None => ret tt
  | Some n =>
      let (sql, err) := BufferOut (indexNode n) in
      match err with
      | Some e => panic e
      | None =>
          do res <- call (conn_Select sql);
          emit (ESelect sql res) ;;
          match res with
          | inr e => panic e
          | inl _ =>
              emit (EPrint ("add one index on expression success SQL:" ++ "" ++ nl))
          end
      end
  end.

(** The loop of [addExprIndex], [for i := 0; i < Rd(10)+1; i++];
    [remaining] is [10 - i]. *)
Fixpoint addExprLoop (remaining : nat) : M unit :=
  do r <- Rd 10;
  match remaining with
  | O => ret tt
  | S remaining' =>
      if (10 - remaining <? r + 1)%nat then (addOneExprIndex ;; addExprLoop remaining')
      else ret tt
  end.

(** [addExprIndex], lines 401-417. *)
Definition addExprIndex : M unit :=
  addExprLoop 10 ;;
  emit (EPrint ("Create expression index successfully" ++ nl)).

(** [createExprIdx], lines 223-229. *)
Definition createExprIdx : M unit :=
  if EnableExprIndex conf then (addExprIndex ;; LoadSchema conf) else ret tt.

End ExprIndex.

(** The select events of a trace. *)
Definition isSelect `{Externals} (e : Event) : bool :=
  match e with
  | ESelect _ _ => true
  | _ => false
  end.

(** The scripted world creates indexes named [idx_aaaaa]; a statement
    restores to its index name. *)
Definition scriptedIndexes : @IndexExternals scripted :=
  {| HasPrefix := fun c s => String.prefix (toLower s) (toLower c);
     RdStringChar := fun _ w => ("aaaaa", w);
     indexNode := fun n => (IndexName n : @Node scripted) |}.

(** The state [s] after draws from the random source, calls to the
    collaborators and the events [added]: [p.Tables], the executor's cache
    and the counters are those of [s]. *)
Definition after `{Externals} (s : State) (draws : list nat) (w : W)
    (added : list Event) : State :=
  mkState _ (Tables s) (batch s) (roundInBatch s) (e_tables s) draws w (trace s ++ added).

(** The two lines that [addExprIndex] prints. *)
Definition indexAdded : string := "add one index on expression success SQL:" ++ nl.
Definition indexesDone : string := "Create expression index successfully" ++ nl.

(** How one attempt of [addExprIndex] ends and what it adds to the trace:
    the table is skipped, no statement is sent (no table is loaded or the
    statement cannot be restored), the statement fails, or it succeeds and
    a line is printed. *)
Inductive indexAttempt `{GoLib} `{Externals} (ts : list Table)
    : Res unit -> list Event -> Prop :=
| attempt_skipped (t : Table) :
    t ∈ ts -> EqString (Table.Name t) "table_varchar" = true ->
    indexAttempt ts (Ret tt) []
| attempt_unsent (why : string) :
    (ts = [] -> why = invalid_Intn) ->
    indexAttempt ts (Panic why) []
| attempt_failed (sql : string) (e : error) :
    ts <> [] ->
    indexAttempt ts (Panic e) [ESelect sql (inr e)]
| attempt_done (sql : string) (rows : resultRows) :
    ts <> [] ->
    indexAttempt ts (Ret tt) [ESelect sql (inl rows); EPrint indexAdded].

(** The event prints the line [text]. *)
Definition prints `{Externals} (text : string) (e : Event) : bool :=
  match e with
  | EPrint t => String.eqb t text
  | _ => false
  end.

(** ** Populating the tables: [populateData], lines 153-221 *)

(** [strconv.ParseUint(s, 10, 64)], the number it returns: zero on a syntax
    error (an empty string, a character that is no digit), the largest
    64-bit number when the digits read so far overflow. *)
Definition maxUint64 : N := 18446744073709551615%N.

Definition digitOf (c : Ascii.ascii) : option N :=
  let n := Ascii.N_of_ascii c in
  if ((48 <=? n) && (n <=? 57))%N then Some (n - 48)%N else None.

Fixpoint parseDigits (s : string) (n : N) : N :=
  match s with
  | EmptyString => n
  | String c s' =>
      match digitOf c with
      | None => 0%N
      | Some d =>
          if (maxUint64 / 10 + 1 <=? n)%N then maxUint64
          else
            let n1 := (n * 10 + d)%N in
            if (maxUint64 <? n1)%N then maxUint64 else parseDigits s' n1
      end
  end.

Definition ParseUint (s : string) : N :=
  match s with
  | EmptyString => 0%N
  | _ => parseDigits s 0
  end.

(** The executor's and the generator's statements for the data, which are
    not among the sources. Modelled from the spec: [Exec(sql)] executes a
    statement and reports its error; [GenerateDMLInsertByTable(name)] gives
    one INSERT into the named table, or an error; [DeleteStmt] and
    [UpdateStmt] give a statement and an error. The methods of the executor
    read its cache, those of the generator its configuration and
    [p.Tables]. *)
Class DataExternals `{Externals} : Type :=
  { executor_Exec : string -> W -> option error * W;
    executor_GenerateDMLInsertByTable :
      gmap string Table -> string -> W -> (string + error) * W;
    gen_DeleteStmt :
      bool -> list Table -> list Table -> Table -> W -> (string * option error) * W;
    gen_UpdateStmt :
      bool -> list Table -> list Table -> Table -> W -> (string * option error) * W }.

Section Populate.
Context `{GoLib} `{Externals} `{!DataExternals}.
Variable conf : Config.
Local Open Scope go_scope.

(** [log.L().Panic]: the message is logged and the goroutine panics. *)
Definition log_Panic {A} (msg : string) : M A := (log "panic" msg ;; panic msg).

(** The closure [insertData], lines 160-169. *)
Definition insertData (table : Table) : M unit :=
  do s <- get;
  do sql <- call (executor_GenerateDMLInsertByTable (e_tables s) (Table.Name table));
  match sql with
  | inr err => panic err
  | inl sql =>
      do err <- call (executor_Exec sql);
      match err with
      | Some _ => log "error" "insert data failed"
      | None => ret tt
      end
  end.

(** The switch of lines 183-196. *)
Definition genDML (tables : list Table) (table : Table) : M (string * option error) :=
  do r <- Rd 2;
  do s <- get;
  if (r =? 0)%nat then
    do stmt <- call (gen_DeleteStmt (EnableHint conf) (Tables s) tables table);
    match snd stmt with
    | Some _ => (log "error" "generate delete stmt failed" ;; ret stmt)
    | None => ret stmt
    end
  else
    do stmt <- call (gen_UpdateStmt (EnableHint conf) (Tables s) tables table);
    match snd stmt with
    | Some _ => (log "error" "generate update stmt failed" ;; ret stmt)
    | None => ret stmt
    end.

(** The loop of lines 173-203, [for i := Rd(4); i > 0; i--]. [err] is the
    variable of line 154, which the loop tests at line 176 and assigns at
    lines 185, 191 and 198; the loop returns its last value. *)
Fixpoint dmlLoop (table : Table) (i : nat) (err : option error) : M (option error) :=
  match i with
  | O => ret err
  | S i' =>
      do tables <- randTables;
      match err with
      | Some e => panic e
      | None =>
          if (length tables =? 0)%nat then
            log_Panic "tables random by ChoosePivotedRow is empty"
          else
            do stmt <- genDML tables table;
            log "info" "Update/Delete statement" ;;
            do err' <- call (executor_Exec (fst stmt));
            match err' with
            | Some e => (log "error" "update/delete data failed" ;; panic e)
            | None => dmlLoop table i' err'
            end
      end
  end.

Definition countSQL (table : Table) : string :=
  "select count(*) from " ++ Table.Name table.

(** The body of the loop over the tables, lines 160-215, and the loop. The
    rows of a select that failed are nil. *)
Fixpoint populateTables (tables : list Table) (err : option error) : M unit :=
  match tables with
  | [] => ret tt
  | table :: tables' =>
      insertData table ;;
      do i <- Rd 4;
      do err <- dmlLoop table i err;
      do res <- call (conn_Select (countSQL table));
      emit (ESelect (countSQL table) res) ;;
      do qi <- match res with
               | inr _ => (log "error" "insert data failed" ;; ret [])
               | inl qi => ret qi
               end;
      match qi with
      | [] => panic index_out_of_range
      | [] :: _ => panic index_out_of_range
      | (None :: _) :: _ => panic nil_dereference
      | (Some cell :: _) :: _ =>
          log "debug" "table check records count" ;;
          (if (ParseUint (ValString cell) =? 0)%N then
             (log "info" (Table.Name table ++ " is empty after DELETE") ;;
              insertData table)
           else ret tt) ;;
          populateTables tables' err
      end
  end.

(** [populateData], lines 153-221. The tables of the executor's cache are
    visited in the order of [map_to_list]; Go leaves the order open. *)
Definition populateData : M unit :=
  do err <- call conn_Begin;
  emit (EBegin err) ;;
  match err with
  | Some _ => log "error" "begin txn failed"
  | None =>
      do s <- get;
      populateTables (snd <$> map_to_list (e_tables s)) None ;;
      do err <- call conn_Commit;
      emit (ECommit err) ;;
      match err with
      | Some _ => log "error" "commit txn failed"
      | None => ret tt
      end
  end.

End Populate.

(** The state [s] with [p.Tables] reordered, after draws, calls and events. *)
Definition moved `{Externals} (s : State) (ts : list Table) (draws : list nat)
    (w : W) (added : list Event) : State :=
  mkState _ ts (batch s) (roundInBatch s) (e_tables s) draws w (trace s ++ added).

(** [m] never exits the process, and all it does to the state is to reorder
    [p.Tables], to draw, to call collaborators and to log. *)
Definition quiet `{Externals} {A : Type} (m : M A) : Prop :=
  forall s res s',
    m s = (res, s') ->
    (forall why, res <> Fatal why) /\
    exists ts draws w added,
      s' = moved s ts draws w added /\ ts ≡ₚ Tables s /\ calls added = [].

(** [m] returns a value with [Q] from every state that has a table loaded,
    and leaves one loaded. *)
Definition returns `{Externals} {A : Type} (Q : A -> Prop) (m : M A) : Prop :=
  forall s, Tables s <> [] -> exists a s', m s = (Ret a, s') /\ Tables s' <> [] /\ Q a.

(** The answer to a count query has a first row with a first cell. *)
Definition hasCount (res : resultRows + error) : Prop :=
  exists cell row rows, res = inl ((Some cell :: row) :: rows).

(** The count queries on the tables [ts] with their answers. *)
Definition countQueries `{Externals} (ts : list Table) (answers : list (resultRows + error))
    : list Event :=
  zip_with (fun t res => ESelect (countSQL t) res) ts answers.

(** What [populateTables] on [tables] makes of the state [s]: it sends the
    count queries of the tables [processed], the first ones of [tables], and
    nothing else that is not logged; it processes all of them when it
    returns, and an answer without a count makes it panic. *)
Definition populated `{Externals} (tables : list Table) (s : State) (res : Res unit)
    (s' : State) : Prop :=
  exists ts draws w added processed answers,
    s' = moved s ts draws w added /\ ts ≡ₚ Tables s /\
    (forall why, res <> Fatal why) /\
    calls added = countQueries processed answers /\
    length answers = length processed /\
    processed `prefix_of` tables /\
    (res = Ret tt -> processed = tables) /\
    (forall ans, ans ∈ answers ->
       hasCount ans \/ res = Panic index_out_of_range \/ res = Panic nil_dereference).

(** A world like the scripted one in which every select answers with the
    count 3, and no statement fails; the generator has no DELETE to offer. *)
Definition counting : Externals :=
  {| W := @W scripted;
     SelectStmt := @SelectStmt scripted;
     Node := @Node scripted;
     ExprNode := @ExprNode scripted;
     conn_Select := fun _ w => (inl [[Some (exampleItem "count(*)" "3")]], w);
     conn_Begin := @conn_Begin scripted;
     conn_Commit := @conn_Commit scripted;
     conn_CreateViewBySelect := @conn_CreateViewBySelect scripted;
     conn_FetchTables := @conn_FetchTables scripted;
     conn_FetchColumns := @conn_FetchColumns scripted;
     conn_FetchIndexes := @conn_FetchIndexes scripted;
     conn_FetchSchema := @conn_FetchSchema scripted;
     NewGenCtx := @NewGenCtx scripted;
     gen_SelectStmt := @gen_SelectStmt scripted;
     gen_ConditionClause := @gen_ConditionClause scripted;
     ParenthesesExpr := @ParenthesesExpr scripted;
     transformer_Transform := @transformer_Transform scripted;
     BufferOut := @BufferOut scripted;
     IsKnownBug := @IsKnownBug scripted;
     Columns_sort := @Columns_sort scripted;
     QueryItem_String := @QueryItem_String scripted;
     setUpDB := @setUpDB scripted |}.

Definition countingData : @DataExternals counting :=
  {| executor_Exec := fun _ w => (None, w);
     executor_GenerateDMLInsertByTable := fun _ name w =>
       (inl ("insert into " ++ name)%string, w);
     gen_DeleteStmt := fun _ _ _ _ w => (("", Some "no delete"%string), w);
     gen_UpdateStmt := fun _ _ _ t w => (("update " ++ Table.Name t, None)%string, w) |}.

(** * Properties *)

Example viewName_7 : viewName 7 = "view_7".
Proof. reflexivity. Qed.

Example split_key : split dot "t1.c2" = ["t1"; "c2"].
Proof. reflexivity. Qed.

Example wrap64_max : wrap64 (2 ^ 63 - 1 + 1) = - 2 ^ 63.
Proof. reflexivity. Qed.

(** ** The comparison of result cells *)

Section QueryItems.

Lemma compareQueryItem_Some (A B : QueryItem) :
  compareQueryItem (Some A) (Some B) =
  Ret (Bool.eqb (QNull A) (QNull B)
       && ((QNull A && QNull B) || String.eqb (ValString A) (ValString B))).
Proof.
  unfold compareQueryItem.
  destruct (QNull A), (QNull B); reflexivity.
Qed.

Lemma compareQueryItem_true (A B : QueryItem) :
  compareQueryItem (Some A) (Some B) = Ret true <->
  (QNull A = true /\ QNull B = true) \/
  (QNull A = false /\ QNull B = false /\ ValString A = ValString B).
Proof.
  rewrite compareQueryItem_Some.
  destruct (QNull A), (QNull B); simpl;
    try (destruct (String.eqb_spec (ValString A) (ValString B)));
    split; intros Hc; try discriminate; try tauto; try congruence;
    destruct Hc as [[? ?]|(? & ? & ?)]; congruence.
Qed.

(** C9. [compareQueryItem] is an equivalence on result cells: it holds of a
    cell and itself, its verdict does not depend on the order of its
    arguments, it is transitive, and two cells compare equal exactly when
    both are null or both are non-null with equal string renderings. *)
Theorem compareQueryItem_equivalence :
  (forall Q : QueryItem, compareQueryItem (Some Q) (Some Q) = Ret true) /\
  (forall A B : QueryItem,
      compareQueryItem (Some A) (Some B) = compareQueryItem (Some B) (Some A)) /\
  (forall A B C : QueryItem,
      compareQueryItem (Some A) (Some B) = Ret true ->
      compareQueryItem (Some B) (Some C) = Ret true ->
      compareQueryItem (Some A) (Some C) = Ret true) /\
  (forall A B : QueryItem,
      compareQueryItem (Some A) (Some B) = Ret true <->
      (QNull A = true /\ QNull B = true) \/
      (QNull A = false /\ QNull B = false /\ ValString A = ValString B)).
Proof.
  split; [|split; [|split]].
  - intros Q. apply compareQueryItem_true.
    destruct (QNull Q); [left|right]; auto.
  - intros A B. rewrite !compareQueryItem_Some.
    rewrite (String.eqb_sym (ValString A)).
    destruct (QNull A), (QNull B); reflexivity.
  - intros A B C HAB HBC.
    apply compareQueryItem_true in HAB, HBC. apply compareQueryItem_true.
    destruct HAB as [[? ?]|(? & ? & ?)], HBC as [[? ?]|(? & ? & ?)];
      try congruence; [left|right]; repeat split; congruence.
  - apply compareQueryItem_true.
Qed.

(** The transitivity of C9 on three cells that are pairwise equal. *)
Lemma compareQueryItem_equivalence_witness :
  compareQueryItem (Some (exampleItem "a" "1")) (Some (exampleItem "c" "1")) = Ret true.
Proof.
  apply (proj1 (proj2 (proj2 compareQueryItem_equivalence))
           (exampleItem "a" "1") (exampleItem "b" "1") (exampleItem "c" "1"));
    reflexivity.
Defined.

End QueryItems.

(** ** The comparison of result sets *)

Section ResultSets.

Lemma forallb_length_eq (n : nat) (set : list (list (list (ptr QueryItem)))) :
  forallb (fun rows => (length rows =? n)%nat) set = true <->
  forall rows, rows ∈ set -> length rows = n.
Proof.
  rewrite forallb_forall. split; intros Hall rows Hin.
  - apply Nat.eqb_eq, Hall, list_elem_of_In, Hin.
  - apply Nat.eqb_eq, Hall, list_elem_of_In, Hin.
Qed.

Lemma forallb_lengths (n : nat) (set : list (list (list (ptr QueryItem)))) :
  forallb (fun rows => (length rows =? n)%nat) set =
  forallb (fun m => (m =? n)%nat) (map length set).
Proof.
  induction set as [|a set IH]; simpl; [reflexivity|]. rewrite IH. reflexivity.
Qed.

Lemma checkResultSet_lengths (set set' : list (list (list (ptr QueryItem))))
    (ignoreSort ignoreSort' : bool) :
  map length set = map length set' ->
  checkResultSet set ignoreSort = checkResultSet set' ignoreSort'.
Proof.
  intros Hlen. unfold checkResultSet.
  assert (length set = length set') as ->.
  { rewrite <- (length_map length set), Hlen. apply length_map. }
  destruct (length set' <? 2)%nat; [reflexivity|].
  destruct set as [|a set], set' as [|a' set']; try discriminate; [reflexivity|].
  injection Hlen as Ha Hrest. rewrite Ha.
  rewrite !(forallb_lengths (length a')). simpl. rewrite Ha, Hrest. reflexivity.
Qed.

(** C5. [checkResultSet] answers true exactly when the group has fewer than
    two result sets or all its result sets have the same number of rows; the
    verdict is the same for any two groups with the same row counts and for
    either value of [ignoreSort]. *)
Theorem checkResultSet_row_counts :
  (forall (set : list (list (list (ptr QueryItem)))) (ignoreSort : bool),
      checkResultSet set ignoreSort = true <->
      (length set < 2)%nat \/
      (forall a b, a ∈ set -> b ∈ set -> length a = length b)) /\
  (forall (set set' : list (list (list (ptr QueryItem)))) (ignoreSort ignoreSort' : bool),
      map length set = map length set' ->
      checkResultSet set ignoreSort = checkResultSet set' ignoreSort').
Proof.
  split; [|apply checkResultSet_lengths].
  intros set ignoreSort. unfold checkResultSet.
  destruct (Nat.ltb_spec (length set) 2) as [Hlt|Hge].
  { split; auto. }
  destruct set as [|set0 set]; [simpl in Hge; lia|].
  rewrite forallb_length_eq. split.
  - intros Hall. right. intros a b Ha Hb.
    rewrite (Hall a Ha), (Hall b Hb). reflexivity.
  - intros [Hlt|Hall]; [lia|].
    intros rows Hin. apply Hall; [exact Hin|left].
Qed.

(** Two groups with row counts 1 and 1 get the same verdict, whatever the
    cells and whatever [ignoreSort]. *)
Lemma checkResultSet_row_counts_witness :
  checkResultSet [[[Some (exampleItem "a" "1")]]; [[None]]] true =
  checkResultSet [[[None]]; [[Some (exampleItem "b" "2")]]] false.
Proof.
  apply (proj2 checkResultSet_row_counts). reflexivity.
Defined.

End ResultSets.

(** ** Row verification of the PQS oracle *)

Section RowVerification.
Context `{GoLib}.

Lemma checkRow_from_covered (originRow : gmap string QueryItem)
    (columns : list Column) (resultSet : list (ptr QueryItem)) (i : nat) :
  (i + length columns <= length resultSet)%nat ->
  (forall c, c ∈ columns -> is_Some (originRow !! GetAliasName c)) ->
  (forall k cell, (i <= k < i + length columns)%nat ->
                  resultSet !! k = Some cell -> is_Some cell) ->
  exists b,
    checkRow_from i originRow columns resultSet = Ret b /\
    (b = true <->
     forall k c, columns !! k = Some c ->
       exists cell, resultSet !! (i + k)%nat = Some cell /\
         compareQueryItem (originRow !! GetAliasName c) cell = Ret true).
Proof.
  revert i. induction columns as [|c columns IH]; intros i Hlen Hpivot Hcells.
  - exists true. split; [reflexivity|]. split; [|reflexivity].
    intros _ k c Hk. rewrite lookup_nil in Hk. discriminate.
  - simpl in Hlen |- *.
    destruct (lookup_lt_is_Some_2 resultSet i ltac:(lia)) as [cell Hcell].
    rewrite Hcell.
    destruct (Hcells i cell ltac:(simpl; lia) Hcell) as [q ->].
    destruct (Hpivot c ltac:(left)) as [p Hp]. rewrite Hp.
    rewrite compareQueryItem_Some.
    set (eq := Bool.eqb (QNull p) (QNull q) && _).
    assert (compareQueryItem (originRow !! GetAliasName c) (Some q) = Ret eq) as Hcmp.
    { rewrite Hp. apply compareQueryItem_Some. }
    destruct eq eqn:Heq.
    + destruct (IH (S i)) as (b & Hb & Hiff).
      * lia.
      * intros c' Hc'. apply Hpivot. right. exact Hc'.
      * intros k cell' Hk. apply Hcells. simpl. lia.
      * exists b. split; [exact Hb|]. rewrite Hiff. split.
        -- intros Hall [|k] c' Hk; simpl in Hk.
           ++ injection Hk as <-. exists (Some q).
              rewrite Nat.add_0_r. split; [exact Hcell|exact Hcmp].
           ++ replace (i + S k)%nat with (S i + k)%nat by lia. apply Hall, Hk.
        -- intros Hall k c' Hk.
           replace (S i + k)%nat with (i + S k)%nat by lia. apply Hall, Hk.
    + exists false. split; [reflexivity|]. split; [discriminate|].
      intros Hall. destruct (Hall 0%nat c eq_refl) as (cell' & Hcell' & Hcmp').
      rewrite Nat.add_0_r, Hcell in Hcell'. injection Hcell' as <-.
      rewrite Hcmp in Hcmp'. discriminate.
Qed.

Lemma checkRow_covered (originRow : gmap string QueryItem)
    (columns : list Column) (resultSet : list (ptr QueryItem)) :
  rowCovers originRow columns resultSet ->
  cellsPresent columns resultSet ->
  exists b,
    checkRow originRow columns resultSet = Ret b /\
    (b = true <-> rowMatches originRow columns resultSet).
Proof.
  intros [Hlen Hpivot] Hcells.
  apply (checkRow_from_covered originRow columns resultSet 0).
  - simpl. exact Hlen.
  - exact Hpivot.
  - intros k cell Hk. apply Hcells. lia.
Qed.

(** C10, as amended. When every result row has at least [len(columns)]
    cells, none of them [nil], and the pivot row has an item under the alias
    of every column, [checkRow] and [verifyPQS] return without a panic;
    [checkRow] answers true exactly when every column position compares
    equal, and [verifyPQS] exactly when some row does. *)
Theorem verifyPQS_defined_when_covered (originRow : gmap string QueryItem)
    (columns : list Column) (resultSets : list (list (ptr QueryItem))) :
  (forall row, row ∈ resultSets ->
     rowCovers originRow columns row /\ cellsPresent columns row) ->
  (forall row, row ∈ resultSets ->
     exists b, checkRow originRow columns row = Ret b /\
               (b = true <-> rowMatches originRow columns row)) /\
  exists b,
    verifyPQS originRow columns resultSets = Ret b /\
    (b = true <->
     exists row, row ∈ resultSets /\ rowMatches originRow columns row).
Proof.
  intros Hpre. split.
  { intros row Hrow. destruct (Hpre row Hrow). apply checkRow_covered; assumption. }
  induction resultSets as [|row resultSets IH].
  - exists false. split; [reflexivity|]. split; [discriminate|].
    intros (row & Hrow & _). inversion Hrow.
  - simpl.
    destruct (Hpre row ltac:(left)) as [Hcov Hcells].
    destruct (checkRow_covered originRow columns row Hcov Hcells) as (b & -> & Hb).
    destruct b.
    + exists true. split; [reflexivity|]. split; [|reflexivity].
      intros _. exists row. split; [left|]. apply Hb. reflexivity.
    + destruct IH as (b' & Hb' & Hiff).
      { intros row' Hrow'. apply Hpre. right. exact Hrow'. }
      exists b'. split; [exact Hb'|]. rewrite Hiff. split.
      * intros (row' & Hrow' & Hm). exists row'. split; [right; exact Hrow'|exact Hm].
      * intros (row' & Hrow' & Hm).
        apply elem_of_cons in Hrow' as [->|Hrow'].
        -- apply Hb in Hm. discriminate.
        -- exists row'. split; assumption.
Qed.

End RowVerification.

(** C10 on one row of one cell that equals the pivot: the result is true. *)
Lemma verifyPQS_defined_when_covered_witness :
  exists b,
    @verifyPQS asciiLib {["a" := exampleItem "a" "1"]} [exampleColumn "t" "a"]
      [[Some (exampleItem "a" "1")]] = Ret b.
Proof.
  destruct (@verifyPQS_defined_when_covered asciiLib
              {["a" := exampleItem "a" "1"]} [exampleColumn "t" "a"]
              [[Some (exampleItem "a" "1")]]) as (_ & b & Hb & _).
  - intros row Hrow. apply list_elem_of_singleton in Hrow as ->. split.
    + split; [simpl; lia|].
      intros c Hc. apply list_elem_of_singleton in Hc as ->.
      exists (exampleItem "a" "1"). reflexivity.
    + intros [|i] cell Hi Hcell; simpl in Hi, Hcell; [|lia].
      injection Hcell as <-. eexists. reflexivity.
  - exists b. exact Hb.
Defined.

(** C10 as first stated fails in both directions. With columns [a] and [b],
    a pivot row that has only [a] and a result row of one cell that differs
    at [a], [checkRow] returns false and reads neither the missing cell nor
    the missing pivot item. With a result row whose only cell is [nil], the
    row is long enough and the pivot row is complete, and [checkRow]
    panics. *)
Lemma checkRow_precondition_counterexample :
  (@checkRow asciiLib {["a" := exampleItem "a" "1"]}
     [exampleColumn "t" "a"; exampleColumn "t" "b"]
     [Some (exampleItem "a" "2")] = Ret false /\
   @verifyPQS asciiLib {["a" := exampleItem "a" "1"]}
     [exampleColumn "t" "a"; exampleColumn "t" "b"]
     [[Some (exampleItem "a" "2")]] = Ret false /\
   ~ @rowCovers asciiLib {["a" := exampleItem "a" "1"]}
       [exampleColumn "t" "a"; exampleColumn "t" "b"]
       [Some (exampleItem "a" "2")]) /\
  (@rowCovers asciiLib {["a" := exampleItem "a" "1"]} [exampleColumn "t" "a"] [None] /\
   @checkRow asciiLib {["a" := exampleItem "a" "1"]} [exampleColumn "t" "a"] [None]
   = Panic nil_dereference).
Proof.
  split; [split; [|split]|split].
  - reflexivity.
  - reflexivity.
  - intros [Hlen _]. simpl in Hlen. lia.
  - split; [simpl; lia|].
    intros c Hc. apply list_elem_of_singleton in Hc as ->.
    exists (exampleItem "a" "1"). reflexivity.
  - reflexivity.
Qed.

(** ** The schema cache *)

Section SchemaCache.
Context `{GoLib}.

Lemma updateColumn_names columns columnName columnType columnNull updated :
  updateColumn columns columnName columnType columnNull = Some updated ->
  map Column.Name updated = map Column.Name columns.
Proof.
  revert updated. induction columns as [|c columns IH]; intros updated Hup; simpl in Hup.
  - discriminate.
  - destruct (EqString (Column.Name c) columnName).
    + injection Hup as <-. reflexivity.
    + destruct (updateColumn columns columnName columnType columnNull) as [u|];
        [|discriminate].
      injection Hup as <-. simpl. rewrite (IH u eq_refl). reflexivity.
Qed.

Lemma updateColumn_None columns columnName columnType columnNull :
  updateColumn columns columnName columnType columnNull = None ->
  forall c, c ∈ columns -> EqString (Column.Name c) columnName = false.
Proof.
  induction columns as [|c columns IH]; intros Hup c' Hc'.
  - inversion Hc'.
  - simpl in Hup. destruct (EqString (Column.Name c) columnName) eqn:Heq; [discriminate|].
    destruct (updateColumn columns columnName columnType columnNull); [discriminate|].
    apply elem_of_cons in Hc' as [->|Hc']; [exact Heq|]. apply IH; [reflexivity|exact Hc'].
Qed.

Lemma updateColumn_first columns columnName columnType columnNull i c :
  columns !! i = Some c ->
  EqString (Column.Name c) columnName = true ->
  (forall j c', (j < i)%nat -> columns !! j = Some c' ->
                EqString (Column.Name c') columnName = false) ->
  updateColumn columns columnName columnType columnNull =
  Some (<[i := retyped c columnType columnNull]> columns).
Proof.
  revert i. induction columns as [|c0 columns IH]; intros i Hi Hc Hfirst.
  - rewrite lookup_nil in Hi. discriminate.
  - destruct i as [|i]; simpl in Hi |- *.
    + injection Hi as ->. rewrite Hc. reflexivity.
    + rewrite (Hfirst 0%nat c0 ltac:(lia) eq_refl).
      rewrite (IH i Hi Hc); [reflexivity|].
      intros j c' Hj Hc'. apply (Hfirst (S j) c'); [lia|exact Hc'].
Qed.

Lemma distinctColumns_names (columns columns' : list Column) :
  map Column.Name columns' = map Column.Name columns ->
  distinctColumns columns -> distinctColumns columns'.
Proof.
  intros Hnames Hd i j ci cj Hij Hi Hj.
  assert (forall k ck, columns' !! k = Some ck ->
            exists ck', columns !! k = Some ck' /\ Column.Name ck' = Column.Name ck) as Hsame.
  { intros k ck Hk.
    assert (map Column.Name columns' !! k = Some (Column.Name ck)) as Hn.
    { change (map Column.Name columns') with (Column.Name <$> columns').
      rewrite list_lookup_fmap, Hk. reflexivity. }
    rewrite Hnames in Hn.
    change (map Column.Name columns) with (Column.Name <$> columns) in Hn.
    rewrite list_lookup_fmap in Hn.
    destruct (columns !! k) as [ck'|]; [|discriminate].
    injection Hn as Hn. exists ck'. split; [reflexivity|exact Hn]. }
  destruct (Hsame i ci Hi) as (ci' & Hi' & <-).
  destruct (Hsame j cj Hj) as (cj' & Hj' & <-).
  exact (Hd i j ci' cj' Hij Hi' Hj').
Qed.

Lemma distinctColumns_snoc (columns : list Column) (c : Column) :
  distinctColumns columns ->
  (forall c', c' ∈ columns -> EqString (Column.Name c') (Column.Name c) = false) ->
  distinctColumns (columns ++ [c]).
Proof.
  intros Hd Hfresh i j ci cj Hij Hi Hj.
  apply lookup_app_Some in Hi as [Hi|[Hige Hi]];
    apply lookup_app_Some in Hj as [Hj|[Hjge Hj]].
  - exact (Hd i j ci cj Hij Hi Hj).
  - apply list_lookup_singleton_Some in Hj as [_ <-].
    apply Hfresh. apply list_elem_of_lookup. exists i. exact Hi.
  - apply list_lookup_singleton_Some in Hi as [_ <-].
    unfold EqString. rewrite EqualFold_sym.
    apply Hfresh. apply list_elem_of_lookup. exists j. exact Hj.
  - apply list_lookup_singleton_Some in Hi as [Hi0 _].
    apply list_lookup_singleton_Some in Hj as [Hj0 _]. lia.
Qed.

Lemma distinctColumns_nil : distinctColumns [].
Proof. intros i j ci cj _ Hi. rewrite lookup_nil in Hi. discriminate. Qed.

Lemma loadRecord_distinct db indexes tables r :
  cacheDistinct tables -> cacheDistinct (loadRecord db indexes tables r).
Proof.
  intros Hinv. unfold loadRecord.
  destruct (negb (String.eqb (dbname r) db)); [exact Hinv|].
  intros name t Hlook.
  destruct (decide (tableName r = name)) as [<-|Hne];
    [|rewrite lookup_insert_ne in Hlook by exact Hne; exact (Hinv name t Hlook)].
  rewrite lookup_insert_eq in Hlook. injection Hlook as <-. simpl.
  set (t0 := match tables !! tableName r with Some t => t | None => _ end).
  assert (distinctColumns (Table.Columns t0)) as Hd0.
  { unfold t0. destruct (tables !! tableName r) as [t|] eqn:Ht.
    - exact (Hinv _ _ Ht).
    - apply distinctColumns_nil. }
  destruct (updateColumn (Table.Columns t0) (columnName r) (columnType r) (columnNull r))
    as [updated|] eqn:Hup.
  - exact (distinctColumns_names _ _ (updateColumn_names _ _ _ _ _ Hup) Hd0).
  - apply distinctColumns_snoc; [exact Hd0|].
    intros c' Hc'. simpl. exact (updateColumn_None _ _ _ _ Hup c' Hc').
Qed.

Lemma loadSchema_distinct db records indexes :
  cacheDistinct (loadSchema db records indexes).
Proof.
  unfold loadSchema.
  assert (cacheDistinct (∅ : gmap string Table)) as Hempty.
  { intros name t Hlook. rewrite lookup_empty in Hlook. discriminate. }
  revert Hempty. generalize (∅ : gmap string Table).
  induction records as [|r records IH]; intros tables Hinv; simpl.
  - exact Hinv.
  - apply IH, loadRecord_distinct, Hinv.
Qed.

Lemma loadRecord_in_place db indexes tables r t i c :
  String.eqb (dbname r) db = true ->
  tables !! tableName r = Some t ->
  Table.Columns t !! i = Some c ->
  EqString (Column.Name c) (columnName r) = true ->
  (forall j c', (j < i)%nat -> Table.Columns t !! j = Some c' ->
                EqString (Column.Name c') (columnName r) = false) ->
  exists t',
    loadRecord db indexes tables r !! tableName r = Some t' /\
    Table.Columns t' = <[i := retyped c (columnType r) (columnNull r)]> (Table.Columns t) /\
    length (Table.Columns t') = length (Table.Columns t).
Proof.
  intros Hdb Ht Hi Hc Hfirst. unfold loadRecord.
  rewrite Hdb, Ht. simpl.
  rewrite (updateColumn_first _ _ _ _ i c Hi Hc Hfirst).
  eexists. split; [apply lookup_insert_eq|]. simpl.
  split; [reflexivity|apply length_insert].
Qed.

End SchemaCache.

Section SchemaReload.
Context `{GoLib} `{Externals}.

Lemma fetchIndexes_returns (conf : Config) schema indexes (s : State) :
  exists res s', fetchIndexes conf schema indexes s = (Ret res, s').
Proof.
  revert indexes s. induction schema as [|col schema IH]; intros indexes s; simpl.
  - eexists _, _. reflexivity.
  - destruct (indexes !! tableType col); [apply IH|].
    unfold bind, call.
    destruct (conn_FetchIndexes (DBName conf) (tableName col) (world s)) as [[index|err] w].
    + apply IH.
    + eexists _, _. reflexivity.
Qed.

Lemma reloadSchema_returns (conf : Config) (s : State) :
  exists err s', reloadSchema conf s = (Ret err, s').
Proof.
  unfold reloadSchema, bind, call.
  destruct (conn_FetchSchema (DBName conf) (world s)) as [[schema|err] w].
  - match goal with |- context [fetchIndexes _ _ _ ?s1] =>
      destruct (fetchIndexes_returns conf schema ∅ s1) as ([indexes|err] & s2 & ->) end;
      eexists _, _; reflexivity.
  - eexists _, _. reflexivity.
Qed.

Lemma reloadSchema_cache (conf : Config) (s s' : State) :
  reloadSchema conf s = (Ret None, s') ->
  exists records indexes, e_tables s' = loadSchema (DBName conf) records indexes.
Proof.
  unfold reloadSchema, bind, call. intros Hrun.
  destruct (conn_FetchSchema (DBName conf) (world s)) as [[schema|err] w]; simpl in Hrun;
    [|discriminate].
  destruct (fetchIndexes conf schema ∅ _) as [[[indexes|err]| |] s1]; simpl in Hrun;
    try discriminate.
  injection Hrun as <-. exists schema, indexes. reflexivity.
Qed.

(** C8. After [loadSchema], and after a [reloadSchema] that returns no
    error, the column identifiers of every table in the cache are pairwise
    distinct ignoring case; [reloadSchema] always returns. A record of the target database whose table is a
    key of the cache and whose column name equals, ignoring case, the name of
    a column of that table (the first such column, at index [i]) leaves the
    number of columns as it was and gives the column at [i] the record's type
    and nullability. *)
Theorem loadSchema_columns_distinct :
  (forall db records indexes, cacheDistinct (loadSchema db records indexes)) /\
  (forall conf (s : State), exists err s', reloadSchema conf s = (Ret err, s')) /\
  (forall conf (s s' : State),
      reloadSchema conf s = (Ret None, s') -> cacheDistinct (e_tables s')) /\
  (forall db indexes tables r t i c,
      String.eqb (dbname r) db = true ->
      tables !! tableName r = Some t ->
      Table.Columns t !! i = Some c ->
      EqString (Column.Name c) (columnName r) = true ->
      (forall j c', (j < i)%nat -> Table.Columns t !! j = Some c' ->
                    EqString (Column.Name c') (columnName r) = false) ->
      exists t',
        loadRecord db indexes tables r !! tableName r = Some t' /\
        Table.Columns t' =
          <[i := retyped c (columnType r) (columnNull r)]> (Table.Columns t) /\
        length (Table.Columns t') = length (Table.Columns t)).
Proof.
  split; [|split; [|split]].
  - apply loadSchema_distinct.
  - apply reloadSchema_returns.
  - intros conf s s' Hrun.
    destruct (reloadSchema_cache conf s s' Hrun) as (records & indexes & ->).
    apply loadSchema_distinct.
  - apply loadRecord_in_place.
Qed.

End SchemaReload.

Example loadSchema_folds :
  Table.Columns <$>
    (@loadSchema asciiLib "test"
       [mkRecord "test" "t1" "BASE TABLE" "a" "int" "NO";
        mkRecord "other" "t1" "BASE TABLE" "b" "int" "NO";
        mkRecord "test" "t1" "BASE TABLE" "A" "float" "YES"] ∅ !! "t1")
  = Some [{| Column.Table := "t1"; Column.Name := "a"; Column.Type_ := "float";
             Column.Length := 0; Column.Null := true |}].
Proof. vm_compute. reflexivity. Qed.

(** C8 on the records [(test, t1, a, int, NO)] and [(test, t1, A, float,
    YES)]: the second record updates column [a] in place. *)
Lemma loadSchema_columns_distinct_witness :
  exists t',
    @loadRecord asciiLib "test" ∅
      {["t1" := Table.mk "t1" [exampleColumn "t1" "a"] [] "BASE TABLE"]}
      (mkRecord "test" "t1" "BASE TABLE" "A" "float" "YES") !! "t1" = Some t' /\
    length (Table.Columns t') = 1%nat.
Proof.
  destruct (proj2 (proj2 (proj2 (@loadSchema_columns_distinct asciiLib scripted)))
              "test" ∅
              {["t1" := Table.mk "t1" [exampleColumn "t1" "a"] [] "BASE TABLE"]}
              (mkRecord "test" "t1" "BASE TABLE" "A" "float" "YES")
              (Table.mk "t1" [exampleColumn "t1" "a"] [] "BASE TABLE")
              0%nat (exampleColumn "t1" "a"))
    as (t' & Ht' & _ & Hlen).
  - reflexivity.
  - reflexivity.
  - reflexivity.
  - reflexivity.
  - intros j c' Hj. lia.
  - exists t'. split; [exact Ht'|exact Hlen].
Defined.

(** ** The random choice of tables *)

Section RandTables.
Context `{Externals}.

Lemma reshuffled_id (s : State) : reshuffled s (Tables s) (rng s) = s.
Proof. destruct s. reflexivity. Qed.

Lemma reshuffled_twice (s : State) ts draws ts' draws' :
  reshuffled (reshuffled s ts draws) ts' draws' = reshuffled s ts' draws'.
Proof. reflexivity. Qed.

Lemma Intn_run (n : nat) (s : State) :
  n <> 0%nat ->
  exists j draws,
    (j < n)%nat /\
    Intn n s = (Ret j, reshuffled s (Tables s) draws) /\
    (forall x rest, rng s = x :: rest -> j = (x mod n)%nat /\ draws = rest).
Proof.
  intros Hn. unfold Intn.
  destruct (Nat.eqb_spec n 0) as [|_]; [contradiction|].
  unfold bind, get. destruct (rng s) as [|x rest] eqn:Hrng.
  - exists 0%nat, []. split; [lia|]. split.
    + unfold ret. rewrite <- Hrng, reshuffled_id. reflexivity.
    + intros x rest Hx. discriminate.
  - exists (x mod n)%nat, rest. split; [apply Nat.mod_upper_bound, Hn|]. split.
    + reflexivity.
    + intros x' rest' [= <- <-]. split; reflexivity.
Qed.

Lemma shuffleFrom_run (i : nat) (s : State) :
  (i < length (Tables s))%nat ->
  exists ts draws,
    shuffleFrom i swapTables s = (Ret tt, reshuffled s ts draws) /\
    ts ≡ₚ Tables s.
Proof.
  revert s. induction i as [|i IH]; intros s Hi.
  - exists (Tables s), (rng s). rewrite reshuffled_id. split; reflexivity.
  - destruct (Intn_run (S (S i)) s ltac:(lia)) as (j & draws & Hj & Hrun & _).
    simpl. unfold bind at 1. rewrite Hrun.
    unfold bind at 1. unfold swapTables at 1. unfold bind at 1, get. simpl.
    destruct (lookup_lt_is_Some_2 (Tables s) (S i) Hi) as [ti Hti].
    destruct (lookup_lt_is_Some_2 (Tables s) j ltac:(lia)) as [tj Htj].
    rewrite Hti, Htj. unfold set_Tables. simpl.
    set (ts1 := <[j:=ti]> (<[S i:=tj]> (Tables s))).
    assert (ts1 ≡ₚ Tables s) as Hperm
      by (apply Permutation_insert_swap; assumption).
    destruct (IH (reshuffled s ts1 draws)) as (ts & draws' & Hrec & Hperm').
    { simpl. unfold ts1. rewrite !length_insert. lia. }
    change (mkState _ ts1 (batch s) (roundInBatch s) (e_tables s) draws (world s) (trace s))
      with (reshuffled s ts1 draws).
    rewrite Hrec. exists ts, draws'. split; [reflexivity|].
    simpl in Hperm'. rewrite Hperm'. exact Hperm.
Qed.

Lemma randCount_run (len : nat) (s : State) :
  exists count draws,
    randCount len s = (Ret count, reshuffled s (Tables s) draws) /\
    (1 <= count <= maxCount len)%nat /\
    (forall x rest, (1 < len)%nat -> rng s = x :: rest -> (x < len - 1)%nat ->
                    (x < 4)%nat -> count = S x).
Proof.
  unfold randCount, maxCount, Rd.
  destruct (Nat.ltb_spec 1 len) as [Hlen|Hlen].
  - destruct (Intn_run (len - 1) s ltac:(lia)) as (r & draws & Hr & Hrun & Hdraw).
    unfold bind at 1. rewrite Hrun.
    destruct (Nat.ltb_spec 4 (r + 1)) as [Hbig|Hsmall].
    + destruct (Intn_run 4 (reshuffled s (Tables s) draws) ltac:(lia))
        as (r' & draws' & Hr' & Hrun' & _).
      unfold bind. rewrite Hrun'. exists (r' + 1)%nat, draws'.
      split; [reflexivity|]. split; [lia|].
      intros x rest _ Hx Hx1 Hx4. destruct (Hdraw x rest Hx) as [-> _].
      rewrite Nat.mod_small in Hbig by lia. lia.
    + exists (r + 1)%nat, draws. split; [reflexivity|]. split; [lia|].
      intros x rest _ Hx Hx1 Hx4. destruct (Hdraw x rest Hx) as [-> _].
      rewrite Nat.mod_small by lia. lia.
  - exists 1%nat, (rng s). rewrite reshuffled_id. split; [reflexivity|].
    split; [lia|]. intros; lia.
Qed.

Lemma randTables_run (s : State) :
  (1 <= length (Tables s))%nat ->
  exists usedTables ts draws,
    randTables s = (Ret usedTables, reshuffled s ts draws) /\
    (1 <= length usedTables <= maxCount (length (Tables s)))%nat /\
    ts ≡ₚ Tables s /\
    usedTables = take (length usedTables) ts /\
    (forall x rest, (1 < length (Tables s))%nat -> rng s = x :: rest ->
                    (x < length (Tables s) - 1)%nat -> (x < 4)%nat ->
                    length usedTables = S x).
Proof.
  intros Hlen. unfold randTables.
  destruct (randCount_run (length (Tables s)) s) as (count & draws & Hrun & Hcount & Hdraw).
  unfold bind at 1, get. unfold bind at 1. rewrite Hrun.
  destruct (shuffleFrom_run (length (Tables s) - 1) (reshuffled s (Tables s) draws))
    as (ts & draws' & Hsh & Hperm).
  { simpl. lia. }
  unfold bind at 1. unfold Shuffle. rewrite Hsh.
  unfold bind, get. simpl in Hperm |- *.
  assert (length ts = length (Tables s)) as Hts by (rewrite Hperm; reflexivity).
  assert (count <= length ts)%nat as Hle.
  { rewrite Hts. unfold maxCount in Hcount. lia. }
  destruct (Nat.leb_spec count (length ts)) as [_|]; [|lia].
  exists (take count ts), ts, draws'.
  assert (length (take count ts) = count) as Htake by (rewrite length_take; lia).
  split; [reflexivity|]. rewrite Htake.
  split; [lia|]. split; [exact Hperm|]. split; [reflexivity|].
  intros x rest H1 Hx Hx1 Hx4. exact (Hdraw x rest H1 Hx Hx1 Hx4).
Qed.

(** C4, as amended. For [n >= 1] tables [randTables] returns between 1 and
    [min(max(n-1,1),4)] tables, the first ones of a permutation of the table
    list that it leaves in [p.Tables]; and every count in that range is
    returned for some script of draws. *)
Theorem randTables_count (s : State) :
  (1 <= length (Tables s))%nat ->
  (exists usedTables s',
      randTables s = (Ret usedTables, s') /\
      (1 <= length usedTables <= maxCount (length (Tables s)))%nat /\
      Tables s' ≡ₚ Tables s /\
      usedTables = take (length usedTables) (Tables s')) /\
  (forall k, (1 <= k <= maxCount (length (Tables s)))%nat ->
     exists draws usedTables s',
       randTables (reshuffled s (Tables s) draws) = (Ret usedTables, s') /\
       length usedTables = k).
Proof.
  intros Hlen. split.
  - destruct (randTables_run s Hlen) as (used & ts & draws & Hrun & Hcount & Hperm & Htake & _).
    exists used, (reshuffled s ts draws).
    split; [exact Hrun|]. split; [exact Hcount|]. split; [exact Hperm|exact Htake].
  - intros k Hk.
    destruct (randTables_run (reshuffled s (Tables s) [(k - 1)%nat]) Hlen)
      as (used & ts & draws & Hrun & Hcount & _ & _ & Hdraw).
    exists [(k - 1)%nat], used, (reshuffled (reshuffled s (Tables s) [(k - 1)%nat]) ts draws).
    split; [exact Hrun|].
    simpl in Hcount, Hdraw. unfold maxCount in Hk, Hcount.
    destruct (Nat.ltb_spec 1 (length (Tables s))) as [Hbig|Hsmall].
    + rewrite (Hdraw (k - 1)%nat [] Hbig eq_refl) by lia. lia.
    + lia.
Qed.

End RandTables.

Example randTables_three :
  fst (randTables
         (exampleState [exampleTable "a"; exampleTable "b"; exampleTable "c"] [1; 0; 1]%nat 0 []))
  = Ret [exampleTable "c"; exampleTable "b"].
Proof. vm_compute. reflexivity. Qed.

(** C4 on three tables: one or two of them are returned. *)
Lemma randTables_count_witness :
  exists usedTables s',
    randTables
      (exampleState [exampleTable "a"; exampleTable "b"; exampleTable "c"] [5]%nat 0 [])
    = (Ret usedTables, s') /\
    (1 <= length usedTables <= 2)%nat.
Proof.
  destruct (randTables_count
              (exampleState [exampleTable "a"; exampleTable "b"; exampleTable "c"] [5]%nat 0 [])
              ltac:(simpl; lia))
    as [(usedTables & s' & Hrun & Hcount & _) _].
  exists usedTables, s'. split; [exact Hrun|exact Hcount].
Defined.

(** C4 as first stated fails for two tables: [min(2,4) = 2], and no script
    of draws makes [randTables] return both tables. *)
Lemma randTables_two_tables_counterexample :
  ~ exists draws usedTables s',
      randTables (exampleState [exampleTable "a"; exampleTable "b"] draws 0 [])
      = (Ret usedTables, s') /\
      length usedTables = 2%nat.
Proof.
  intros (draws & usedTables & s' & Hrun & Hlen).
  destruct (randTables_run (exampleState [exampleTable "a"; exampleTable "b"] draws 0 [])
              ltac:(simpl; lia))
    as (used & ts & draws' & Hrun' & Hcount & _).
  rewrite Hrun' in Hrun. injection Hrun as <- _.
  simpl in Hcount. unfold maxCount in Hcount. simpl in Hcount. lia.
Qed.

(** ** The pivot row *)

Section StoreAll.

Lemma storeAll_app cells cells' (m : gmap string QueryItem) :
  storeAll (cells ++ cells') m = storeAll cells' (storeAll cells m).
Proof. apply fold_left_app. Qed.

Lemma storeAll_fresh cells (m : gmap string QueryItem) (k : string) :
  k ∉ cells.*1 -> storeAll cells m !! k = m !! k.
Proof.
  revert m. induction cells as [|[k' v'] cells IH]; intros m Hk; [reflexivity|].
  simpl in Hk |- *. apply not_elem_of_cons in Hk as [Hne Hk].
  change (storeAll cells (<[k' := v']> m) !! k = m !! k).
  rewrite (IH _ Hk). apply lookup_insert_ne. congruence.
Qed.

Lemma storeAll_lookup cells (m : gmap string QueryItem) (k : string) (v : QueryItem) :
  storeAll cells m !! k = Some v -> (k, v) ∈ cells \/ m !! k = Some v.
Proof.
  revert m. induction cells as [|[k' v'] cells IH]; intros m Hlook; [right; exact Hlook|].
  change (storeAll cells (<[k' := v']> m) !! k = Some v) in Hlook.
  destruct (IH _ Hlook) as [Hin|Hm].
  - left. right. exact Hin.
  - destruct (decide (k' = k)) as [->|Hne].
    + rewrite lookup_insert_eq in Hm. injection Hm as ->. left. left.
    + rewrite lookup_insert_ne in Hm by exact Hne. right. exact Hm.
Qed.

Lemma storeAll_key cells (m : gmap string QueryItem) (k : string) :
  k ∈ cells.*1 -> is_Some (storeAll cells m !! k).
Proof.
  revert m. induction cells as [|[k' v'] cells IH]; intros m Hin; [inversion Hin|].
  change (is_Some (storeAll cells (<[k' := v']> m) !! k)).
  destruct (decide (k ∈ cells.*1)) as [Hlater|Hfresh]; [apply IH, Hlater|].
  simpl in Hin. apply elem_of_cons in Hin as [->|Hin]; [|contradiction].
  rewrite (storeAll_fresh _ _ _ Hfresh), lookup_insert_eq. eexists. reflexivity.
Qed.

Lemma storeAll_stored cells (m : gmap string QueryItem) (k : string) (v : QueryItem) :
  (k, v) ∈ cells -> is_Some (storeAll cells m !! k).
Proof.
  intros Hin. apply storeAll_key, list_elem_of_fmap. exists (k, v). split; [reflexivity|exact Hin].
Qed.

Lemma storeAll_distinct cells (m : gmap string QueryItem) (k : string) (v : QueryItem) :
  NoDup cells.*1 -> (k, v) ∈ cells -> storeAll cells m !! k = Some v.
Proof.
  revert m. induction cells as [|[k' v'] cells IH]; intros m Hnd Hin; [inversion Hin|].
  change (storeAll cells (<[k' := v']> m) !! k = Some v).
  simpl in Hnd. apply NoDup_cons in Hnd as [Hfresh Hnd].
  apply elem_of_cons in Hin as [[= -> ->]|Hin]; [|apply IH; assumption].
  rewrite (storeAll_fresh _ _ _ Hfresh). apply lookup_insert_eq.
Qed.

Lemma storeCells_run (i : Table) (row : list (ptr QueryItem))
    (result result' : gmap string QueryItem) :
  storeCells i row result = Ret result' ->
  result' =
    storeAll (omap (fun cell => (fun c => (pivotKey i c, c)) <$> cell) row) result.
Proof.
  revert result. induction row as [|[c|] row IH]; intros result Hrun; simpl in Hrun.
  - injection Hrun as <-. reflexivity.
  - apply IH in Hrun. exact Hrun.
  - discriminate.
Qed.

Lemma elem_of_sampledCells (samples : list (Table * resultRows)) k c :
  (k, c) ∈ sampledCells samples <->
  exists i row rest, (i, row :: rest) ∈ samples /\ Some c ∈ row /\ k = pivotKey i c.
Proof.
  unfold sampledCells. rewrite list_elem_of_In, in_flat_map. split.
  - intros ([i [|row rest]] & Hin & Hcell); [inversion Hcell|].
    apply list_elem_of_In, list_elem_of_omap in Hcell as (cell & Hcell & Heq).
    destruct cell as [c'|]; [|discriminate]. simpl in Heq. injection Heq as <- <-.
    exists i, row, rest. split; [apply list_elem_of_In, Hin|]. split; [exact Hcell|reflexivity].
  - intros (i & row & rest & Hin & Hcell & ->).
    exists (i, row :: rest). split; [apply list_elem_of_In, Hin|].
    apply list_elem_of_In, list_elem_of_omap. exists (Some c). split; [exact Hcell|reflexivity].
Qed.

End StoreAll.

Section PivotRow.
Context `{Externals}.

Lemma calls_app (t t' : list Event) : calls (t ++ t') = calls t ++ calls t'.
Proof. apply List.filter_app. Qed.

Lemma execSelect_run (stmt : string) (s : State) :
  exists res w,
    conn_Select stmt (world s) = (res, w) /\
    execSelect stmt s =
      (Ret res,
       mkState _ (Tables s) (batch s) (roundInBatch s) (e_tables s) (rng s) w
         ((trace s ++ [ELog "debug" "execSelect"]) ++ [ESelect stmt res])).
Proof.
  destruct (conn_Select stmt (world s)) as [res w] eqn:Hsel.
  exists res, w. split; [reflexivity|].
  unfold execSelect, log, bind, emit, call, ret. simpl. rewrite Hsel. reflexivity.
Qed.

Lemma pivotLoop_run (usedTables : list Table) :
  forall (result : gmap string QueryItem) (reallyUsed : list Table) (s : State)
         result' reallyUsed' s',
  pivotLoop usedTables result reallyUsed s = (Ret (result', reallyUsed'), s') ->
  exists samples : list resultRows,
    length samples = length usedTables /\
    calls (trace s') =
      calls (trace s) ++
      ((fun '(i, exeRes) => ESelect (pivotQuery i) (inl exeRes)) <$> zip usedTables samples) /\
    reallyUsed' = reallyUsed ++ sampledTables (zip usedTables samples) /\
    result' = storeAll (sampledCells (zip usedTables samples)) result.
Proof.
  induction usedTables as [|i usedTables IH];
    intros result reallyUsed s result' reallyUsed' s' Hrun.
  - simpl in Hrun. injection Hrun as <- <- <-. exists [].
    simpl. rewrite !app_nil_r. repeat split.
  - simpl in Hrun. unfold bind at 1 in Hrun.
    destruct (execSelect_run (pivotQuery i) s) as (res & w & _ & Hsel).
    rewrite Hsel in Hrun. clear Hsel.
    destruct res as [[|row rest]|err]; [| |discriminate].
    + apply IH in Hrun as (samples & Hlen & Htrace & Hused & Hres).
      exists ([] :: samples). simpl in Htrace |- *.
      split; [congruence|]. split; [|split; assumption].
      rewrite Htrace, !calls_app. simpl. rewrite app_nil_r, <- app_assoc. reflexivity.
    + destruct (storeCells i row result) as [result1| |] eqn:Hstore; try discriminate.
      apply IH in Hrun as (samples & Hlen & Htrace & Hused & Hres).
      exists ((row :: rest) :: samples). simpl in Htrace |- *.
      split; [congruence|]. split; [|split].
      * rewrite Htrace, !calls_app. simpl. rewrite app_nil_r, <- app_assoc. reflexivity.
      * rewrite Hused, <- app_assoc. reflexivity.
      * rewrite Hres, (storeCells_run _ _ _ _ Hstore).
        unfold sampledCells at 2. simpl. symmetry. apply storeAll_app.
Qed.

Lemma randTables_Ret (s s1 : State) (usedTables : list Table) :
  randTables s = (Ret usedTables, s1) ->
  exists ts draws, s1 = reshuffled s ts draws.
Proof.
  intros Hrun. destruct (Nat.le_gt_cases 1 (length (Tables s))) as [Hlen|Hlen].
  - destruct (randTables_run s Hlen) as (used & ts & draws & Hrun' & _).
    rewrite Hrun' in Hrun. injection Hrun as _ <-. exists ts, draws. reflexivity.
  - exfalso. destruct s as [ts b r c d w t]. simpl in Hlen.
    destruct ts; [|simpl in Hlen; lia]. discriminate.
Qed.

Lemma storeCells_returns (i : Table) (row : list (ptr QueryItem))
    (result : gmap string QueryItem) :
  Forall is_Some row -> exists result', storeCells i row result = Ret result'.
Proof.
  intros Hrow. revert result. induction Hrow as [|cell row [c ->] _ IH]; intros result.
  - eexists. reflexivity.
  - simpl. apply IH.
Qed.

Lemma pivotLoop_returns (usedTables : list Table) :
  (forall stmt w, exists rows w',
      conn_Select stmt w = (inl rows, w') /\
      forall row, head rows = Some row -> Forall is_Some row) ->
  forall (result : gmap string QueryItem) (reallyUsed : list Table) (s : State),
  exists result' reallyUsed' s',
    pivotLoop usedTables result reallyUsed s = (Ret (result', reallyUsed'), s').
Proof.
  intros Hconn. induction usedTables as [|i usedTables IH]; intros result reallyUsed s.
  - eexists _, _, _. reflexivity.
  - simpl. unfold bind at 1.
    destruct (execSelect_run (pivotQuery i) s) as (res & w & Hsel & ->).
    destruct (Hconn (pivotQuery i) (world s)) as (rows & w' & Hsel' & Hcells).
    rewrite Hsel' in Hsel. injection Hsel as <- <-.
    destruct rows as [|row rest]; [apply IH|].
    destruct (storeCells_returns i row result (Hcells row eq_refl)) as [result1 ->].
    apply IH.
Qed.

(** C2. When [ChoosePivotedRow] returns, its error is [nil]; the tables it
    returns are the chosen tables whose sampling query returned a row, in
    order, the others being dropped; every cell of every sampled row has its
    dotted key [table.column] in the map; when the keys of the sampled cells
    are pairwise distinct, each key holds its cell; and the map holds nothing
    but sampled cells under their keys. It does return when there is a table
    to choose and the connection answers every select with rows whose cells
    are present. *)
Theorem ChoosePivotedRow_keys (s : State) :
  (forall (s' : State) (result : gmap string QueryItem) (reallyUsed : list Table)
          (err : option error),
    ChoosePivotedRow s = (Ret (result, reallyUsed, err), s') ->
    err = None /\
    exists (usedTables : list Table) (samples : list resultRows) (s1 : State),
      randTables s = (Ret usedTables, s1) /\
      length samples = length usedTables /\
      calls (trace s') =
        calls (trace s) ++
        ((fun '(i, exeRes) => ESelect (pivotQuery i) (inl exeRes)) <$> zip usedTables samples) /\
      reallyUsed = sampledTables (zip usedTables samples) /\
      (forall i row rest c,
          (i, row :: rest) ∈ zip usedTables samples -> Some c ∈ row ->
          is_Some (result !! (Table.Name i ++ "." ++ ct_Name (ValType c))%string) /\
          (NoDup (sampledCells (zip usedTables samples)).*1 ->
           result !! (Table.Name i ++ "." ++ ct_Name (ValType c))%string = Some c)) /\
      (forall k c, result !! k = Some c ->
         exists i row rest,
           (i, row :: rest) ∈ zip usedTables samples /\ Some c ∈ row /\
           k = (Table.Name i ++ "." ++ ct_Name (ValType c))%string)) /\
  ((1 <= length (Tables s))%nat ->
   (forall stmt w, exists rows w',
       conn_Select stmt w = (inl rows, w') /\
       forall row, head rows = Some row -> Forall is_Some row) ->
   exists result reallyUsed s',
     ChoosePivotedRow s = (Ret (result, reallyUsed, None), s')).
Proof.
  split.
  - intros s' result reallyUsed err Hrun.
    unfold ChoosePivotedRow in Hrun. unfold bind at 1 in Hrun.
    destruct (randTables s) as [[usedTables| |] s1] eqn:Hrand; try discriminate.
    unfold bind in Hrun.
    destruct (pivotLoop usedTables ∅ [] s1) as [[[result1 used1]| |] s2] eqn:Hloop;
      try discriminate.
    unfold ret in Hrun. injection Hrun as <- <- <- <-.
    split; [reflexivity|].
    destruct (randTables_Ret _ _ _ Hrand) as (ts & draws & ->).
    apply pivotLoop_run in Hloop as (samples & Hlen & Htrace & Hused & Hres).
    exists usedTables, samples, (reshuffled s ts draws).
    split; [reflexivity|]. split; [exact Hlen|]. split; [exact Htrace|].
    split; [exact Hused|]. split.
    + intros i row rest c Hin Hc.
      assert ((pivotKey i c, c) ∈ sampledCells (zip usedTables samples)) as Hcell.
      { apply elem_of_sampledCells. exists i, row, rest. repeat split; assumption. }
      rewrite Hres. split.
      * exact (storeAll_stored _ _ _ _ Hcell).
      * intros Hnd. exact (storeAll_distinct _ _ _ _ Hnd Hcell).
    + intros k c Hlook. rewrite Hres in Hlook.
      apply storeAll_lookup in Hlook as [Hcell|Hempty].
      * apply elem_of_sampledCells in Hcell. exact Hcell.
      * rewrite lookup_empty in Hempty. discriminate.
  - intros Hlen Hconn.
    destruct (randTables_run s Hlen) as (usedTables & ts & draws & Hrand & _).
    destruct (pivotLoop_returns usedTables Hconn ∅ [] (reshuffled s ts draws))
      as (result & reallyUsed & s' & Hloop).
    exists result, reallyUsed, s'.
    unfold ChoosePivotedRow. unfold bind at 1. rewrite Hrand.
    unfold bind. rewrite Hloop. reflexivity.
Qed.

End PivotRow.

Example ChoosePivotedRow_one_table :
  fst (ChoosePivotedRow
         (exampleState [exampleTable "t1"; exampleTable "t2"] [] 0
            [[[Some (exampleItem "c" "7")]]]))
  = Ret ({["t2.c" := exampleItem "c" "7"]}, [exampleTable "t2"], None).
Proof. vm_compute. reflexivity. Qed.

(** C2 on two tables of which one is chosen and sampled. *)
Lemma ChoosePivotedRow_keys_witness :
  exists (usedTables : list Table) (samples : list resultRows),
    length samples = length usedTables /\
    [exampleTable "t2"] = sampledTables (zip usedTables samples).
Proof.
  destruct (proj1 (ChoosePivotedRow_keys
              (exampleState [exampleTable "t1"; exampleTable "t2"] [] 0
                 [[[Some (exampleItem "c" "7")]]]))
              (snd (ChoosePivotedRow
                      (exampleState [exampleTable "t1"; exampleTable "t2"] [] 0
                         [[[Some (exampleItem "c" "7")]]])))
              {["t2.c" := exampleItem "c" "7"]} [exampleTable "t2"] None)
    as (_ & usedTables & samples & _ & _ & Hlen & _ & Hused & _).
  - vm_compute. reflexivity.
  - exists usedTables, samples. split; [exact Hlen|exact Hused].
Defined.

(** ** What a computation leaves alone *)

Section Frame.
Context `{GoLib} `{Externals}.
Context {X : Type} (f : State -> X).

Lemma preserves_ret {A} (a : A) : preserves f (ret a).
Proof. intros s r s' [= <- <-]. reflexivity. Qed.

Lemma preserves_panic {A} why : preserves f (panic (A := A) why).
Proof. intros s r s' [= <- <-]. reflexivity. Qed.

Lemma preserves_exit {A} why : preserves f (exit (A := A) why).
Proof. intros s r s' [= <- <-]. reflexivity. Qed.

Lemma preserves_get : preserves f get.
Proof. intros s r s' [= <- <-]. reflexivity. Qed.

Lemma preserves_liftRes {A} (r : Res A) : preserves f (liftRes r).
Proof. destruct r; intros s r' s' [= <- <-]; reflexivity. Qed.

Lemma preserves_bind {A B} (m : M A) (k : A -> M B) :
  preserves f m -> (forall a, preserves f (k a)) -> preserves f (bind m k).
Proof.
  intros Hm Hk s r s' Hrun. unfold bind in Hrun.
  destruct (m s) as [[a|why|why] s1] eqn:Hms.
  - rewrite (Hk a _ _ _ Hrun). exact (Hm _ _ _ Hms).
  - injection Hrun as <- <-. exact (Hm _ _ _ Hms).
  - injection Hrun as <- <-. exact (Hm _ _ _ Hms).
Qed.

Lemma preserves_defer {A} (cleanup : M unit) (body : M A) :
  preserves f cleanup -> preserves f body -> preserves f (defer cleanup body).
Proof.
  intros Hc Hb s r s' Hrun. unfold defer in Hrun.
  destruct (body s) as [[a|why|why] s1] eqn:Hbody;
    try (destruct (cleanup s1) as [[[]|why'|why'] s2] eqn:Hclean);
    injection Hrun as <- <-;
    try rewrite (Hc _ _ _ Hclean); exact (Hb _ _ _ Hbody).
Qed.

End Frame.

Ltac frame_prim :=
  let s := fresh "s" in
  let Hrun := fresh "Hrun" in
  intros s ? ? Hrun;
  cbv [call emit set_Tables set_batch set_roundInBatch set_e_tables set_rng set_world
       refreshDatabase] in Hrun;
  repeat match type of Hrun with
         | context [match ?x with _ => _ end] => destruct x
         end;
  injection Hrun as <- <-; reflexivity.

Create HintDb frame.

Ltac frame :=
  repeat first
    [ solve [auto with frame]
    | apply preserves_ret
    | apply preserves_panic
    | apply preserves_exit
    | apply preserves_get
    | apply preserves_liftRes
    | apply preserves_bind; [|intros ?]
    | apply preserves_defer
    | match goal with
      | |- preserves _ (match ?x with _ => _ end) => destruct x
      | |- preserves _ (call _) => frame_prim
      | |- preserves _ (emit _) => frame_prim
      | |- preserves _ (set_Tables _) => frame_prim
      | |- preserves _ (set_e_tables _) => frame_prim
      | |- preserves _ (set_rng _) => frame_prim
      | |- preserves _ (set_world _) => frame_prim
      | |- preserves _ (log _ _) => unfold log
      | |- preserves _ (log_Fatal _) => unfold log_Fatal
      end ].

Section Counters.
Context `{GoLib} `{Externals}.
Variable conf : Config.

Lemma counters_Intn n : preserves counters (Intn n).
Proof. unfold Intn. frame. Qed.
#[local] Hint Resolve counters_Intn : frame.

Lemma counters_Rd n : preserves counters (Rd n).
Proof. apply counters_Intn. Qed.
#[local] Hint Resolve counters_Rd : frame.

Lemma counters_RdBool : preserves counters RdBool.
Proof. unfold RdBool. frame. Qed.
#[local] Hint Resolve counters_RdBool : frame.

Lemma counters_swapTables i j : preserves counters (swapTables i j).
Proof. unfold swapTables. frame. Qed.
#[local] Hint Resolve counters_swapTables : frame.

Lemma counters_shuffleFrom i : preserves counters (shuffleFrom i swapTables).
Proof. induction i as [|i IH]; simpl; frame. Qed.
#[local] Hint Resolve counters_shuffleFrom : frame.

Lemma counters_randTables : preserves counters randTables.
Proof. unfold randTables, randCount, Shuffle. frame. Qed.
#[local] Hint Resolve counters_randTables : frame.

Lemma counters_execSelect stmt : preserves counters (execSelect stmt).
Proof. unfold execSelect. frame. Qed.
#[local] Hint Resolve counters_execSelect : frame.

Lemma counters_pivotLoop usedTables result reallyUsed :
  preserves counters (pivotLoop usedTables result reallyUsed).
Proof.
  revert result reallyUsed.
  induction usedTables as [|i usedTables IH]; intros result reallyUsed; simpl; frame.
Qed.
#[local] Hint Resolve counters_pivotLoop : frame.

Lemma counters_ChoosePivotedRow : preserves counters ChoosePivotedRow.
Proof. unfold ChoosePivotedRow. frame. Qed.
#[local] Hint Resolve counters_ChoosePivotedRow : frame.

Lemma counters_loadTables tables : preserves counters (loadTables conf tables).
Proof. induction tables as [|i tables IH]; simpl; frame. Qed.
#[local] Hint Resolve counters_loadTables : frame.

Lemma counters_LoadSchema : preserves counters (LoadSchema conf).
Proof. unfold LoadSchema. frame. Qed.
#[local] Hint Resolve counters_LoadSchema : frame.

Lemma counters_fetchIndexes schema indexes :
  preserves counters (fetchIndexes conf schema indexes).
Proof.
  revert indexes. induction schema as [|col schema IH]; intros indexes; simpl; frame.
Qed.
#[local] Hint Resolve counters_fetchIndexes : frame.

Lemma counters_ReloadSchema : preserves counters (ReloadSchema conf).
Proof. unfold ReloadSchema, reloadSchema. frame. Qed.
#[local] Hint Resolve counters_ReloadSchema : frame.

Lemma counters_GenPQSSelectStmt pivotRows usedTables :
  preserves counters (GenPQSSelectStmt conf pivotRows usedTables).
Proof. unfold GenPQSSelectStmt. frame. Qed.
#[local] Hint Resolve counters_GenPQSSelectStmt : frame.

Lemma counters_GenSelectStmt : preserves counters (GenSelectStmt conf).
Proof. unfold GenSelectStmt. frame. Qed.
#[local] Hint Resolve counters_GenSelectStmt : frame.

Lemma counters_withTxn b action :
  preserves counters action -> preserves counters (withTxn b action).
Proof. intros Haction. unfold withTxn, commitTxn. frame. Qed.
#[local] Hint Resolve counters_withTxn : frame.

Lemma counters_printColumns pivotRows tableColumns :
  preserves counters (printColumns pivotRows tableColumns).
Proof. induction tableColumns as [|c tableColumns IH]; simpl; frame. Qed.
#[local] Hint Resolve counters_printColumns : frame.

Lemma counters_printPivotRows pivotRows : preserves counters (printPivotRows pivotRows).
Proof. unfold printPivotRows. frame. Qed.
#[local] Hint Resolve counters_printPivotRows : frame.

Lemma counters_chooseApproach : preserves counters (chooseApproach conf).
Proof. unfold chooseApproach. frame. Qed.
#[local] Hint Resolve counters_chooseApproach : frame.

Lemma counters_pqsAction selectAST selectSQL columns pivotRows :
  preserves counters (pqsAction conf selectAST selectSQL columns pivotRows).
Proof. unfold pqsAction, reportMismatch, seedView, reloadViews. frame. Qed.
#[local] Hint Resolve counters_pqsAction : frame.

Lemma counters_execNodes nodesArr sqlInOneGroup resultSet :
  preserves counters (execNodes nodesArr sqlInOneGroup resultSet).
Proof.
  revert sqlInOneGroup resultSet.
  induction nodesArr as [|node nodesArr IH]; intros sqlInOneGroup resultSet; simpl; frame.
Qed.
#[local] Hint Resolve counters_execNodes : frame.

Lemma counters_checkGroups nodesGroup : preserves counters (checkGroups conf nodesGroup).
Proof. induction nodesGroup as [|nodesArr nodesGroup IH]; simpl; frame. Qed.
#[local] Hint Resolve counters_checkGroups : frame.

Lemma counters_norecAction selectAst transformers :
  preserves counters (norecAction conf selectAst transformers).
Proof. unfold norecAction. frame. Qed.
#[local] Hint Resolve counters_norecAction : frame.

Lemma counters_progress : preserves counters (progress conf).
Proof. unfold progress. frame. Qed.

Lemma counters_refreshDatabase : preserves counters (refreshDatabase conf).
Proof. unfold refreshDatabase. frame. frame_prim. Qed.

End Counters.

(** ** The main loop *)

Section MainLoop.
Context `{GoLib} `{Externals}.
Variable conf : Config.
Local Open Scope Z_scope.

Lemma wrap64_small (z : Z) : - 2 ^ 63 <= z < 2 ^ 63 -> wrap64 z = z.
Proof.
  intros Hz. unfold wrap64.
  rewrite Z.mod_small; [lia|].
  change (2 ^ 64) with (2 ^ 63 + 2 ^ 63). lia.
Qed.

(** One pass of the loop body from a state within bounds: it either
    completes, and the counters advance, or it aborts, and [roundInBatch]
    stays while [batch] has advanced at most once, and only in a round 0. *)
Lemma round_counters (s s1 : State) (res : Res unit) :
  0 <= roundInBatch s < 100 ->
  0 <= batch s < 2 ^ 63 - 1 ->
  round conf s = (res, s1) ->
  (res = Ret tt /\
   roundInBatch s1 = (roundInBatch s + 1) mod 100 /\
   batch s1 = batch s + (if roundInBatch s =? 0 then 1 else 0)) \/
  (res <> Ret tt /\
   roundInBatch s1 = roundInBatch s /\
   (batch s1 = batch s \/ roundInBatch s = 0 /\ batch s1 = batch s + 1)).
Proof.
  intros Hr Hb Hrun. unfold round in Hrun.
  unfold bind at 1 in Hrun. unfold get at 1 in Hrun.
  unfold bind at 1 in Hrun.
  assert (forall sa (res' : Res unit) sb,
             counters sa = (batch s + (if roundInBatch s =? 0 then 1 else 0), roundInBatch s) ->
             (do _ <- progress conf;
              do s2 <- get;
              set_roundInBatch (Z.rem (wrap64 (roundInBatch s2 + 1)) 100))%go sa = (res', sb) ->
             (res' = Ret tt /\
              roundInBatch sb = (roundInBatch s + 1) mod 100 /\
              batch sb = batch s + (if roundInBatch s =? 0 then 1 else 0)) \/
             (res' <> Ret tt /\
              counters sb = (batch s + (if roundInBatch s =? 0 then 1 else 0), roundInBatch s)))
    as Hrest.
  { intros sa res' sb Hsa Hrest. unfold bind at 1 in Hrest.
    destruct (progress conf sa) as [[[]|why|why] sc] eqn:Hprog;
      pose proof (counters_progress conf _ _ _ Hprog) as Hsc; rewrite Hsa in Hsc.
    - left. unfold bind, get, set_roundInBatch in Hrest. injection Hrest as <- <-.
      injection Hsc as Hbc Hrc. simpl. rewrite Hrc, Hbc.
      rewrite wrap64_small by lia. rewrite Z.rem_mod_nonneg by lia.
      repeat split.
    - right. injection Hrest as <- <-. split; [discriminate|exact Hsc].
    - right. injection Hrest as <- <-. split; [discriminate|exact Hsc]. }
  destruct (Z.eqb_spec (roundInBatch s) 0) as [Hzero|Hnz].
  - unfold bind at 1 in Hrun.
    destruct (refreshDatabase conf s) as [[[]|why|why] sa] eqn:Hrefresh;
      pose proof (counters_refreshDatabase conf _ _ _ Hrefresh) as Hsa;
      injection Hsa as Hba Hra.
    + unfold bind at 1 in Hrun. unfold get at 1, set_batch in Hrun.
      rewrite Hba, wrap64_small in Hrun by lia.
      apply Hrest in Hrun; [|unfold counters; simpl; congruence].
      destruct Hrun as [Hok|[Hne Hc]]; [left; exact Hok|].
      right. injection Hc as Hb1 Hr1. split; [exact Hne|]. split; [exact Hr1|].
      right. split; [exact Hzero|exact Hb1].
    + injection Hrun as <- <-. right. split; [discriminate|]. split; [exact Hra|].
      left. exact Hba.
    + injection Hrun as <- <-. right. split; [discriminate|]. split; [exact Hra|].
      left. exact Hba.
  - unfold ret at 1 in Hrun.
    apply Hrest in Hrun; [|unfold counters; f_equal; lia].
    destruct Hrun as [Hok|[Hne Hc]]; [left; exact Hok|].
    right. injection Hc as Hb1 Hr1. split; [exact Hne|]. split; [exact Hr1|].
    left. lia.
Qed.

Lemma run_snoc (n : nat) (s s' : State) :
  run conf (S n) s = (Ret tt, s') ->
  exists s1, run conf n s = (Ret tt, s1) /\ round conf s1 = (Ret tt, s').
Proof.
  revert s. induction n as [|n IH]; intros s Hrun.
  - exists s. split; [reflexivity|].
    simpl in Hrun. unfold bind, ret in Hrun.
    destruct (round conf s) as [[[]|why|why] s1]; try discriminate.
    injection Hrun as <-. reflexivity.
  - change (run conf (S (S n)) s) with (bind (round conf) (fun _ => run conf (S n)) s) in Hrun.
    unfold bind in Hrun.
    destruct (round conf s) as [[[]|why|why] sa] eqn:Hround; try discriminate.
    destruct (IH sa Hrun) as (s1 & Hn & Hlast).
    exists s1. split; [|exact Hlast].
    simpl. unfold bind. rewrite Hround. exact Hn.
Qed.

Lemma run_counters (cache : gmap string Table) (draws : list nat) (w : W)
    (n : nat) (s : State) :
  Z.of_nat n < 2 ^ 63 ->
  run conf n (NewSQLancer cache draws w) = (Ret tt, s) ->
  roundInBatch s = Z.of_nat n mod 100 /\ batch s = (Z.of_nat n + 99) / 100.
Proof.
  revert s. induction n as [|n IH]; intros s Hn Hrun.
  - injection Hrun as <-. split; reflexivity.
  - apply run_snoc in Hrun as (s1 & Hrun & Hlast).
    destruct (IH s1 ltac:(lia) Hrun) as [Hr Hb].
    apply round_counters in Hlast; [| |].
    + destruct Hlast as [(_ & Hr' & Hb')|[Hne _]]; [|congruence].
      rewrite Hr', Hb', Hr, Hb. rewrite Nat2Z.inj_succ.
      destruct (Z.eqb_spec (Z.of_nat n mod 100) 0) as [Hz|Hz]; split;
        Z.to_euclidean_division_equations; lia.
    + rewrite Hr. Z.to_euclidean_division_equations; lia.
    + rewrite Hb. Z.to_euclidean_division_equations; lia.
Qed.

(** C6. After any number [n < 2^63] of completed rounds from the state of
    [NewSQLancer], [roundInBatch] is [n mod 100], so within [[0,100)], and
    [batch] is the number of rounds so far that began with [roundInBatch =
    0]. In the next round, however it ends, [roundInBatch] stays within
    [[0,100)] and [batch] does not decrease; [batch] grows, by one, only in a
    round that begins with [roundInBatch = 0], and in every such round that
    completes. *)
Theorem batch_state_invariant (cache : gmap string Table) (draws : list nat) (w : W)
    (n : nat) (s : State) :
  Z.of_nat n < 2 ^ 63 ->
  run conf n (NewSQLancer cache draws w) = (Ret tt, s) ->
  (0 <= roundInBatch s < 100 /\ roundInBatch s = Z.of_nat n mod 100 /\
   batch s = (Z.of_nat n + 99) / 100) /\
  forall res s1, round conf s = (res, s1) ->
    0 <= roundInBatch s1 < 100 /\
    batch s <= batch s1 <= batch s + 1 /\
    (batch s1 = batch s + 1 -> roundInBatch s = 0) /\
    (res = Ret tt ->
     roundInBatch s1 = (roundInBatch s + 1) mod 100 /\
     (batch s1 = batch s + 1 <-> roundInBatch s = 0) /\
     (roundInBatch s1 = 0 <-> roundInBatch s = 99)).
Proof.
  intros Hn Hrun. destruct (run_counters cache draws w n s Hn Hrun) as [Hr Hb].
  assert (0 <= roundInBatch s < 100) as Hrange
    by (rewrite Hr; Z.to_euclidean_division_equations; lia).
  assert (0 <= batch s < 2 ^ 63 - 1) as Hbrange
    by (rewrite Hb; Z.to_euclidean_division_equations; lia).
  split; [split; [exact Hrange|split; assumption]|].
  intros res s1 Hround.
  apply round_counters in Hround; [| exact Hrange | exact Hbrange].
  clear Hr Hb Hrun.
  destruct Hround as [(-> & Hr' & Hb')|(Hne & Hr' & Hb')].
  - rewrite Hr', Hb'.
    destruct (Z.eqb_spec (roundInBatch s) 0) as [Hz|Hz];
      (split; [Z.to_euclidean_division_equations; lia|]);
      (split; [lia|]); (split; [lia|]); intros _;
      (split; [reflexivity|]); split; split;
      Z.to_euclidean_division_equations; lia.
  - rewrite Hr'. split; [lia|]. split; [lia|]. split; [lia|].
    intros ->. contradiction.
Qed.

End MainLoop.

Example run_two_rounds :
  fst (@run asciiLib scripted (exampleConf 0 true) 2 (@NewSQLancer scripted ∅ [] [])) = Ret tt.
Proof. vm_compute. reflexivity. Qed.

(** C6 after two rounds: [roundInBatch] is 2 and [batch] is 1. *)
Lemma batch_state_invariant_witness :
  roundInBatch (snd (@run asciiLib scripted (exampleConf 0 true) 2 (@NewSQLancer scripted ∅ [] []))) = 2 /\
  batch (snd (@run asciiLib scripted (exampleConf 0 true) 2 (@NewSQLancer scripted ∅ [] []))) = 1.
Proof.
  destruct (@batch_state_invariant asciiLib scripted (exampleConf 0 true) ∅ [] [] 2
              (snd (@run asciiLib scripted (exampleConf 0 true) 2 (@NewSQLancer scripted ∅ [] []))))
    as [(_ & Hr & Hb) _].
  - reflexivity.
  - vm_compute. reflexivity.
  - split; [exact Hr|exact Hb].
Defined.

(** ** The choice of the approach *)

Section Approach.
Context `{Externals}.
Variable conf : Config.
Local Open Scope Z_scope.

Lemma approachesAt_prefix (r : Z) :
  r < ViewCount conf -> approachesAt conf r = [approachPQS].
Proof.
  intros Hr. unfold approachesAt.
  destruct (Z.ltb_spec r (ViewCount conf)); [reflexivity|lia].
Qed.

Lemma approachesAt_enabled (r : Z) :
  ViewCount conf <= r ->
  NoDup (approachesAt conf r) /\
  forall a, a ∈ approachesAt conf r <-> enabled conf a = true.
Proof.
  intros Hr. unfold approachesAt, enabled.
  destruct (Z.ltb_spec r (ViewCount conf)); [lia|].
  split.
  - apply NoDup_ListNoDup.
    destruct (EnableNoRECApproach conf), (EnablePQSApproach conf), (EnableTLPApproach conf);
      simpl; repeat constructor; simpl; intuition discriminate.
  - intros a. rewrite list_elem_of_In.
    destruct (EnableNoRECApproach conf), (EnablePQSApproach conf), (EnableTLPApproach conf);
      destruct a; simpl; intuition discriminate.
Qed.

Lemma chooseApproach_run (s : State) :
  approachesAt conf (roundInBatch s) <> [] ->
  exists i draws approach,
    (i < length (approachesAt conf (roundInBatch s)))%nat /\
    approachesAt conf (roundInBatch s) !! i = Some approach /\
    chooseApproach conf s = (Ret approach, reshuffled s (Tables s) draws) /\
    (forall x rest, rng s = x :: rest ->
       i = (x mod length (approachesAt conf (roundInBatch s)))%nat).
Proof.
  intros Hne. unfold chooseApproach, Rd.
  destruct (Intn_run (length (approachesAt conf (roundInBatch s))) s)
    as (i & draws & Hi & Hrun & Hdraw).
  { destruct (approachesAt conf (roundInBatch s)); [contradiction|discriminate]. }
  destruct (lookup_lt_is_Some_2 _ _ Hi) as [approach Ha].
  exists i, draws, approach. split; [exact Hi|]. split; [exact Ha|]. split.
  - unfold bind at 1, get. unfold bind. rewrite Hrun. simpl. rewrite Ha. reflexivity.
  - intros x rest Hx. apply (Hdraw x rest Hx).
Qed.

(** C7. In a round with [roundInBatch < ViewCount] the list of approaches is
    [PQS] alone and PQS is chosen, whatever the flags and the draw. In a
    round with [roundInBatch >= ViewCount] the list holds exactly the enabled
    approaches, each once, and the approach chosen is the one at the index
    [Rd(len)], the raw draw modulo the length: every enabled approach is
    chosen for exactly one value of [Rd(len)]. With no approach enabled the
    choice panics. *)
Theorem approach_selection (s : State) :
  (roundInBatch s < ViewCount conf ->
   approachesAt conf (roundInBatch s) = [approachPQS] /\
   exists s', chooseApproach conf s = (Ret approachPQS, s')) /\
  (ViewCount conf <= roundInBatch s ->
   let approaches := approachesAt conf (roundInBatch s) in
   NoDup approaches /\
   (forall a, a ∈ approaches <-> enabled conf a = true) /\
   (forall a, enabled conf a = true ->
      exists i, approaches !! i = Some a /\
                forall j, approaches !! j = Some a -> j = i) /\
   (approaches <> [] ->
    exists i approach s',
      chooseApproach conf s = (Ret approach, s') /\
      enabled conf approach = true /\
      approaches !! i = Some approach /\
      forall x rest, rng s = x :: rest -> i = (x mod length approaches)%nat) /\
   (approaches = [] ->
    exists s', chooseApproach conf s = (Panic invalid_Intn, s'))).
Proof.
  split.
  - intros Hr. pose proof (approachesAt_prefix _ Hr) as Hpre.
    split; [exact Hpre|].
    destruct (chooseApproach_run s) as (i & draws & approach & Hi & Ha & Hrun & _).
    { rewrite Hpre. discriminate. }
    rewrite Hpre in Hi, Ha. destruct i as [|i]; [|simpl in Hi; lia].
    injection Ha as <-. eexists. exact Hrun.
  - intros Hr approaches.
    destruct (approachesAt_enabled _ Hr) as [Hnd Hen].
    split; [exact Hnd|]. split; [exact Hen|]. split; [|split].
    + intros a Ha. apply Hen, list_elem_of_lookup in Ha as [i Hi].
      exists i. split; [exact Hi|].
      intros j Hj. exact (NoDup_lookup _ _ _ _ Hnd Hj Hi).
    + intros Hne.
      destruct (chooseApproach_run s Hne) as (i & draws & approach & Hi & Ha & Hrun & Hdraw).
      exists i, approach, (reshuffled s (Tables s) draws).
      split; [exact Hrun|]. split; [|split; [exact Ha|exact Hdraw]].
      apply Hen, list_elem_of_lookup. exists i. exact Ha.
    + intros Hnil. exists s. unfold chooseApproach, bind, get, Rd, Intn.
      fold approaches. rewrite Hnil. reflexivity.
Qed.

End Approach.

(** C7 in round 0 of a batch with two view rounds: PQS is chosen. *)
Lemma approach_selection_witness :
  exists s',
    chooseApproach (exampleConf 2 true) (exampleState [] [7]%nat 0 []) = (Ret approachPQS, s').
Proof.
  apply (proj1 (approach_selection (exampleConf 2 true) (exampleState [] [7]%nat 0 []))).
  reflexivity.
Defined.

(** ** A PQS round that fails verification *)

Section Mismatch.
Context `{GoLib} `{Externals}.
Variable conf : Config.
Local Open Scope Z_scope.

Lemma parseKeys_no_exit (keys : list string) (why : string) :
  parseKeys keys <> Fatal why.
Proof.
  revert why. induction keys as [|column keys IH]; intros why; simpl; [discriminate|].
  destruct (split dot column) as [|table [|col parts]]; try discriminate.
  destruct (parseKeys keys) as [cols|why'|why'] eqn:Hkeys; try discriminate.
  destruct (IH why' eq_refl).
Qed.

Lemma printColumns_run (pivotRows : gmap string QueryItem) (tableColumns : list Column)
    (s : State) :
  exists res s' printed,
    printColumns pivotRows tableColumns s = (res, s') /\
    trace s' = trace s ++ printed /\
    (res = Ret tt \/ exists why, res = Panic why).
Proof.
  revert s. induction tableColumns as [|column tableColumns IH]; intros s; simpl.
  - exists (Ret tt), s, []. rewrite app_nil_r. repeat split. left. reflexivity.
  - destruct (pivotRows !! Column_String column) as [value|].
    + unfold bind, emit.
      match goal with |- context [printColumns _ _ ?s1] =>
        destruct (IH s1) as (res & s' & printed & Hrun & Htrace & Hres) end.
      rewrite Hrun. simpl in Htrace. rewrite <- app_assoc in Htrace.
      exists res, s'. eexists. split; [reflexivity|]. split; [exact Htrace|exact Hres].
    + exists (Panic nil_dereference), s, []. rewrite app_nil_r.
      repeat split. right. eexists. reflexivity.
Qed.

Lemma printPivotRows_run (pivotRows : gmap string QueryItem) (s : State) :
  exists res s' printed,
    printPivotRows pivotRows s = (res, s') /\
    trace s' = trace s ++ printed /\
    counters s' = counters s /\
    (res = Ret tt \/ exists why, res = Panic why).
Proof.
  assert (exists res s' printed,
             printPivotRows pivotRows s = (res, s') /\
             trace s' = trace s ++ printed /\
             (res = Ret tt \/ exists why, res = Panic why))
    as (res & s' & printed & Hrun & Htrace & Hres).
  { unfold printPivotRows.
    destruct (parseKeys (map_to_list pivotRows).*1) as [tableColumns|why|why] eqn:Hkeys.
    - apply printColumns_run.
    - exists (Panic why), s, []. rewrite app_nil_r. repeat split. right. eexists. reflexivity.
    - destruct (parseKeys_no_exit _ _ Hkeys). }
  exists res, s', printed. split; [exact Hrun|]. split; [exact Htrace|].
  split; [|exact Hres]. exact (counters_printPivotRows pivotRows _ _ _ Hrun).
Qed.

Lemma pqsAction_verified (selectAST : ptr SelectStmt) (selectSQL : string)
    (columns : list Column) (pivotRows : gmap string QueryItem)
    (s : State) (rows : resultRows) (w : W) (correct : bool) :
  conn_Select selectSQL (world s) = (inl rows, w) ->
  verifyPQS pivotRows columns rows = Ret correct ->
  pqsAction conf selectAST selectSQL columns pivotRows s =
  (if negb correct then reportMismatch conf selectAST pivotRows
   else
     (seedView conf selectSQL rows columns ;;
      reloadViews conf ;;
      log "info" "check finished" ;;
      ret None)%go)
    (mkState _ (Tables s) (batch s) (roundInBatch s) (e_tables s) (rng s) w
       ((trace s ++ [ELog "debug" "execSelect"]) ++ [ESelect selectSQL (inl rows)])).
Proof.
  intros Hsel Hverify. unfold pqsAction. unfold bind at 1.
  destruct (execSelect_run selectSQL s) as (res & w' & Hsel' & ->).
  rewrite Hsel in Hsel'. injection Hsel' as <- <-.
  unfold bind at 1. rewrite Hverify. reflexivity.
Qed.

Lemma reportMismatch_run (selectAST : ptr SelectStmt) (pivotRows : gmap string QueryItem)
    (s : State) :
  IsKnownBug selectAST pivotRows = false ->
  exists res s' printed,
    reportMismatch conf selectAST pivotRows s = (res, s') /\
    trace s' = (trace s ++ [EPrint ("row:" ++ nl)%string]) ++ printed /\
    ((exists why, res = Panic why) \/
     res = (if (roundInBatch s <? ViewCount conf) || Silent conf
            then Panic "data verified failed" else Ret None)).
Proof.
  intros Hknown. unfold reportMismatch. rewrite Hknown.
  unfold bind at 1, emit at 1. unfold bind at 1.
  match goal with |- context [printPivotRows _ ?s1] =>
    destruct (printPivotRows_run pivotRows s1)
      as (res & s' & printed & Hrun & Htrace & Hc & Hres) end.
  rewrite Hrun. simpl in Htrace. injection Hc as _ Hr. simpl in Hr.
  destruct Hres as [->|[why ->]].
  - exists (if (roundInBatch s <? ViewCount conf) || Silent conf
            then Panic "data verified failed" else Ret None), s', printed.
    split; [|split; [exact Htrace|right; reflexivity]].
    unfold bind, get. rewrite Hr.
    destruct ((roundInBatch s <? ViewCount conf) || Silent conf); reflexivity.
  - exists (Panic why), s', printed.
    split; [reflexivity|]. split; [exact Htrace|]. left. eexists. reflexivity.
Qed.

Lemma commitTxn_returns (s : State) : exists s', commitTxn s = (Ret tt, s').
Proof.
  unfold commitTxn, bind, call, emit, log.
  destruct (conn_Commit (world s)) as [[e|] w]; eexists; reflexivity.
Qed.

Lemma defer_commitTxn_Panic {A} (action : M A) (s s' : State) (why : string) :
  action s = (Panic why, s') ->
  exists s'', defer commitTxn action s = (Panic why, s'').
Proof.
  intros Hrun. unfold defer. rewrite Hrun.
  destruct (commitTxn_returns s') as [s'' ->]. exists s''. reflexivity.
Qed.

(** C1, as amended. In a PQS round of the view prefix ([roundInBatch <
    ViewCount]) whose select returns rows that fail verification and whose
    query is not a known bug, the action prints the pivot row and panics,
    whether [Silent] is true or false; the panic passes the deferred commit
    of an explicit transaction, and [progress] and [run] stop at it. *)
Theorem pqs_mismatch_in_prefix_panics (selectAST : ptr SelectStmt) (selectSQL : string)
    (columns : list Column) (pivotRows : gmap string QueryItem)
    (s : State) (rows : resultRows) (w : W) :
  conn_Select selectSQL (world s) = (inl rows, w) ->
  verifyPQS pivotRows columns rows = Ret false ->
  IsKnownBug selectAST pivotRows = false ->
  roundInBatch s < ViewCount conf ->
  exists why s',
    pqsAction conf selectAST selectSQL columns pivotRows s = (Panic why, s') /\
    EPrint ("row:" ++ nl)%string ∈ trace s' /\
    exists s'',
      defer commitTxn (pqsAction conf selectAST selectSQL columns pivotRows) s
      = (Panic why, s'').
Proof.
  intros Hsel Hverify Hknown Hprefix.
  assert (exists why s',
             pqsAction conf selectAST selectSQL columns pivotRows s = (Panic why, s') /\
             EPrint ("row:" ++ nl)%string ∈ trace s')
    as (why & s' & Hrun & Hprint).
  { rewrite (pqsAction_verified _ _ _ _ _ _ _ _ Hsel Hverify).
    change (negb false) with true. cbv iota.
    match goal with |- context [reportMismatch _ _ _ ?s1] =>
      destruct (reportMismatch_run selectAST pivotRows s1 Hknown)
        as (res & s' & printed & Hrun & Htrace & Hres) end.
    simpl in Hres.
    assert (exists why, res = Panic why) as [why ->].
    { destruct Hres as [Hp| ->]; [exact Hp|].
      destruct (Z.ltb_spec (roundInBatch s) (ViewCount conf)); [|lia].
      eexists. reflexivity. }
    exists why, s'. split; [exact Hrun|].
    rewrite Htrace. apply elem_of_app. left. apply elem_of_app. right. left. }
  exists why, s'. split; [exact Hrun|]. split; [exact Hprint|].
  exact (defer_commitTxn_Panic _ _ _ _ Hrun).
Qed.

End Mismatch.

(** C1 in round 0 of a batch with one view round, [Silent] true. *)
Lemma pqs_mismatch_in_prefix_panics_witness :
  exists why s',
    @pqsAction asciiLib scripted (exampleConf 1 true) None "SELECT 1" [] ∅
      (exampleState [] [] 0 [[]]) = (Panic why, s').
Proof.
  destruct (@pqs_mismatch_in_prefix_panics asciiLib scripted (exampleConf 1 true)
              None "SELECT 1" [] ∅ (exampleState [] [] 0 [[]]) [] [])
    as (why & s' & Hrun & _).
  - reflexivity.
  - reflexivity.
  - reflexivity.
  - reflexivity.
  - exists why, s'. exact Hrun.
Defined.

(** C1 as first stated fails in the view prefix: with [Silent] true, in
    round 0 of a batch with one view round, a PQS round whose select returns
    no row (so that verification fails) and whose query is not a known bug
    panics. *)
Lemma pqs_mismatch_silent_counterexample :
  Silent (exampleConf 1 true) = true /\
  @verifyPQS asciiLib ∅ [] [] = Ret false /\
  @IsKnownBug scripted None ∅ = false /\
  fst (@pqsAction asciiLib scripted (exampleConf 1 true) None "SELECT 1" [] ∅
         (exampleState [] [] 0 [[]]))
  = Panic "data verified failed".
Proof. repeat split. Qed.

(** Outside the prefix the test on [Silent] reads the other way round than
    in the NoREC and TLP rounds ([checkGroups]): in round 5 with no view
    rounds the same mismatch panics when [Silent] is true and returns when
    it is false. *)
Example pqs_mismatch_after_prefix :
  fst (@pqsAction asciiLib scripted (exampleConf 0 true) None "SELECT 1" [] ∅
         (exampleState [] [] 5 [[]]))
  = Panic "data verified failed" /\
  fst (@pqsAction asciiLib scripted (exampleConf 0 false) None "SELECT 1" [] ∅
         (exampleState [] [] 5 [[]]))
  = Ret None.
Proof. split; vm_compute; reflexivity. Qed.

(** ** View seeding *)

Section Views.
Context `{GoLib} `{Externals}.
Variable conf : Config.
Local Open Scope Z_scope.

Lemma traceAndTables_fetchIndexes schema indexes :
  preserves traceAndTables (fetchIndexes conf schema indexes).
Proof.
  revert indexes. induction schema as [|col schema IH]; intros indexes; simpl; frame.
Qed.

Lemma reloadSchema_run (s : State) :
  exists err s',
    reloadSchema conf s = (Ret err, s') /\ trace s' = trace s /\ Tables s' = Tables s.
Proof.
  assert (preserves traceAndTables (reloadSchema conf)) as Hkeep.
  { unfold reloadSchema. pose proof traceAndTables_fetchIndexes. frame. }
  destruct (reloadSchema_returns conf s) as (err & s' & Hrun).
  exists err, s'. split; [exact Hrun|].
  pose proof (Hkeep _ _ _ Hrun) as Hk. injection Hk as Ht HT. split; assumption.
Qed.

Lemma ReloadSchema_run (s : State) :
  exists err s',
    ReloadSchema conf s = (Ret err, s') /\
    trace s' = trace s ++ [EReloadSchema err] /\
    Tables s' = Tables s.
Proof.
  destruct (reloadSchema_run s) as (err & s1 & Hrun & Htrace & HT).
  unfold ReloadSchema, bind. rewrite Hrun. unfold emit, ret. simpl.
  eexists _, _. split; [reflexivity|]. simpl. rewrite Htrace. split; [reflexivity|exact HT].
Qed.

Lemma loadTables_run (tables : list string) (s : State) :
  exists res s',
    loadTables conf tables s = (res, s') /\
    trace s' = trace s /\
    ((res = Ret tt /\ Table.Name <$> Tables s' = (Table.Name <$> Tables s) ++ tables) \/
     exists why, res = Panic why).
Proof.
  revert s. induction tables as [|i tables IH]; intros s; simpl.
  - exists (Ret tt), s. split; [reflexivity|]. split; [reflexivity|].
    left. rewrite app_nil_r. split; reflexivity.
  - unfold bind at 1, call at 1.
    destruct (conn_FetchColumns (DBName conf) i (world s)) as [[columns|err] w].
    + unfold bind at 1, call at 1. simpl.
      destruct (conn_FetchIndexes (DBName conf) i w) as [[idx|err] w'].
      * unfold bind, get, set_Tables. simpl.
        match goal with |- context [loadTables _ _ ?s1] =>
          destruct (IH s1) as (res & s' & Hrun & Htrace & Hres) end.
        exists res, s'. split; [exact Hrun|]. split; [exact Htrace|].
        destruct Hres as [[-> Hnames]|Hpanic]; [left|right; exact Hpanic].
        split; [reflexivity|]. rewrite Hnames. simpl.
        rewrite fmap_app, <- app_assoc. reflexivity.
      * eexists _, _. split; [reflexivity|]. split; [reflexivity|].
        right. eexists. reflexivity.
    + eexists _, _. split; [reflexivity|]. split; [reflexivity|].
      right. eexists. reflexivity.
Qed.

Lemma LoadSchema_run (s : State) :
  exists res s',
    LoadSchema conf s = (res, s') /\
    trace s' = trace s ++ [ELoadSchema] /\
    ((res = Ret tt /\
      exists names w', conn_FetchTables (DBName conf) (world s) = (inl names, w') /\
                       Table.Name <$> Tables s' = names) \/
     exists why, res = Panic why).
Proof.
  unfold LoadSchema. unfold bind at 1, emit at 1. unfold bind at 1, set_Tables at 1.
  unfold bind at 1, call at 1. simpl.
  destruct (conn_FetchTables (DBName conf) (world s)) as [[names|err] w].
  - match goal with |- context [loadTables _ _ ?s1] =>
      destruct (loadTables_run names s1) as (res & s' & Hrun & Htrace & Hres) end.
    exists res, s'. split; [exact Hrun|]. split; [exact Htrace|].
    destruct Hres as [[-> Hnames]|Hpanic]; [left|right; exact Hpanic].
    split; [reflexivity|]. exists names, w. split; [reflexivity|exact Hnames].
  - eexists _, _. split; [reflexivity|]. split; [reflexivity|].
    right. eexists. reflexivity.
Qed.

End Views.

Section ViewSeeding.
Context `{GoLib} `{Externals}.
Variable conf : Config.
Local Open Scope Z_scope.

Lemma seedView_run (selectSQL : string) (rows : resultRows) (columns : list Column)
    (s : State) :
  exists s2,
    seedView conf selectSQL rows columns s = (Ret tt, s2) /\
    roundInBatch s2 = roundInBatch s /\
    ((roundInBatch s <= ViewCount conf /\
      exists err,
        world s2 = snd (conn_CreateViewBySelect (viewName (roundInBatch s)) selectSQL
                          (length rows) columns (world s)) /\
        calls (trace s2) =
          calls (trace s) ++
          [ECreateViewBySelect (viewName (roundInBatch s)) selectSQL (length rows) columns err]) \/
     (ViewCount conf < roundInBatch s /\ s2 = s)).
Proof.
  unfold seedView, bind at 1, get at 1.
  destruct (Z.leb_spec (roundInBatch s) (ViewCount conf)) as [Hle|Hgt].
  - unfold bind at 1, call at 1.
    destruct (conn_CreateViewBySelect (viewName (roundInBatch s)) selectSQL
                (length rows) columns (world s)) as [err w1] eqn:Hview.
    unfold bind, emit. simpl.
    destruct err as [e|]; eexists; (split; [reflexivity|]); (split; [reflexivity|]);
      left; (split; [exact Hle|]); eexists; (split; [reflexivity|]); simpl;
      rewrite ?calls_app; simpl; rewrite ?app_nil_r; reflexivity.
  - exists s. split; [reflexivity|]. split; [reflexivity|]. right. split; [lia|reflexivity].
Qed.

Lemma reloadViews_run (s : State) :
  exists res s3,
    reloadViews conf s = (res, s3) /\
    ((roundInBatch s <> ViewCount conf /\ res = Ret tt /\ s3 = s) \/
     (roundInBatch s = ViewCount conf /\
      ((calls (trace s3) = calls (trace s) ++ [ELoadSchema] /\ exists why, res = Panic why) \/
       exists err names w',
         calls (trace s3) = calls (trace s) ++ [ELoadSchema; EReloadSchema err] /\
         res = match err with Some e => Panic e | None => Ret tt end /\
         conn_FetchTables (DBName conf) (world s) = (inl names, w') /\
         Table.Name <$> Tables s3 = names))).
Proof.
  unfold reloadViews, bind at 1, get at 1.
  destruct (Z.eqb_spec (roundInBatch s) (ViewCount conf)) as [Heq|Hne].
  - destruct (LoadSchema_run conf s) as (res & s1 & Hload & Htrace & Hres).
    unfold bind at 1. rewrite Hload.
    destruct Hres as [[-> (names & w' & Hfetch & Hnames)]|[why ->]].
    + destruct (ReloadSchema_run conf s1) as (err & s2 & Hreload & Htrace2 & HT).
      unfold bind. rewrite Hreload.
      assert (calls (trace s2) = calls (trace s) ++ [ELoadSchema; EReloadSchema err]) as Hcalls.
      { rewrite Htrace2, Htrace, !calls_app, <- app_assoc. reflexivity. }
      destruct err as [e|]; eexists _, _; (split; [reflexivity|]); right;
        (split; [exact Heq|]); right; eexists _, names, w';
        (split; [exact Hcalls|]); (split; [reflexivity|]);
        (split; [exact Hfetch|]); rewrite HT; exact Hnames.
    + eexists _, _. split; [reflexivity|]. right. split; [exact Heq|]. left.
      split; [|eexists; reflexivity]. rewrite Htrace, calls_app. reflexivity.
  - exists (Ret tt), s. split; [reflexivity|]. left. repeat split. exact Hne.
Qed.

(** C3. A PQS round whose select returns rows that pass verification makes
    these calls, in this order, after the select: when [roundInBatch <=
    ViewCount], [CreateViewBySelect] with the name [view_<roundInBatch>], the
    SQL that was executed, the number of result rows and the result columns;
    when [roundInBatch = ViewCount], [LoadSchema] and then (unless
    [LoadSchema] panics on a catalogue error) [ReloadSchema]. After that
    reload [p.Tables] names exactly what the connection lists once the view
    has been created, and the action returns no error unless [ReloadSchema]
    failed. In the other rounds nothing is reloaded. *)
Theorem view_seeding (selectAST : ptr SelectStmt) (selectSQL : string)
    (columns : list Column) (pivotRows : gmap string QueryItem)
    (s : State) (rows : resultRows) (w : W) :
  conn_Select selectSQL (world s) = (inl rows, w) ->
  verifyPQS pivotRows columns rows = Ret true ->
  exists res s' viewCalls reloadCalls,
    pqsAction conf selectAST selectSQL columns pivotRows s = (res, s') /\
    calls (trace s') =
      calls (trace s) ++ [ESelect selectSQL (inl rows)] ++ viewCalls ++ reloadCalls /\
    (roundInBatch s <= ViewCount conf ->
     exists err,
       viewCalls =
         [ECreateViewBySelect (viewName (roundInBatch s)) selectSQL (length rows) columns err]) /\
    (ViewCount conf < roundInBatch s -> viewCalls = []) /\
    (roundInBatch s = ViewCount conf ->
     (reloadCalls = [ELoadSchema] /\ exists why, res = Panic why) \/
     exists err names w',
       reloadCalls = [ELoadSchema; EReloadSchema err] /\
       res = match err with Some e => Panic e | None => Ret None end /\
       conn_FetchTables (DBName conf)
         (snd (conn_CreateViewBySelect (viewName (roundInBatch s)) selectSQL
                 (length rows) columns w)) = (inl names, w') /\
       Table.Name <$> Tables s' = names) /\
    (roundInBatch s <> ViewCount conf -> reloadCalls = [] /\ res = Ret None).
Proof.
  intros Hsel Hverify.
  rewrite (pqsAction_verified conf _ _ _ _ _ _ _ _ Hsel Hverify).
  change (negb true) with false. cbv iota.
  set (s1 := mkState _ (Tables s) (batch s) (roundInBatch s) (e_tables s) (rng s) w
               ((trace s ++ [ELog "debug" "execSelect"]) ++ [ESelect selectSQL (inl rows)])).
  assert (calls (trace s1) = calls (trace s) ++ [ESelect selectSQL (inl rows)]) as Hcalls1.
  { unfold s1. simpl. rewrite !calls_app. simpl. rewrite app_nil_r. reflexivity. }
  destruct (seedView_run selectSQL rows columns s1) as (s2 & Hseed & Hr2 & Hview).
  change (roundInBatch s1) with (roundInBatch s) in Hr2, Hview.
  change (world s1) with w in Hview.
  unfold bind at 1. rewrite Hseed.
  destruct (reloadViews_run s2) as (res3 & s3 & Hreload & Hcases).
  rewrite Hr2 in Hcases.
  unfold bind at 1. rewrite Hreload.
  set (viewCalls :=
         if roundInBatch s <=? ViewCount conf
         then drop (length (calls (trace s1))) (calls (trace s2)) else []).
  assert (calls (trace s2) = calls (trace s1) ++ viewCalls /\
          (roundInBatch s <= ViewCount conf ->
           world s2 = snd (conn_CreateViewBySelect (viewName (roundInBatch s)) selectSQL
                             (length rows) columns w) /\
           exists err,
             viewCalls = [ECreateViewBySelect (viewName (roundInBatch s)) selectSQL
                            (length rows) columns err]) /\
          (ViewCount conf < roundInBatch s -> viewCalls = []))
    as (Hcalls2 & Hcreated & Hskipped).
  { unfold viewCalls.
    destruct Hview as [(Hle & err & Hw & Hc)|(Hgt & ->)].
    - destruct (Z.leb_spec (roundInBatch s) (ViewCount conf)); [|lia].
      rewrite Hc, drop_app_length. split; [reflexivity|]. split; [|lia].
      intros _. split; [exact Hw|]. exists err. reflexivity.
    - destruct (Z.leb_spec (roundInBatch s) (ViewCount conf)); [lia|].
      rewrite app_nil_r. split; [reflexivity|]. split; [lia|]. reflexivity. }
  destruct Hcases as [(Hne & -> & ->)|(Heq & Hload)].
  - unfold bind, log, emit, ret. simpl.
    eexists _, _, viewCalls, []. split; [reflexivity|]. simpl.
    rewrite calls_app, Hcalls2, Hcalls1. simpl. rewrite !app_nil_r, <- app_assoc.
    split; [reflexivity|]. split; [intros Hle; apply Hcreated, Hle|].
    split; [exact Hskipped|]. split; [intros; contradiction|].
    intros _. split; reflexivity.
  - destruct Hload as [(Hc3 & why & ->)|(err & names & w' & Hc3 & -> & Hfetch & Hnames)].
    + eexists _, _, viewCalls, [ELoadSchema]. split; [reflexivity|].
      rewrite Hc3, Hcalls2, Hcalls1, <- !app_assoc.
      split; [reflexivity|]. split; [intros Hle; apply Hcreated, Hle|].
      split; [exact Hskipped|]. split; [|intros; contradiction].
      intros _. left. split; [reflexivity|]. eexists. reflexivity.
    + destruct (Hcreated ltac:(lia)) as [Hw _]. rewrite Hw in Hfetch.
      destruct err as [e|].
      * eexists _, _, viewCalls, [ELoadSchema; EReloadSchema (Some e)].
        split; [reflexivity|].
        rewrite Hc3, Hcalls2, Hcalls1, <- !app_assoc.
        split; [reflexivity|]. split; [intros Hle; apply Hcreated, Hle|].
        split; [exact Hskipped|]. split; [|intros; contradiction].
        intros _. right. exists (Some e), names, w'.
        split; [reflexivity|]. split; [reflexivity|]. split; [exact Hfetch|exact Hnames].
      * unfold bind, log, emit, ret. simpl.
        eexists _, _, viewCalls, [ELoadSchema; EReloadSchema None].
        split; [reflexivity|]. simpl.
        rewrite calls_app, Hc3, Hcalls2, Hcalls1. simpl. rewrite app_nil_r, <- !app_assoc.
        split; [reflexivity|]. split; [intros Hle; apply Hcreated, Hle|].
        split; [exact Hskipped|]. split; [|intros; contradiction].
        intros _. right. exists None, names, w'.
        split; [reflexivity|]. split; [reflexivity|]. split; [exact Hfetch|exact Hnames].
Qed.

End ViewSeeding.

Example view_seeding_calls :
  calls (trace (snd (@pqsAction asciiLib scripted (exampleConf 0 true) None "SELECT 1" [] ∅
                       (exampleState [] [] 0 [[[]]]))))
  = [ESelect "SELECT 1" (inl [[]]);
     ECreateViewBySelect "view_0" "SELECT 1" 1 [] None;
     ELoadSchema;
     EReloadSchema None].
Proof. vm_compute. reflexivity. Qed.

(** C3 in round 0 of a batch with no view round before the reload: the view
    [view_0] is created from the one-row result. *)
Lemma view_seeding_witness :
  exists res s' err reloadCalls,
    @pqsAction asciiLib scripted (exampleConf 0 true) None "SELECT 1" [] ∅
      (exampleState [] [] 0 [[[]]]) = (res, s') /\
    calls (trace s') =
      [ESelect "SELECT 1" (inl [[]])] ++
      [ECreateViewBySelect "view_0" "SELECT 1" 1 [] err] ++ reloadCalls.
Proof.
  destruct (@view_seeding asciiLib scripted (exampleConf 0 true) None "SELECT 1" [] ∅
              (exampleState [] [] 0 [[[]]]) [[]] [])
    as (res & s' & viewCalls & reloadCalls & Hrun & Hcalls & Hview & _).
  - reflexivity.
  - reflexivity.
  - destruct (Hview ltac:(reflexivity)) as [err ->].
    exists res, s', err, reloadCalls. split; [exact Hrun|exact Hcalls].
Defined.

(** * More of the oracles *)

Section CompareMore.

(** X1. [compareQueryItem] panics exactly when one of its arguments is
    [nil]. On two cells its verdict does not depend on their type tags (the
    comparison of the type names is commented out, lines 567-569), and two
    null cells compare equal whatever their string renderings. *)
Theorem compareQueryItem_reads :
  (forall l r : ptr QueryItem,
      (exists b, compareQueryItem l r = Ret b) <-> is_Some l /\ is_Some r) /\
  (forall l r : ptr QueryItem,
      l = None \/ r = None -> compareQueryItem l r = Panic nil_dereference) /\
  (forall (n1 n2 : bool) (t1 t2 t1' t2' : ColumnType) (v1 v2 : string),
      compareQueryItem (Some (mkQueryItem n1 t1 v1)) (Some (mkQueryItem n2 t2 v2)) =
      compareQueryItem (Some (mkQueryItem n1 t1' v1)) (Some (mkQueryItem n2 t2' v2))) /\
  (forall (t1 t2 : ColumnType) (v1 v2 : string),
      compareQueryItem (Some (mkQueryItem true t1 v1)) (Some (mkQueryItem true t2 v2)) =
      Ret true).
Proof.
  split; [|split; [|split]].
  - intros [l|] [r|]; split.
    + intros _. split; eexists; reflexivity.
    + intros _. rewrite compareQueryItem_Some. eexists. reflexivity.
    + intros [b Hb]. discriminate.
    + intros [_ [x Hx]]. discriminate.
    + intros [b Hb]. discriminate.
    + intros [[x Hx] _]. discriminate.
    + intros [b Hb]. discriminate.
    + intros [[x Hx] _]. discriminate.
  - intros [l|] [r|] [Hn|Hn]; try discriminate; reflexivity.
  - intros. rewrite !compareQueryItem_Some. reflexivity.
  - intros. reflexivity.
Qed.

(** X1 on a missing pivot item. *)
Lemma compareQueryItem_reads_witness :
  compareQueryItem None (Some (exampleItem "a" "1")) = Panic nil_dereference.
Proof.
  apply (proj1 (proj2 compareQueryItem_reads)). left. reflexivity.
Defined.

End CompareMore.

Section CheckRowMore.
Context `{GoLib}.

Lemma compareQueryItem_no_exit (l r : ptr QueryItem) (why : string) :
  compareQueryItem l r <> Fatal why.
Proof.
  destruct l as [l|], r as [r|]; try discriminate.
  rewrite compareQueryItem_Some. discriminate.
Qed.

Lemma compareQueryItem_Panic (l r : ptr QueryItem) (why : string) :
  compareQueryItem l r = Panic why ->
  (l = None \/ r = None) /\ why = nil_dereference.
Proof.
  destruct l as [l|], r as [r|]; intros Hc;
    try (injection Hc as <-; split; [auto|reflexivity]).
  rewrite compareQueryItem_Some in Hc. discriminate.
Qed.

Lemma checkRow_from_outcome (originRow : gmap string QueryItem)
    (columns : list Column) (resultSet : list (ptr QueryItem)) (i : nat) :
  match checkRow_from i originRow columns resultSet with
  | Ret true => matchesUpTo originRow columns resultSet i (length columns)
  | Ret false =>
      exists k c cell,
        columns !! k = Some c /\ resultSet !! (i + k)%nat = Some cell /\
        compareQueryItem (originRow !! GetAliasName c) cell = Ret false /\
        matchesUpTo originRow columns resultSet i k
  | Panic why =>
      exists k c,
        columns !! k = Some c /\
        matchesUpTo originRow columns resultSet i k /\
        ((resultSet !! (i + k)%nat = None /\ why = index_out_of_range) \/
         (exists cell, resultSet !! (i + k)%nat = Some cell /\
                       (originRow !! GetAliasName c = None \/ cell = None) /\
                       why = nil_dereference))
  | Fatal _ => False
  end.
Proof.
  revert i. induction columns as [|c columns IH]; intros i.
  - simpl. intros k' c' Hk. simpl in Hk. lia.
  - simpl. destruct (resultSet !! i) as [cell|] eqn:Hcell.
    + destruct (compareQueryItem (originRow !! GetAliasName c) cell) as [[|]|why|why] eqn:Hcmp.
      * specialize (IH (S i)).
        assert (forall k, matchesUpTo originRow columns resultSet (S i) k ->
                          matchesUpTo originRow (c :: columns) resultSet i (S k)) as Hshift.
        { intros k Hm [|k'] c' Hk' Hc'; simpl in Hc'.
          - injection Hc' as <-. exists cell. rewrite Nat.add_0_r. split; assumption.
          - replace (i + S k')%nat with (S i + k')%nat by lia. apply Hm; [lia|exact Hc']. }
        destruct (checkRow_from (S i) originRow columns resultSet) as [[|]|why|why].
        -- apply Hshift, IH.
        -- destruct IH as (k & c' & cell' & Hk & Hcell' & Hcmp' & Hm).
           exists (S k), c', cell'. split; [exact Hk|].
           replace (i + S k)%nat with (S i + k)%nat by lia.
           split; [exact Hcell'|]. split; [exact Hcmp'|]. apply Hshift, Hm.
        -- destruct IH as (k & c' & Hk & Hm & Hwhy).
           exists (S k), c'. split; [exact Hk|]. split; [apply Hshift, Hm|].
           replace (i + S k)%nat with (S i + k)%nat by lia. exact Hwhy.
        -- exact IH.
      * exists 0%nat, c, cell. rewrite Nat.add_0_r.
        split; [reflexivity|]. split; [exact Hcell|]. split; [exact Hcmp|].
        intros k' c' Hk'. lia.
      * exists 0%nat, c. rewrite Nat.add_0_r. split; [reflexivity|].
        split; [intros k' c' Hk'; lia|]. right. exists cell.
        destruct (compareQueryItem_Panic _ _ _ Hcmp) as [Hnil ->].
        split; [exact Hcell|]. split; [exact Hnil|reflexivity].
      * destruct (compareQueryItem_no_exit _ _ _ Hcmp).
    + exists 0%nat, c. rewrite Nat.add_0_r. split; [reflexivity|].
      split; [intros k' c' Hk'; lia|]. left. split; [exact Hcell|reflexivity].
Qed.

End CheckRowMore.

Section CheckRowOutcome.
Context `{GoLib}.

Lemma checkRow_cases (originRow : gmap string QueryItem)
    (columns : list Column) (resultSet : list (ptr QueryItem)) :
  match checkRow originRow columns resultSet with
  | Ret true => rowMatches originRow columns resultSet
  | Ret false => exists k, differsAt originRow columns resultSet k
  | Panic why => exists k, panicsAt originRow columns resultSet k why
  | Fatal _ => False
  end.
Proof.
  pose proof (checkRow_from_outcome originRow columns resultSet 0) as Hout.
  unfold checkRow. destruct (checkRow_from 0 originRow columns resultSet) as [[|]|why|why].
  - intros k c Hk. apply (Hout k c); [|exact Hk]. apply lookup_lt_Some in Hk. exact Hk.
  - destruct Hout as (k & c & cell & Hout). exists k, c, cell. exact Hout.
  - destruct Hout as (k & c & Hout). exists k, c. exact Hout.
  - exact Hout.
Qed.

(** The cell of the row at position [k] compares equal to the pivot. *)
Local Abbreviation equalAt originRow columns resultSet k :=
  (exists c cell, columns !! k = Some c /\ resultSet !! k = Some cell /\
                  compareQueryItem (originRow !! GetAliasName c) cell = Ret true).

Lemma differsAt_not_equal originRow columns resultSet k :
  differsAt originRow columns resultSet k -> ~ equalAt originRow columns resultSet k.
Proof.
  intros (c & cell & Hc & Hcell & Hcmp & _) (c' & cell' & Hc' & Hcell' & Hcmp').
  congruence.
Qed.

Lemma panicsAt_not_equal originRow columns resultSet k why :
  panicsAt originRow columns resultSet k why -> ~ equalAt originRow columns resultSet k.
Proof.
  intros (c & Hc & _ & Hwhy) (c' & cell' & Hc' & Hcell' & Hcmp').
  rewrite Hc in Hc'. injection Hc' as <-.
  destruct Hwhy as [[Hnone _]|(cell & Hcell & Hnil & _)]; [congruence|].
  rewrite Hcell in Hcell'. injection Hcell' as <-.
  destruct Hnil as [Hp| ->].
  - rewrite Hp in Hcmp'. discriminate.
  - destruct (originRow !! GetAliasName c); discriminate.
Qed.

Lemma matchesUpTo_equalAt originRow columns resultSet k k' :
  matchesUpTo originRow columns resultSet 0 k -> (k' < k)%nat ->
  (k' < length columns)%nat -> equalAt originRow columns resultSet k'.
Proof.
  intros Hm Hlt Hlen. destruct (lookup_lt_is_Some_2 columns k' Hlen) as [c Hc].
  destruct (Hm k' c Hlt Hc) as (cell & Hcell & Hcmp).
  exists c, cell. split; [exact Hc|]. split; [exact Hcell|exact Hcmp].
Qed.

(** Two stopping positions coincide. *)
Lemma stop_unique originRow columns resultSet k1 k2 :
  (k1 < length columns)%nat -> (k2 < length columns)%nat ->
  matchesUpTo originRow columns resultSet 0 k1 -> ~ equalAt originRow columns resultSet k1 ->
  matchesUpTo originRow columns resultSet 0 k2 -> ~ equalAt originRow columns resultSet k2 ->
  k1 = k2.
Proof.
  intros Hl1 Hl2 Hm1 Hn1 Hm2 Hn2.
  destruct (Nat.lt_trichotomy k1 k2) as [Hlt|[Heq|Hgt]]; [|exact Heq|].
  - destruct Hn1. exact (matchesUpTo_equalAt _ _ _ _ _ Hm2 Hlt Hl1).
  - destruct Hn2. exact (matchesUpTo_equalAt _ _ _ _ _ Hm1 Hgt Hl2).
Qed.

(** X2. The outcome of [checkRow], with no precondition: it answers true
    exactly when every column position compares equal; it answers false
    exactly when some position compares unequal and all positions before it
    compare equal; it panics exactly when, all earlier positions comparing
    equal, the row has no cell at a position (index out of range) or the cell
    or the pivot item there is [nil]; it never exits. *)
Theorem checkRow_outcome (originRow : gmap string QueryItem)
    (columns : list Column) (resultSet : list (ptr QueryItem)) :
  (checkRow originRow columns resultSet = Ret true <->
   rowMatches originRow columns resultSet) /\
  (checkRow originRow columns resultSet = Ret false <->
   exists k, differsAt originRow columns resultSet k) /\
  (forall why,
      checkRow originRow columns resultSet = Panic why <->
      exists k, panicsAt originRow columns resultSet k why) /\
  (forall why, checkRow originRow columns resultSet <> Fatal why).
Proof.
  pose proof (checkRow_cases originRow columns resultSet) as Hcases.
  assert (forall k, differsAt originRow columns resultSet k ->
            (k < length columns)%nat /\ matchesUpTo originRow columns resultSet 0 k /\
            ~ equalAt originRow columns resultSet k) as HD.
  { intros k Hd. pose proof (differsAt_not_equal _ _ _ _ Hd) as Hn.
    destruct Hd as (c & cell & Hc & _ & _ & Hm).
    split; [exact (lookup_lt_Some _ _ _ Hc)|]. split; assumption. }
  assert (forall k why, panicsAt originRow columns resultSet k why ->
            (k < length columns)%nat /\ matchesUpTo originRow columns resultSet 0 k /\
            ~ equalAt originRow columns resultSet k) as HP.
  { intros k why Hp. pose proof (panicsAt_not_equal _ _ _ _ _ Hp) as Hn.
    destruct Hp as (c & Hc & Hm & _).
    split; [exact (lookup_lt_Some _ _ _ Hc)|]. split; assumption. }
  assert (forall k, rowMatches originRow columns resultSet ->
            (k < length columns)%nat -> equalAt originRow columns resultSet k) as HT.
  { intros k Hrow Hk. destruct (lookup_lt_is_Some_2 columns k Hk) as [c Hc].
    destruct (Hrow k c Hc) as (cell & Hcell & Hcmp). exists c, cell. auto. }
  assert (forall k1 k2 why, differsAt originRow columns resultSet k1 ->
            panicsAt originRow columns resultSet k2 why -> False) as HDP.
  { intros k1 k2 why Hd Hp.
    destruct (HD _ Hd) as (Hl1 & Hm1 & Hn1). destruct (HP _ _ Hp) as (Hl2 & Hm2 & Hn2).
    assert (k1 = k2) as -> by (eapply stop_unique; eassumption).
    destruct Hd as (c & cell & Hc & Hcell & Hcmp & _).
    destruct Hp as (c' & Hc' & _ & Hwhy).
    rewrite Hc in Hc'. injection Hc' as <-.
    destruct Hwhy as [[Hnone _]|(cell' & Hcell' & Hnil & _)]; [congruence|].
    rewrite Hcell in Hcell'. injection Hcell' as <-.
    destruct Hnil as [Hp| ->].
    - rewrite Hp in Hcmp. discriminate.
    - destruct (originRow !! GetAliasName c); discriminate. }
  assert (forall k1 k2 w1 w2, panicsAt originRow columns resultSet k1 w1 ->
            panicsAt originRow columns resultSet k2 w2 -> w1 = w2) as HPP.
  { intros k1 k2 w1 w2 Hp1 Hp2.
    destruct (HP _ _ Hp1) as (Hl1 & Hm1 & Hn1). destruct (HP _ _ Hp2) as (Hl2 & Hm2 & Hn2).
    assert (k1 = k2) as -> by (eapply stop_unique; eassumption).
    destruct Hp1 as (c & Hc & _ & Hw1). destruct Hp2 as (c' & Hc' & _ & Hw2).
    destruct Hw1 as [[Hn1' ->]|(cell1 & Hcell1 & _ & ->)],
             Hw2 as [[Hn2' ->]|(cell2 & Hcell2 & _ & ->)]; congruence. }
  destruct (checkRow originRow columns resultSet) as [[|]|why|why] eqn:Hrun.
  - split; [split; auto|]. split; [|split; [|discriminate]].
    + split; [discriminate|]. intros [k Hd]. destruct (HD _ Hd) as (Hl & _ & Hn).
      destruct Hn. apply HT; assumption.
    + intros why. split; [discriminate|]. intros [k Hp].
      destruct (HP _ _ Hp) as (Hl & _ & Hn). destruct Hn. apply HT; assumption.
  - destruct Hcases as [k Hd]. split; [|split; [|split; [|discriminate]]].
    + split; [discriminate|]. intros Hrow. destruct (HD _ Hd) as (Hl & _ & Hn).
      destruct Hn. apply HT; assumption.
    + split; [intros _; exists k; exact Hd|reflexivity].
    + intros why. split; [discriminate|]. intros [k' Hp]. destruct (HDP _ _ _ Hd Hp).
  - destruct Hcases as [k Hp]. split; [|split; [|split; [|discriminate]]].
    + split; [discriminate|]. intros Hrow. destruct (HP _ _ Hp) as (Hl & _ & Hn).
      destruct Hn. apply HT; assumption.
    + split; [discriminate|]. intros [k' Hd]. destruct (HDP _ _ _ Hd Hp).
    + intros why'. split.
      * intros [= <-]. exists k. exact Hp.
      * intros [k' Hp']. f_equal. exact (HPP _ _ _ _ Hp Hp').
  - destruct Hcases.
Qed.

Lemma checkRow_from_reads (originRow originRow' : gmap string QueryItem)
    (columns : list Column) (resultSet resultSet' : list (ptr QueryItem)) (i : nat) :
  (forall k, (i <= k < i + length columns)%nat -> resultSet !! k = resultSet' !! k) ->
  (forall c, c ∈ columns -> originRow !! GetAliasName c = originRow' !! GetAliasName c) ->
  checkRow_from i originRow columns resultSet =
  checkRow_from i originRow' columns resultSet'.
Proof.
  revert i. induction columns as [|c columns IH]; intros i Hcells Hpivot; [reflexivity|].
  simpl in Hcells |- *.
  rewrite <- (Hcells i ltac:(lia)), <- (Hpivot c ltac:(left)).
  rewrite (IH (S i)); [reflexivity| |].
  - intros k Hk. apply Hcells. lia.
  - intros c' Hc'. apply Hpivot. right. exact Hc'.
Qed.

(** X3. [checkRow] reads the cells at the column positions and the pivot
    items under the aliases of the columns, and nothing else: two rows that
    agree there, with two pivot rows that agree there, get the same outcome.
    So cells beyond [len(columns)] never matter. *)
Theorem checkRow_reads (originRow originRow' : gmap string QueryItem)
    (columns : list Column) (resultSet resultSet' : list (ptr QueryItem)) :
  (forall k, (k < length columns)%nat -> resultSet !! k = resultSet' !! k) ->
  (forall c, c ∈ columns -> originRow !! GetAliasName c = originRow' !! GetAliasName c) ->
  checkRow originRow columns resultSet = checkRow originRow' columns resultSet' /\
  checkRow originRow columns (take (length columns) resultSet) =
  checkRow originRow columns resultSet.
Proof.
  intros Hcells Hpivot. unfold checkRow. split.
  - apply checkRow_from_reads; [|exact Hpivot].
    intros k Hk. apply Hcells. lia.
  - apply checkRow_from_reads; [|reflexivity].
    intros k Hk. apply lookup_take_lt. lia.
Qed.

End CheckRowOutcome.

(** X2 on a row that is too short after a first cell that agrees. *)
Lemma checkRow_outcome_witness :
  @checkRow asciiLib {["a" := exampleItem "a" "1"]}
    [exampleColumn "t" "a"; exampleColumn "t" "b"]
    [Some (exampleItem "a" "1")] = Panic index_out_of_range.
Proof.
  apply (proj1 (proj2 (proj2 (@checkRow_outcome asciiLib _ _ _)))).
  exists 1%nat, (exampleColumn "t" "b"). split; [reflexivity|]. split.
  - intros [|k'] c' Hk Hc'; [|lia]. injection Hc' as <-.
    exists (Some (exampleItem "a" "1")). split; reflexivity.
  - left. split; reflexivity.
Defined.

(** X3 on a row with a cell more than there are columns. *)
Lemma checkRow_reads_witness :
  @checkRow asciiLib {["a" := exampleItem "a" "1"]} [exampleColumn "t" "a"]
    [Some (exampleItem "a" "1"); None] =
  @checkRow asciiLib {["a" := exampleItem "a" "1"; "z" := exampleItem "z" "9"]}
    [exampleColumn "t" "a"] [Some (exampleItem "a" "1")].
Proof.
  apply (@checkRow_reads asciiLib).
  - intros [|k] Hk; [reflexivity|simpl in Hk; lia].
  - intros c Hc. apply list_elem_of_singleton in Hc as ->. reflexivity.
Defined.

Section VerifyMore.
Context `{GoLib}.

Lemma checkRow_no_exit (originRow : gmap string QueryItem) (columns : list Column)
    (resultSet : list (ptr QueryItem)) (why : string) :
  checkRow originRow columns resultSet <> Fatal why.
Proof.
  intros Hrun. pose proof (checkRow_cases originRow columns resultSet) as Hcases.
  rewrite Hrun in Hcases. exact Hcases.
Qed.

Lemma verifyPQS_skip (originRow : gmap string QueryItem) (columns : list Column)
    (pre rest : list (list (ptr QueryItem))) :
  (forall r, r ∈ pre -> checkRow originRow columns r = Ret false) ->
  verifyPQS originRow columns (pre ++ rest) = verifyPQS originRow columns rest.
Proof.
  induction pre as [|r pre IH]; intros Hpre; [reflexivity|].
  simpl. rewrite (Hpre r ltac:(left)). apply IH.
  intros r' Hr'. apply Hpre. right. exact Hr'.
Qed.

Lemma verifyPQS_first (originRow : gmap string QueryItem) (columns : list Column)
    (resultSets : list (list (ptr QueryItem))) :
  (verifyPQS originRow columns resultSets = Ret false /\
   forall r, r ∈ resultSets -> checkRow originRow columns r = Ret false) \/
  exists pre row post,
    resultSets = pre ++ row :: post /\
    (forall r, r ∈ pre -> checkRow originRow columns r = Ret false) /\
    checkRow originRow columns row <> Ret false /\
    verifyPQS originRow columns resultSets = checkRow originRow columns row.
Proof.
  induction resultSets as [|row resultSets IH].
  - left. split; [reflexivity|]. intros r Hr. inversion Hr.
  - destruct (checkRow originRow columns row) as [[|]|why|why] eqn:Hrow.
    2:{ destruct IH as [[Hv Hall]|(pre & row' & post & -> & Hpre & Hne & Hv)].
        - left. simpl. rewrite Hrow. split; [exact Hv|].
          intros r Hr. apply elem_of_cons in Hr as [->|Hr]; [exact Hrow|apply Hall, Hr].
        - right. exists (row :: pre), row', post. split; [reflexivity|]. split.
          + intros r Hr. apply elem_of_cons in Hr as [->|Hr]; [exact Hrow|apply Hpre, Hr].
          + split; [exact Hne|]. simpl. rewrite Hrow. exact Hv. }
    all: right; exists [], row, resultSets; split; [reflexivity|];
      (split; [intros r Hr; inversion Hr|]); rewrite Hrow; (split; [discriminate|]);
      simpl; rewrite Hrow; reflexivity.
Qed.

(** X4. The outcome of [verifyPQS], with no precondition: it answers (or
    panics) as [checkRow] does on the first row on which [checkRow] does not
    answer false, and never looks at the rows after it; it answers false
    exactly when [checkRow] answers false on every row, in particular on an
    empty result set; it never exits. *)
Theorem verifyPQS_outcome (originRow : gmap string QueryItem) (columns : list Column)
    (resultSets : list (list (ptr QueryItem))) :
  (verifyPQS originRow columns resultSets = Ret true <->
   exists pre row post,
     resultSets = pre ++ row :: post /\
     (forall r, r ∈ pre -> checkRow originRow columns r = Ret false) /\
     checkRow originRow columns row = Ret true) /\
  (verifyPQS originRow columns resultSets = Ret false <->
   forall r, r ∈ resultSets -> checkRow originRow columns r = Ret false) /\
  (forall why,
      verifyPQS originRow columns resultSets = Panic why <->
      exists pre row post,
        resultSets = pre ++ row :: post /\
        (forall r, r ∈ pre -> checkRow originRow columns r = Ret false) /\
        checkRow originRow columns row = Panic why) /\
  (forall why, verifyPQS originRow columns resultSets <> Fatal why).
Proof.
  assert (forall pre row post,
             resultSets = pre ++ row :: post ->
             (forall r, r ∈ pre -> checkRow originRow columns r = Ret false) ->
             checkRow originRow columns row <> Ret false ->
             verifyPQS originRow columns resultSets = checkRow originRow columns row)
    as Hstop.
  { intros pre row post -> Hpre Hne. rewrite (verifyPQS_skip _ _ _ _ Hpre). simpl.
    destruct (checkRow originRow columns row) as [[|]|why|why]; try reflexivity.
    contradiction. }
  split; [|split; [|split]].
  - split.
    + intros Hv. destruct (verifyPQS_first originRow columns resultSets)
        as [[Hf _]|(pre & row & post & Heq & Hpre & Hne & Hrow)]; [congruence|].
      exists pre, row, post. split; [exact Heq|]. split; [exact Hpre|]. congruence.
    + intros (pre & row & post & Heq & Hpre & Hrow).
      rewrite (Hstop pre row post Heq Hpre); [exact Hrow|]. rewrite Hrow. discriminate.
  - split.
    + intros Hv. destruct (verifyPQS_first originRow columns resultSets)
        as [[_ Hall]|(pre & row & post & Heq & Hpre & Hne & Hrow)]; [exact Hall|].
      congruence.
    + intros Hall. rewrite <- (app_nil_r resultSets).
      rewrite (verifyPQS_skip _ _ _ _ Hall). reflexivity.
  - intros why. split.
    + intros Hv. destruct (verifyPQS_first originRow columns resultSets)
        as [[Hf _]|(pre & row & post & Heq & Hpre & Hne & Hrow)]; [congruence|].
      exists pre, row, post. split; [exact Heq|]. split; [exact Hpre|]. congruence.
    + intros (pre & row & post & Heq & Hpre & Hrow).
      rewrite (Hstop pre row post Heq Hpre); [exact Hrow|]. rewrite Hrow. discriminate.
  - intros why Hv. destruct (verifyPQS_first originRow columns resultSets)
      as [[Hf _]|(pre & row & post & Heq & Hpre & Hne & Hrow)]; [congruence|].
    rewrite Hv in Hrow. symmetry in Hrow.
    exact (checkRow_no_exit originRow columns row why Hrow).
Qed.

Lemma verifyPQS_defined (originRow : gmap string QueryItem) (columns : list Column)
    (resultSets : list (list (ptr QueryItem))) :
  (forall r, r ∈ resultSets -> exists b, checkRow originRow columns r = Ret b) ->
  exists b,
    verifyPQS originRow columns resultSets = Ret b /\
    (b = true <-> exists r, r ∈ resultSets /\ checkRow originRow columns r = Ret true).
Proof.
  induction resultSets as [|row resultSets IH]; intros Hall.
  - exists false. split; [reflexivity|]. split; [discriminate|].
    intros (r & Hr & _). inversion Hr.
  - simpl. destruct (Hall row ltac:(left)) as [[|] Hrow]; rewrite Hrow.
    + exists true. split; [reflexivity|]. split; [|reflexivity].
      intros _. exists row. split; [left|exact Hrow].
    + destruct IH as (b & Hb & Hiff).
      { intros r Hr. apply Hall. right. exact Hr. }
      exists b. split; [exact Hb|]. rewrite Hiff. split.
      * intros (r & Hr & Ht). exists r. split; [right; exact Hr|exact Ht].
      * intros (r & Hr & Ht). apply elem_of_cons in Hr as [->|Hr]; [congruence|].
        exists r. split; assumption.
Qed.

(** X5. Adding rows after a result set that contains the pivot row keeps the
    answer true. When [checkRow] is defined on every row, the answer of
    [verifyPQS] does not depend on the order of the rows. *)
Theorem verifyPQS_order (originRow : gmap string QueryItem) (columns : list Column)
    (resultSets : list (list (ptr QueryItem))) :
  (forall more,
      verifyPQS originRow columns resultSets = Ret true ->
      verifyPQS originRow columns (resultSets ++ more) = Ret true) /\
  (forall resultSets',
      (forall r, r ∈ resultSets -> exists b, checkRow originRow columns r = Ret b) ->
      resultSets ≡ₚ resultSets' ->
      verifyPQS originRow columns resultSets = verifyPQS originRow columns resultSets').
Proof.
  split.
  - intros more Hv. revert Hv.
    induction resultSets as [|row resultSets IH]; simpl; [discriminate|].
    destruct (checkRow originRow columns row) as [[|]|why|why]; auto.
  - intros resultSets' Hall Hperm.
    destruct (verifyPQS_defined _ _ _ Hall) as (b & -> & Hb).
    destruct (verifyPQS_defined originRow columns resultSets') as (b' & -> & Hb').
    { intros r Hr. apply Hall. rewrite Hperm. exact Hr. }
    f_equal. destruct b, b'; try reflexivity.
    + destruct (proj1 Hb eq_refl) as (r & Hr & Ht).
      symmetry. apply Hb'. exists r. split; [rewrite <- Hperm; exact Hr|exact Ht].
    + destruct (proj1 Hb' eq_refl) as (r & Hr & Ht).
      apply Hb. exists r. split; [rewrite Hperm; exact Hr|exact Ht].
Qed.

End VerifyMore.

(** X4 on a result set whose second row is the pivot row and whose third
    row has a [nil] cell that is never read. *)
Lemma verifyPQS_outcome_witness :
  @verifyPQS asciiLib {["a" := exampleItem "a" "1"]} [exampleColumn "t" "a"]
    [[Some (exampleItem "a" "2")]; [Some (exampleItem "a" "1")]; [None]] = Ret true.
Proof.
  apply (proj1 (@verifyPQS_outcome asciiLib _ _ _)).
  exists [[Some (exampleItem "a" "2")]], [Some (exampleItem "a" "1")], [[None]].
  split; [reflexivity|]. split; [|reflexivity].
  intros r Hr. apply list_elem_of_singleton in Hr as ->. reflexivity.
Defined.

(** X5 on two rows in either order. *)
Lemma verifyPQS_order_witness :
  @verifyPQS asciiLib {["a" := exampleItem "a" "1"]} [exampleColumn "t" "a"]
    [[Some (exampleItem "a" "2")]; [Some (exampleItem "a" "1")]] =
  @verifyPQS asciiLib {["a" := exampleItem "a" "1"]} [exampleColumn "t" "a"]
    [[Some (exampleItem "a" "1")]; [Some (exampleItem "a" "2")]].
Proof.
  apply (proj2 (@verifyPQS_order asciiLib _ _ _)).
  - intros r Hr. apply elem_of_cons in Hr as [->|Hr]; [eexists; reflexivity|].
    apply list_elem_of_singleton in Hr as ->. eexists. reflexivity.
  - apply Permutation_swap.
Defined.

(** * More of the schema cache *)

Section CacheMore.
Context `{GoLib}.

Lemma loadSchema_snoc db records r indexes :
  loadSchema db (records ++ [r]) indexes =
  loadRecord db indexes (loadSchema db records indexes) r.
Proof. unfold loadSchema. rewrite fold_left_app. reflexivity. Qed.

Lemma loadRecord_other_db db indexes tables r :
  dbname r <> db -> loadRecord db indexes tables r = tables.
Proof.
  intros Hne. unfold loadRecord.
  destruct (String.eqb_spec (dbname r) db); [contradiction|reflexivity].
Qed.

Lemma loadRecord_lookup_ne db indexes tables r name :
  tableName r <> name -> loadRecord db indexes tables r !! name = tables !! name.
Proof.
  intros Hne. unfold loadRecord.
  destruct (negb (String.eqb (dbname r) db)); [reflexivity|].
  apply lookup_insert_ne. exact Hne.
Qed.

(** The table that a record of the target database leaves under its name. *)
Lemma loadRecord_lookup_eq db indexes tables r :
  dbname r = db ->
  exists t',
    loadRecord db indexes tables r !! tableName r = Some t' /\
    match tables !! tableName r with
    | Some t =>
        Table.Name t' = Table.Name t /\ Table.Indexes t' = Table.Indexes t /\
        Table.Type_ t' = Table.Type_ t /\
        ((exists updated,
             updateColumn (Table.Columns t) (columnName r) (columnType r) (columnNull r)
             = Some updated /\ Table.Columns t' = updated) \/
         (updateColumn (Table.Columns t) (columnName r) (columnType r) (columnNull r) = None /\
          Table.Columns t' =
            Table.Columns t ++
            [newColumn (tableName r) (columnName r) (columnType r) (columnNull r)]))
    | None =>
        t' = {| Table.Name := tableName r;
                Table.Columns :=
                  [newColumn (tableName r) (columnName r) (columnType r) (columnNull r)];
                Table.Indexes := default [] (indexes !! tableName r);
                Table.Type_ := tableType r |}
    end.
Proof.
  intros Hdb. unfold loadRecord.
  destruct (String.eqb_spec (dbname r) db); [|contradiction]. simpl.
  eexists. split; [apply lookup_insert_eq|].
  destruct (tables !! tableName r) as [t|]; [|reflexivity]. simpl.
  repeat (split; [reflexivity|]).
  destruct (updateColumn (Table.Columns t) (columnName r) (columnType r) (columnNull r));
    [left; eexists; split; reflexivity|right; split; reflexivity].
Qed.

Lemma updateColumn_fields columns columnName columnType columnNull updated :
  updateColumn columns columnName columnType columnNull = Some updated ->
  map Column.Table updated = map Column.Table columns /\
  length updated = length columns /\
  exists c, c ∈ updated /\ EqString (Column.Name c) columnName = true /\
            Column.Type_ c = columnType /\ Column.Null c = EqualFold columnNull "Yes".
Proof.
  revert updated. induction columns as [|c columns IH]; intros updated Hup; simpl in Hup.
  - discriminate.
  - destruct (EqString (Column.Name c) columnName) eqn:Heq.
    + injection Hup as <-. split; [reflexivity|]. split; [reflexivity|].
      eexists. split; [left|]. simpl. split; [exact Heq|]. split; reflexivity.
    + destruct (updateColumn columns columnName columnType columnNull) as [u|];
        [|discriminate].
      injection Hup as <-. destruct (IH u eq_refl) as (Ht & Hl & c' & Hc' & Hrest).
      simpl. rewrite Ht, Hl. split; [reflexivity|]. split; [reflexivity|].
      exists c'. split; [right; exact Hc'|exact Hrest].
Qed.

Lemma loadSchema_filter (db : string) (records : list record)
    (indexes : gmap string (list CIStr)) :
  loadSchema db records indexes =
    loadSchema db (filter (fun r => dbname r = db) records) indexes.
Proof.
  induction records as [|r records IH] using rev_ind; [reflexivity|].
  rewrite filter_app, loadSchema_snoc, IH. rewrite filter_cons, filter_nil.
  destruct (decide (dbname r = db)) as [Hdb|Hdb].
  - rewrite loadSchema_snoc. reflexivity.
  - rewrite app_nil_r. apply loadRecord_other_db, Hdb.
Qed.

Lemma loadRecord_lookup_unrelated db indexes tables r name :
  ~ (dbname r = db /\ tableName r = name) ->
  loadRecord db indexes tables r !! name = tables !! name.
Proof.
  intros Hno. destruct (decide (dbname r = db)) as [Hdb|Hdb].
  - apply loadRecord_lookup_ne. intros Hname. apply Hno. auto.
  - rewrite loadRecord_other_db by exact Hdb. reflexivity.
Qed.

Lemma loadSchema_keys (db : string) (records : list record)
    (indexes : gmap string (list CIStr)) (name : string) :
  is_Some (loadSchema db records indexes !! name) <->
  exists r, r ∈ records /\ dbname r = db /\ tableName r = name.
Proof.
  revert name. induction records as [|r records IH] using rev_ind; intros name.
  - unfold loadSchema. simpl. rewrite lookup_empty. split.
    + intros [x Hx]. discriminate.
    + intros (r & Hr & _). inversion Hr.
  - rewrite loadSchema_snoc.
    destruct (decide (dbname r = db /\ tableName r = name)) as [[Hdb Hname]|Hno].
    + split.
      * intros _. exists r. split; [apply elem_of_app; right; left|auto].
      * intros _. destruct (loadRecord_lookup_eq db indexes
                              (loadSchema db records indexes) r Hdb) as (t' & Ht' & _).
        rewrite <- Hname, Ht'. eexists. reflexivity.
    + rewrite (loadRecord_lookup_unrelated _ _ _ _ _ Hno), IH. split.
      * intros (r' & Hr' & Hrest). exists r'.
        split; [apply elem_of_app; left; exact Hr'|exact Hrest].
      * intros (r' & Hr' & Hdb' & Hname').
        apply elem_of_app in Hr' as [Hr'|Hr'].
        -- exists r'. auto.
        -- apply list_elem_of_singleton in Hr' as ->. destruct Hno. auto.
Qed.

(** X6. [loadSchema] skips the records of other databases, and the keys of
    the cache are exactly the table names of the records of the target
    database. *)
Theorem loadSchema_database (db : string) (records : list record)
    (indexes : gmap string (list CIStr)) :
  loadSchema db records indexes =
    loadSchema db (filter (fun r => dbname r = db) records) indexes /\
  forall name,
    is_Some (loadSchema db records indexes !! name) <->
    exists r, r ∈ records /\ dbname r = db /\ tableName r = name.
Proof.
  split; [apply loadSchema_filter|apply loadSchema_keys].
Qed.

(** X7. Every table of the cache carries its key as its name, has at least
    one column and at most one per record of the table, has the key as the
    owning table of each column, has the indexes that were fetched under its
    name (none if none were), and has the table type of the first record of
    the table: later records do not change it. *)
Theorem loadSchema_tables (db : string) (records : list record)
    (indexes : gmap string (list CIStr)) (name : string) (t : Table) :
  loadSchema db records indexes !! name = Some t ->
  Table.Name t = name /\
  Table.Columns t <> [] /\
  (forall c, c ∈ Table.Columns t -> Column.Table c = name) /\
  Table.Indexes t = default [] (indexes !! name) /\
  (length (Table.Columns t) <=
   length (filter (fun r => dbname r = db /\ tableName r = name) records))%nat /\
  exists pre r post,
    records = pre ++ r :: post /\ dbname r = db /\ tableName r = name /\
    (forall r', r' ∈ pre -> ~ (dbname r' = db /\ tableName r' = name)) /\
    Table.Type_ t = tableType r.
Proof.
  revert t. induction records as [|r records IH] using rev_ind; intros t Hlook.
  { unfold loadSchema in Hlook. simpl in Hlook. rewrite lookup_empty in Hlook. discriminate. }
  rewrite loadSchema_snoc in Hlook. rewrite filter_app, length_app.
  destruct (decide (dbname r = db /\ tableName r = name)) as [[Hdb Hname]|Hno].
  - rewrite filter_cons, decide_True by auto. simpl.
    destruct (loadRecord_lookup_eq db indexes (loadSchema db records indexes) r Hdb)
      as (t' & Ht' & Hrel).
    rewrite Hname in Ht', Hrel. rewrite Ht' in Hlook. injection Hlook as <-.
    destruct (loadSchema db records indexes !! name) as [t0|] eqn:Hold.
    + destruct (IH t0 eq_refl) as (Hn & Hne & Htab & Hidx & Hlen & pre & r0 & post & Hrec & Hfirst).
      destruct Hrel as (HN & HI & HT & Hcols).
      split; [congruence|].
      assert (Table.Columns t' <> [] /\
              (forall c, c ∈ Table.Columns t' -> Column.Table c = name) /\
              (length (Table.Columns t') <= S (length (Table.Columns t0)))%nat)
        as (Hne' & Htab' & Hlen').
      { destruct Hcols as [(updated & Hup & ->)|[_ ->]].
        - destruct (updateColumn_fields _ _ _ _ _ Hup) as (Htabs & Hl & _).
          split; [|split; [|lia]].
          + intros ->. destruct (Table.Columns t0); [contradiction|discriminate].
          + intros c Hc. apply list_elem_of_lookup in Hc as [i Hi].
            assert (map Column.Table updated !! i = Some (Column.Table c)) as Hm.
            { change (map Column.Table updated) with (Column.Table <$> updated).
              rewrite list_lookup_fmap, Hi. reflexivity. }
            rewrite Htabs in Hm.
            change (map Column.Table (Table.Columns t0))
              with (Column.Table <$> Table.Columns t0) in Hm.
            rewrite list_lookup_fmap in Hm.
            destruct (Table.Columns t0 !! i) as [c0|] eqn:Hc0; [|discriminate].
            injection Hm as <-. apply Htab, list_elem_of_lookup. exists i. exact Hc0.
        - split; [|split].
          + intros Happ. apply app_eq_nil in Happ as [_ Happ]. discriminate.
          + intros c Hc. apply elem_of_app in Hc as [Hc|Hc]; [apply Htab, Hc|].
            apply list_elem_of_singleton in Hc as ->. reflexivity.
          + rewrite length_app. simpl. lia. }
      split; [exact Hne'|]. split; [exact Htab'|]. split; [congruence|].
      split; [lia|].
      exists pre, r0, (post ++ [r]). rewrite Hrec, <- app_assoc. split; [reflexivity|].
      destruct Hfirst as (H1 & H2 & H3 & H4). repeat (split; [assumption|]). congruence.
    + subst t'. simpl. split; [reflexivity|]. split; [discriminate|]. split; [|split; [|split]].
      * intros c Hc. apply list_elem_of_singleton in Hc as ->. reflexivity.
      * reflexivity.
      * lia.
      * exists records, r, []. split; [reflexivity|]. split; [exact Hdb|].
        split; [exact Hname|]. split; [|reflexivity].
        intros r' Hr' [Hdb' Hname'].
        assert (is_Some (loadSchema db records indexes !! name)) as [x Hx].
        { apply loadSchema_keys. exists r'. auto. }
        congruence.
  - rewrite (loadRecord_lookup_unrelated _ _ _ _ _ Hno) in Hlook.
    destruct (IH t Hlook) as (Hn & Hne & Htab & Hidx & Hlen & pre & r0 & post & Hrec & Hfirst).
    split; [exact Hn|]. split; [exact Hne|]. split; [exact Htab|]. split; [exact Hidx|].
    split; [lia|].
    exists pre, r0, (post ++ [r]). rewrite Hrec, <- app_assoc. split; [reflexivity|exact Hfirst].
Qed.




End CacheMore.

(** X7 on two records of one table: the table keeps the type of the
    first. *)
Lemma loadSchema_tables_witness :
  Table.Type_ (Table.mk "t1" [exampleColumn "t1" "a"; exampleColumn "t1" "b"] [] "BASE TABLE")
  = "BASE TABLE" /\
  (length [exampleColumn "t1" "a"; exampleColumn "t1" "b"] <= 2)%nat.
Proof.
  destruct (@loadSchema_tables asciiLib "test"
              [mkRecord "test" "t1" "BASE TABLE" "a" "int" "NO";
               mkRecord "test" "t1" "VIEW" "b" "int" "NO"] ∅ "t1"
              (Table.mk "t1" [exampleColumn "t1" "a"; exampleColumn "t1" "b"] [] "BASE TABLE"))
    as (_ & _ & _ & _ & Hlen & _).
  - vm_compute. reflexivity.
  - split; [reflexivity|exact Hlen].
Defined.


Section ReloadMore.
Context `{GoLib} `{Externals}.
Variable conf : Config.

Lemma inside_fetchIndexes schema indexes :
  preserves inside (fetchIndexes conf schema indexes).
Proof.
  revert indexes. induction schema as [|col schema IH]; intros indexes; simpl; frame.
Qed.

(** X9. [reloadSchema] is all or nothing. When it returns an error (the
    schema or the indexes of a table could not be fetched) the cache and the
    rest of the state are as before; when it returns no error the cache is
    the one that [loadSchema] builds from the fetched schema, and nothing
    else in the state has changed. It never panics. *)
Theorem reloadSchema_all_or_nothing (s : State) :
  exists err s',
    reloadSchema conf s = (Ret err, s') /\
    match err with
    | Some _ => inside s' = inside s
    | None =>
        exists schema w indexes,
          conn_FetchSchema (DBName conf) (world s) = (inl schema, w) /\
          e_tables s' = loadSchema (DBName conf) schema indexes /\
          Tables s' = Tables s /\ counters s' = counters s /\
          rng s' = rng s /\ trace s' = trace s
    end.
Proof.
  unfold reloadSchema, bind, call.
  destruct (conn_FetchSchema (DBName conf) (world s)) as [[schema|err] w] eqn:Hfetch.
  - match goal with |- context [fetchIndexes _ _ _ ?s1] => set (s1' := s1) end.
    destruct (fetchIndexes_returns conf schema ∅ s1') as (res & s2 & Hidx).
    pose proof (inside_fetchIndexes schema ∅ _ _ _ Hidx) as Hin.
    rewrite Hidx.
    unfold inside, s1' in Hin. simpl in Hin. injection Hin as HT Hb Hr He Hg Htr.
    destruct res as [indexes|err].
    + eexists None, _. split; [reflexivity|].
      exists schema, w, indexes. split; [reflexivity|]. unfold counters. simpl.
      split; [reflexivity|]. split; [exact HT|]. split; [congruence|].
      split; assumption.
    + eexists (Some err), _. split; [reflexivity|]. unfold inside. congruence.
  - eexists (Some err), _. split; [reflexivity|]. reflexivity.
Qed.

Lemma loadTables_from (tables : list string) (w : W) :
  exists res new w',
    (Table.Name <$> new) `prefix_of` tables /\
    (res = Ret tt -> Table.Name <$> new = tables) /\
    (forall why, res <> Fatal why) /\
    (forall t c, t ∈ new -> c ∈ Table.Columns t -> Column.Table c = Table.Name t) /\
    forall s, world s = w ->
      loadTables conf tables s =
      (res, mkState _ (Tables s ++ new) (batch s) (roundInBatch s) (e_tables s) (rng s)
              w' (trace s)).
Proof.
  revert w. induction tables as [|i tables IH]; intros w.
  - exists (Ret tt), [], w. split; [reflexivity|]. split; [reflexivity|].
    split; [discriminate|]. split; [intros t c Ht; inversion Ht|].
    intros s <-. simpl. rewrite app_nil_r. destruct s. reflexivity.
  - simpl.
    destruct (conn_FetchColumns (DBName conf) i w) as [[columns|err] w1] eqn:Hcols.
    + destruct (conn_FetchIndexes (DBName conf) i w1) as [[idx|err] w2] eqn:Hidx.
      * destruct (IH w2) as (res & new & w' & Hpre & Hall & Hex & Htab & Hrun).
        exists res,
          ({| Table.Name := i; Table.Columns := map (loadColumn i) columns;
              Table.Indexes := idx; Table.Type_ := "" |} :: new), w'.
        split; [rewrite fmap_cons; apply prefix_cons, Hpre|].
        split; [intros Hres; rewrite fmap_cons, (Hall Hres); reflexivity|].
        split; [exact Hex|]. split.
        -- intros t c Ht Hc. apply elem_of_cons in Ht as [->|Ht]; [|exact (Htab t c Ht Hc)].
           simpl in Hc |- *. apply list_elem_of_In, in_map_iff in Hc as ([[c0 c1] c2] & <- & _).
           reflexivity.
        -- intros s Hw. unfold bind at 1, call at 1. rewrite Hw, Hcols.
           unfold bind at 1, call at 1. simpl. rewrite Hidx.
           unfold bind at 1, get at 1. unfold bind at 1, set_Tables at 1. simpl.
           rewrite Hrun by reflexivity. simpl. rewrite <- app_assoc. reflexivity.
      * exists (Panic err), [], w2.
        split; [apply prefix_nil|]. split; [discriminate|]. split; [discriminate|].
        split; [intros t c Ht; inversion Ht|].
        intros s Hw. unfold bind at 1, call at 1. rewrite Hw, Hcols.
        unfold bind at 1, call at 1. simpl. rewrite Hidx. rewrite app_nil_r. reflexivity.
    + exists (Panic err), [], w1.
      split; [apply prefix_nil|]. split; [discriminate|]. split; [discriminate|].
      split; [intros t c Ht; inversion Ht|].
      intros s Hw. unfold bind at 1, call at 1. rewrite Hw, Hcols.
      rewrite app_nil_r. reflexivity.
Qed.

(** X10. [LoadSchema] rebuilds [p.Tables] from the connection alone: what it
    leaves in [p.Tables], and how it ends, do not depend on the tables that
    were there before, and the executor's cache and the counters are not
    touched. If the table names cannot be fetched it panics with [p.Tables]
    empty; otherwise [p.Tables] holds, in the order fetched, the tables
    loaded before the first failure (all of them when it returns), and every
    column carries the name of its table. *)
Theorem LoadSchema_rebuilds (s : State) :
  exists res s',
    LoadSchema conf s = (res, s') /\
    e_tables s' = e_tables s /\ counters s' = counters s /\
    (forall ts draws, exists s2,
        LoadSchema conf (reshuffled s ts draws) = (res, s2) /\
        Tables s2 = Tables s' /\ world s2 = world s') /\
    (forall t c, t ∈ Tables s' -> c ∈ Table.Columns t -> Column.Table c = Table.Name t) /\
    match conn_FetchTables (DBName conf) (world s) with
    | (inr err, _) => res = Panic err /\ Tables s' = []
    | (inl names, _) =>
        (Table.Name <$> Tables s') `prefix_of` names /\
        (res = Ret tt -> Table.Name <$> Tables s' = names) /\
        (res = Ret tt \/ exists why, res = Panic why)
    end.
Proof.
  unfold LoadSchema. unfold bind at 1, emit at 1. unfold bind at 1, set_Tables at 1.
  unfold bind at 1, call at 1. simpl.
  destruct (conn_FetchTables (DBName conf) (world s)) as [[names|err] w] eqn:Hfetch.
  - destruct (loadTables_from names w) as (res & new & w' & Hpre & Hall & Hex & Htab & Hrun).
    rewrite Hrun by reflexivity. simpl.
    eexists res, _. split; [reflexivity|]. simpl.
    split; [reflexivity|]. split; [reflexivity|]. split; [|split; [exact Htab|]].
    + intros ts draws. eexists. unfold bind at 1, emit at 1.
      unfold bind at 1, set_Tables at 1. unfold bind at 1, call at 1. simpl.
      rewrite Hfetch. rewrite Hrun by reflexivity. simpl.
      split; [reflexivity|]. split; reflexivity.
    + split; [exact Hpre|]. split; [exact Hall|].
      destruct res as [[]|why|why]; [left; reflexivity|right; eexists; reflexivity|].
      destruct (Hex why eq_refl).
  - eexists (Panic err), _. split; [reflexivity|]. simpl.
    split; [reflexivity|]. split; [reflexivity|]. split; [|split].
    + intros ts draws. eexists. unfold bind at 1, emit at 1.
      unfold bind at 1, set_Tables at 1. unfold bind at 1, call at 1. simpl.
      rewrite Hfetch. split; [reflexivity|]. split; reflexivity.
    + intros t c Ht. inversion Ht.
    + split; reflexivity.
Qed.

End ReloadMore.

(** * More of a round *)

Section TxnMore.
Context `{GoLib} `{Externals}.
Variable conf : Config.

(** X11. [withTxn] with an explicit transaction. When [Begin] fails the
    action is not run and the error of [Begin] is returned. When [Begin]
    succeeds the action runs; if it returns or panics, one [Commit] follows
    and the outcome is that of the action whether the commit succeeds or
    not; if the action exits the process, nothing is committed. *)
Theorem withTxn_explicit (action : M (option error)) (s : State) :
  (forall e w,
      conn_Begin (world s) = (Some e, w) ->
      withTxn true action s =
      (Ret (Some e),
       mkState _ (Tables s) (batch s) (roundInBatch s) (e_tables s) (rng s) w
         ((trace s ++ [EBegin (Some e)]) ++ [ELog "error" "begin txn failed"]))) /\
  (forall w res s2,
      conn_Begin (world s) = (None, w) ->
      action (mkState _ (Tables s) (batch s) (roundInBatch s) (e_tables s) (rng s) w
                ((trace s ++ [EBegin None]) ++ [ELog "debug" "begin txn success"]))
      = (res, s2) ->
      match res with
      | Fatal why => withTxn true action s = (Fatal why, s2)
      | _ =>
          exists err s',
            withTxn true action s = (res, s') /\
            conn_Commit (world s2) = (err, world s') /\
            calls (trace s') = calls (trace s2) ++ [ECommit err] /\
            Tables s' = Tables s2 /\ e_tables s' = e_tables s2 /\
            counters s' = counters s2
      end).
Proof.
  split.
  - intros e w Hbegin. unfold withTxn, bind, call, emit, log, ret. rewrite Hbegin.
    reflexivity.
  - intros w res s2 Hbegin Haction.
    assert (withTxn true action s =
            defer commitTxn action
              (mkState _ (Tables s) (batch s) (roundInBatch s) (e_tables s) (rng s) w
                 ((trace s ++ [EBegin None]) ++ [ELog "debug" "begin txn success"])))
      as ->.
    { unfold withTxn, bind, call, emit, log. rewrite Hbegin. reflexivity. }
    unfold defer. rewrite Haction.
    assert (exists err s',
               commitTxn s2 = (Ret tt, s') /\ conn_Commit (world s2) = (err, world s') /\
               calls (trace s') = calls (trace s2) ++ [ECommit err] /\
               Tables s' = Tables s2 /\ e_tables s' = e_tables s2 /\
               counters s' = counters s2) as (err & s' & Hcommit & Hrest).
    { unfold commitTxn, bind, call, emit, log.
      destruct (conn_Commit (world s2)) as [[e|] w'];
        eexists _, _; (split; [reflexivity|]); simpl;
        (split; [reflexivity|]); rewrite !calls_app; simpl; rewrite app_nil_r;
        repeat split. }
    destruct res as [r|why|why]; [| |reflexivity];
      rewrite Hcommit; exists err, s'; (split; [reflexivity|exact Hrest]).
Qed.

(** X12. A PQS round whose verification fails on a query that the known-bug
    filter recognises returns no error, prints nothing and does not panic,
    whatever [Silent] and the round are. A PQS round whose select fails
    returns the error of the select without verifying anything. *)
Theorem pqsAction_suppressed (selectAST : ptr SelectStmt) (selectSQL : string)
    (columns : list Column) (pivotRows : gmap string QueryItem) (s : State) :
  (forall rows w,
      conn_Select selectSQL (world s) = (inl rows, w) ->
      verifyPQS pivotRows columns rows = Ret false ->
      IsKnownBug selectAST pivotRows = true ->
      pqsAction conf selectAST selectSQL columns pivotRows s =
      (Ret None,
       mkState _ (Tables s) (batch s) (roundInBatch s) (e_tables s) (rng s) w
         ((trace s ++ [ELog "debug" "execSelect"]) ++ [ESelect selectSQL (inl rows)]))) /\
  (forall err w,
      conn_Select selectSQL (world s) = (inr err, w) ->
      pqsAction conf selectAST selectSQL columns pivotRows s =
      (Ret (Some err),
       mkState _ (Tables s) (batch s) (roundInBatch s) (e_tables s) (rng s) w
         (((trace s ++ [ELog "debug" "execSelect"]) ++ [ESelect selectSQL (inr err)])
          ++ [ELog "error" "execSelect failed"]))).
Proof.
  split.
  - intros rows w Hsel Hverify Hknown.
    rewrite (pqsAction_verified conf _ _ _ _ _ _ _ _ Hsel Hverify).
    change (negb false) with true. cbv iota. unfold reportMismatch. rewrite Hknown.
    reflexivity.
  - intros err w Hsel. unfold pqsAction. unfold bind at 1.
    destruct (execSelect_run selectSQL s) as (res & w' & Hsel' & ->).
    rewrite Hsel in Hsel'. injection Hsel' as <- <-. reflexivity.
Qed.

End TxnMore.

(** X11 in the scripted world, where [Begin] succeeds: the select of the
    action is followed by the commit. *)
Lemma withTxn_explicit_witness :
  exists err s',
    @withTxn scripted true (@execSelect scripted "SELECT 1" ;; ret (None : option string))%go
      (exampleState [] [] 0 []) = (Ret None, s') /\
    calls (trace s') =
      calls (trace (snd ((@execSelect scripted "SELECT 1" ;; ret (None : option string))%go
          (mkState scripted [] 0 0 ∅ [] []
             [EBegin None; ELog "debug" "begin txn success"])))) ++ [ECommit err].
Proof.
  destruct (proj2 (@withTxn_explicit scripted
                     (@execSelect scripted "SELECT 1" ;; ret (None : option string))%go
                     (exampleState [] [] 0 []))
              [] (Ret None)
              (snd ((@execSelect scripted "SELECT 1" ;; ret (None : option string))%go
                      (mkState scripted [] 0 0 ∅ [] []
                         [EBegin None; ELog "debug" "begin txn success"]))))
    as (err & s' & Hrun & _ & Hcalls & _).
  - reflexivity.
  - reflexivity.
  - exists err, s'. split; [exact Hrun|exact Hcalls].
Defined.

Section NoRECMore.
Context `{GoLib} `{Externals}.
Variable conf : Config.

Lemma execNodes_run (nodesArr : list Node) (sqlInOneGroup : list string)
    (resultSet : list resultRows) (s : State) :
  exists res s',
    execNodes nodesArr sqlInOneGroup resultSet s = (Ret res, s') /\
    forall sqls sets, res = inl (sqls, sets) ->
      length sqls = (length sqlInOneGroup + length nodesArr)%nat /\
      length sets =
        (length resultSet + length (filter (fun n => (BufferOut n).2 = None) nodesArr))%nat.
Proof.
  revert sqlInOneGroup resultSet s.
  induction nodesArr as [|node nodesArr IH]; intros sqlInOneGroup resultSet s.
  - eexists _, _. split; [reflexivity|]. intros sqls sets [= <- <-]. simpl. lia.
  - simpl. rewrite filter_cons. destruct (BufferOut node) as [sql [e|]] eqn:Hbuf; simpl.
    + unfold bind at 1, log at 1, emit at 1.
      match goal with |- context [execNodes _ ?a ?b ?s1] =>
        destruct (IH a b s1) as (res & s' & Hrun & Hlen) end.
      exists res, s'. split; [exact Hrun|].
      intros sqls sets Hres. destruct (Hlen sqls sets Hres) as [H1 H2].
      rewrite length_app in H1. simpl in H1.
      try rewrite decide_False by discriminate. simpl in *. lia.
    + unfold bind at 1.
      destruct (execSelect_run sql s) as (r & w & _ & ->).
      unfold bind at 1, log at 1, emit at 1.
      destruct r as [rows|err].
      * match goal with |- context [execNodes _ ?a ?b ?s1] =>
          destruct (IH a b s1) as (res & s' & Hrun & Hlen) end.
        exists res, s'. split; [exact Hrun|].
        intros sqls sets Hres. destruct (Hlen sqls sets Hres) as [H1 H2].
        rewrite !length_app in H1, H2. simpl in H1, H2.
        try rewrite decide_True by reflexivity. simpl in *. lia.
      * eexists _, _. split; [reflexivity|]. intros sqls sets Hres. discriminate.
Qed.

(** X13. The check of the groups of a NoREC or TLP round never panics. It
    ends the run only by the fatal log [data verified failed], only when
    [Silent] is false, and only after some group of at least two statements
    was executed with result sets that [checkResultSet] rejects. With
    [Silent] true it always returns. *)
Theorem checkGroups_outcome (nodesGroup : list (list Node)) (s : State) :
  exists res s',
    checkGroups conf nodesGroup s = (res, s') /\
    ((exists r, res = Ret r) \/
     (res = Fatal "data verified failed" /\ Silent conf = false /\
      exists nodesArr s0 sqls sets s1,
        nodesArr ∈ nodesGroup /\ (2 <= length nodesArr)%nat /\
        execNodes nodesArr [] [] s0 = (Ret (inl (sqls, sets)), s1) /\
        checkResultSet sets true = false)).
Proof.
  revert s. induction nodesGroup as [|nodesArr nodesGroup IH]; intros s.
  - eexists _, _. split; [reflexivity|]. left. eexists. reflexivity.
  - assert (forall s1,
               exists res s',
                 checkGroups conf nodesGroup s1 = (res, s') /\
                 ((exists r, res = Ret r) \/
                  (res = Fatal "data verified failed" /\ Silent conf = false /\
                   exists nodesArr' s0 sqls sets s2,
                     nodesArr' ∈ nodesArr :: nodesGroup /\ (2 <= length nodesArr')%nat /\
                     execNodes nodesArr' [] [] s0 = (Ret (inl (sqls, sets)), s2) /\
                     checkResultSet sets true = false))) as IH'.
    { intros s1. destruct (IH s1) as (res & s' & Hrun & Hres).
      exists res, s'. split; [exact Hrun|].
      destruct Hres as [Hret|(Hf & Hs & g & s0 & sqls & sets & s2 & Hg & Hrest)];
        [left; exact Hret|right].
      split; [exact Hf|]. split; [exact Hs|].
      exists g, s0, sqls, sets, s2. split; [right; exact Hg|exact Hrest]. }
    simpl. destruct (Nat.ltb_spec (length nodesArr) 2) as [Hshort|Hlong].
    + unfold bind, log, emit. apply IH'.
    + unfold bind at 1.
      destruct (execNodes_run nodesArr [] [] s) as (res & s1 & Hrun & _). rewrite Hrun.
      destruct res as [[sqls sets]|err]; [|eexists _, _; split; [reflexivity|left; eexists; reflexivity]].
      destruct (checkResultSet sets true) eqn:Hcheck.
      * unfold bind, log, emit, ret. simpl. apply IH'.
      * destruct (Silent conf) eqn:Hsilent.
        -- unfold bind, log, emit, ret. simpl. apply IH'.
        -- eexists _, _. split; [reflexivity|]. right.
           split; [reflexivity|]. split; [reflexivity|].
           exists nodesArr, s, sqls, sets, s1. split; [left|]. split; [exact Hlong|].
           split; [exact Hrun|exact Hcheck].
Qed.

Lemma checkGroups_cons (nodesArr : list Node) (nodesGroup : list (list Node))
    (s s1 : State) (res : list string * list resultRows + error) :
  (2 <= length nodesArr)%nat ->
  execNodes nodesArr [] [] s = (Ret res, s1) ->
  checkGroups conf (nodesArr :: nodesGroup) s =
  match res with
  | inr err => (Ret (Some err), s1)
  | inl (_, sets) =>
      ((if negb (checkResultSet sets true) then
          log "error" "last round SQLs" ;;
          if negb (Silent conf) then log_Fatal "data verified failed" else ret tt
        else ret tt) ;;
       log "info" "check finished" ;;
       checkGroups conf nodesGroup)%go s1
  end.
Proof.
  intros Hlong Hrun. simpl.
  destruct (Nat.ltb_spec (length nodesArr) 2) as [Hshort|_]; [lia|].
  unfold bind at 1. rewrite Hrun. destruct res as [[sqls sets]|err]; reflexivity.
Qed.

(** X14. A group of which fewer than two statements can be restored to SQL
    is never reported: the restore errors are logged, the remaining
    statements are executed, and since fewer than two result sets are
    compared the check goes on with the next group (or returns the error of
    a failed select). *)
Theorem checkGroups_unrestorable (nodesArr : list Node) (nodesGroup : list (list Node))
    (s : State) :
  (length (filter (fun n => (BufferOut n).2 = None) nodesArr) < 2)%nat ->
  exists s1,
    checkGroups conf (nodesArr :: nodesGroup) s = checkGroups conf nodesGroup s1 \/
    exists err, checkGroups conf (nodesArr :: nodesGroup) s = (Ret (Some err), s1).
Proof.
  intros Hfew. destruct (Nat.ltb_spec (length nodesArr) 2) as [Hshort|Hlong].
  - eexists. left. simpl.
    destruct (Nat.ltb_spec (length nodesArr) 2) as [_|Hlong]; [|lia].
    unfold bind, log, emit. reflexivity.
  - destruct (execNodes_run nodesArr [] [] s) as (res & s1 & Hrun & Hlen).
    rewrite (checkGroups_cons _ nodesGroup _ _ _ Hlong Hrun).
    destruct res as [[sqls sets]|err]; [|exists s1; right; exists err; reflexivity].
    destruct (Hlen sqls sets eq_refl) as [_ Hsets]. simpl in Hsets.
    assert (checkResultSet sets true = true) as ->.
    { unfold checkResultSet. destruct (Nat.ltb_spec (length sets) 2); [reflexivity|lia]. }
    eexists. left. unfold bind, log, emit, ret. simpl. reflexivity.
Qed.

End NoRECMore.

(** X14 on a group of one statement. *)
Lemma checkGroups_unrestorable_witness :
  exists s1,
    @checkGroups scripted (exampleConf 0 false) [["SELECT 1"]]
      (exampleState [] [] 0 []) =
    @checkGroups scripted (exampleConf 0 false) [] s1 \/
    exists err,
      @checkGroups scripted (exampleConf 0 false) [["SELECT 1"]]
        (exampleState [] [] 0 []) = (Ret (Some err), s1).
Proof.
  apply (@checkGroups_unrestorable scripted). simpl. lia.
Defined.

Section TablesMore.
Context `{GoLib} `{Externals}.
Variable conf : Config.

Lemma randTables_empty (s : State) :
  Tables s = [] -> randTables s = (Panic slice_out_of_range, s).
Proof.
  intros Hts. destruct s as [ts b r c d w t]. simpl in Hts. subst ts. reflexivity.
Qed.

Lemma randTables_subset (s s' : State) (usedTables : list Table) :
  randTables s = (Ret usedTables, s') ->
  usedTables ⊆ Tables s /\ (NoDup (Tables s) -> NoDup usedTables).
Proof.
  intros Hrun.
  destruct (Nat.le_gt_cases 1 (length (Tables s))) as [Hlen|Hlen].
  - destruct (randTables_run s Hlen) as (used & ts & draws & Hrun' & _ & Hperm & Htake & _).
    rewrite Hrun' in Hrun. injection Hrun as <- _. rewrite Htake. split.
    + intros t Ht. rewrite <- Hperm. apply (subseteq_take (length used) ts). exact Ht.
    + intros Hnd. apply (sublist_NoDup _ ts); [|apply sublist_take]. rewrite Hperm. exact Hnd.
  - rewrite randTables_empty in Hrun by (destruct (Tables s); [reflexivity|simpl in Hlen; lia]).
    discriminate.
Qed.

(** X15. With no table loaded [randTables] panics (the slice [p.Tables[:1]]
    is out of range), and so do [ChoosePivotedRow] and [GenSelectStmt]; a
    round that has an approach to choose from then panics too. When
    [randTables] returns, the tables it returns are tables of [p.Tables],
    and pairwise distinct if those are. *)
Theorem randTables_edges (s : State) :
  (Tables s = [] ->
   randTables s = (Panic slice_out_of_range, s) /\
   ChoosePivotedRow s = (Panic slice_out_of_range, s) /\
   GenSelectStmt conf s = (Panic slice_out_of_range, s) /\
   (approachesAt conf (roundInBatch s) <> [] ->
    exists s', progress conf s = (Panic slice_out_of_range, s'))) /\
  (forall usedTables s',
      randTables s = (Ret usedTables, s') ->
      usedTables ⊆ Tables s /\ (NoDup (Tables s) -> NoDup usedTables)).
Proof.
  split; [|intros usedTables s' Hrun; exact (randTables_subset s s' usedTables Hrun)].
  intros Hts.
  assert (forall s0 : State, Tables s0 = [] ->
            ChoosePivotedRow s0 = (Panic slice_out_of_range, s0) /\
            GenSelectStmt conf s0 = (Panic slice_out_of_range, s0)) as Hboth.
  { intros s0 Hs0. unfold ChoosePivotedRow, GenSelectStmt, bind.
    rewrite (randTables_empty s0 Hs0). split; reflexivity. }
  split; [apply randTables_empty, Hts|].
  split; [apply Hboth, Hts|]. split; [apply Hboth, Hts|].
  intros Hne.
  destruct (chooseApproach_run conf s Hne) as (i & draws & approach & _ & _ & Hchoose & _).
  destruct (Hboth (reshuffled s (Tables s) draws) Hts) as [Hpivot Hgen].
  exists (reshuffled s (Tables s) draws).
  unfold progress. unfold bind at 1. rewrite Hchoose.
  destruct approach; unfold bind at 1; rewrite ?Hpivot, ?Hgen; reflexivity.
Qed.

Lemma pivotLoop_no_rows (I : W -> Prop) (usedTables : list Table) :
  (forall stmt w, I w -> exists w', conn_Select stmt w = (inl [], w') /\ I w') ->
  forall (result : gmap string QueryItem) (reallyUsed : list Table) (s : State),
  I (world s) ->
  exists s', pivotLoop usedTables result reallyUsed s = (Ret (result, reallyUsed), s').
Proof.
  intros Hconn. induction usedTables as [|i usedTables IH]; intros result reallyUsed s Hw.
  - eexists. reflexivity.
  - simpl. unfold bind at 1.
    destruct (execSelect_run (pivotQuery i) s) as (res & w & Hsel & ->).
    destruct (Hconn (pivotQuery i) (world s) Hw) as (w' & Hsel' & Hw').
    rewrite Hsel' in Hsel. injection Hsel as <- <-.
    apply IH. exact Hw'.
Qed.

(** X16. When the tables chosen have no rows (the connection answers every
    sampling query with an empty result), [ChoosePivotedRow] returns the
    empty pivot row, no table and no error: the round is not stopped
    there. *)
Theorem ChoosePivotedRow_no_rows (I : W -> Prop) (s : State) :
  (1 <= length (Tables s))%nat ->
  I (world s) ->
  (forall stmt w, I w -> exists w', conn_Select stmt w = (inl [], w') /\ I w') ->
  exists s', ChoosePivotedRow s = (Ret (∅, [], None), s').
Proof.
  intros Hlen Hw Hconn.
  destruct (randTables_run s Hlen) as (usedTables & ts & draws & Hrand & _).
  destruct (pivotLoop_no_rows I usedTables Hconn ∅ [] (reshuffled s ts draws) Hw)
    as (s' & Hloop).
  exists s'. unfold ChoosePivotedRow. unfold bind at 1. rewrite Hrand.
  unfold bind. rewrite Hloop. reflexivity.
Qed.

(** X19. A round of [progress], however it ends, leaves [batch] and
    [roundInBatch] as they were, and so does [refreshDatabase]: the counters
    are written by [run] alone. *)
Theorem progress_keeps_counters (s s' : State) (res : Res unit) :
  (progress conf s = (res, s') ->
   batch s' = batch s /\ roundInBatch s' = roundInBatch s) /\
  (refreshDatabase conf s = (res, s') ->
   batch s' = batch s /\ roundInBatch s' = roundInBatch s).
Proof.
  split; intros Hrun.
  - pose proof (counters_progress conf _ _ _ Hrun) as Hc. injection Hc as Hb Hr. auto.
  - pose proof (counters_refreshDatabase conf _ _ _ Hrun) as Hc. injection Hc as Hb Hr. auto.
Qed.

End TablesMore.

(** X15 on a state with no table, in a view round. *)
Lemma randTables_edges_witness :
  @randTables scripted (exampleState [] [] 0 []) =
  (Panic slice_out_of_range, exampleState [] [] 0 []).
Proof.
  apply (proj1 (@randTables_edges asciiLib scripted (exampleConf 1 true)
                  (exampleState [] [] 0 []))).
  reflexivity.
Defined.

(** X16 in the scripted world with an empty script, where every select
    returns no row. *)
Lemma ChoosePivotedRow_no_rows_witness :
  exists s',
    @ChoosePivotedRow scripted (exampleState [exampleTable "t1"; exampleTable "t2"] [] 0 [])
    = (Ret (∅, [], None), s').
Proof.
  apply (@ChoosePivotedRow_no_rows scripted (fun w => w = [])).
  - simpl. lia.
  - reflexivity.
  - intros stmt w ->. exists []. split; reflexivity.
Defined.

(** X19 on the first round of the scripted world. *)
Lemma progress_keeps_counters_witness :
  batch (snd (@progress asciiLib scripted (exampleConf 0 true)
                (exampleState [exampleTable "t0"] [] 7 []))) = 0 /\
  roundInBatch (snd (@progress asciiLib scripted (exampleConf 0 true)
                       (exampleState [exampleTable "t0"] [] 7 []))) = 7.
Proof.
  apply (proj1 (@progress_keeps_counters asciiLib scripted (exampleConf 0 true)
                  (exampleState [exampleTable "t0"] [] 7 [])
                  (snd (@progress asciiLib scripted (exampleConf 0 true)
                          (exampleState [exampleTable "t0"] [] 7 [])))
                  (fst (@progress asciiLib scripted (exampleConf 0 true)
                          (exampleState [exampleTable "t0"] [] 7 []))))).
  apply surjective_pairing.
Defined.

(** * More of the report *)

Section SplitFacts.

Lemma split_nonempty (sep : Ascii.ascii) (s : string) : split sep s <> [].
Proof.
  destruct s as [|a s]; simpl; [discriminate|].
  destruct (Ascii.eqb a sep); [discriminate|].
  destruct (split sep s); discriminate.
Qed.

Lemma split_one (sep : Ascii.ascii) (s b : string) : split sep s = [b] -> s = b.
Proof.
  revert b. induction s as [|a s IH]; intros b Hs; simpl in Hs.
  - injection Hs as <-. reflexivity.
  - destruct (Ascii.eqb a sep).
    + injection Hs as _ Hs. destruct (split_nonempty _ _ Hs).
    + destruct (split sep s) as [|part parts] eqn:Hrec; [destruct (split_nonempty _ _ Hrec)|].
      injection Hs as <- ->. rewrite (IH part eq_refl). reflexivity.
Qed.

Lemma split_two (sep : Ascii.ascii) (s a b : string) :
  split sep s = [a; b] -> s = (a ++ String sep b)%string.
Proof.
  revert a. induction s as [|c s IH]; intros a Hs; simpl in Hs.
  - discriminate.
  - destruct (Ascii.eqb_spec c sep) as [->|Hne].
    + injection Hs as <- Hs. rewrite (split_one _ _ _ Hs). reflexivity.
    + destruct (split sep s) as [|part parts] eqn:Hrec; [destruct (split_nonempty _ _ Hrec)|].
      injection Hs as <- ->. rewrite (IH part eq_refl). reflexivity.
Qed.

End SplitFacts.

Section PrintMore.
Context `{Externals}.

Lemma parseKeys_short (keys : list string) (k : string) :
  k ∈ keys -> (length (split dot k) < 2)%nat ->
  parseKeys keys = Panic index_out_of_range.
Proof.
  intros Hk Hshort. induction keys as [|column keys IH]; [inversion Hk|].
  simpl. destruct (split dot column) as [|table [|col parts]] eqn:Hsplit;
    try reflexivity.
  apply elem_of_cons in Hk as [->|Hk].
  - rewrite Hsplit in Hshort. simpl in Hshort. lia.
  - rewrite (IH Hk). reflexivity.
Qed.

Lemma parseKeys_dotted (keys : list string) :
  (forall k, k ∈ keys -> exists t c, split dot k = [t; c]) ->
  exists tableColumns,
    parseKeys keys = Ret tableColumns /\ Column_String <$> tableColumns = keys.
Proof.
  induction keys as [|column keys IH]; intros Hkeys.
  - exists []. split; reflexivity.
  - destruct (Hkeys column ltac:(left)) as (t & c & Hsplit).
    destruct IH as (cols & Hparse & Hstr).
    { intros k Hk. apply Hkeys. right. exact Hk. }
    simpl. rewrite Hsplit, Hparse. eexists. split; [reflexivity|].
    rewrite fmap_cons, Hstr. f_equal. symmetry. exact (split_two _ _ _ _ Hsplit).
Qed.

Lemma printColumns_found (pivotRows : gmap string QueryItem) (tableColumns : list Column)
    (s : State) :
  (forall c, c ∈ tableColumns -> is_Some (pivotRows !! Column_String c)) ->
  exists s' printed,
    printColumns pivotRows tableColumns s = (Ret tt, s') /\
    trace s' = trace s ++ printed /\
    length printed = length tableColumns /\
    calls printed = [].
Proof.
  revert s. induction tableColumns as [|column tableColumns IH]; intros s Hall.
  - exists s, []. rewrite app_nil_r. repeat split.
  - simpl. destruct (Hall column ltac:(left)) as [value ->].
    unfold bind, emit.
    match goal with |- context [printColumns _ _ ?s1] =>
      destruct (IH s1) as (s' & printed & Hrun & Htrace & Hlen & Hcalls) end.
    { intros c Hc. apply Hall. right. exact Hc. }
    rewrite Hrun. simpl in Htrace. rewrite <- app_assoc in Htrace.
    eexists s', _. split; [reflexivity|]. split; [exact Htrace|].
    simpl. split; [congruence|exact Hcalls].
Qed.

(** X17. [printPivotRows] panics with an index out of range, before
    printing anything, when some key of the pivot row has no dot. When every
    key has exactly one dot (and the sort permutes the columns) it returns
    after printing one line for each key, and makes no call. *)
Theorem printPivotRows_keys (pivotRows : gmap string QueryItem) (s : State) :
  (forall k, is_Some (pivotRows !! k) -> (length (split dot k) < 2)%nat ->
     printPivotRows pivotRows s = (Panic index_out_of_range, s)) /\
  ((forall cols, Columns_sort cols ≡ₚ cols) ->
   (forall k, is_Some (pivotRows !! k) -> exists t c, split dot k = [t; c]) ->
   exists s' printed,
     printPivotRows pivotRows s = (Ret tt, s') /\
     trace s' = trace s ++ printed /\
     length printed = size pivotRows /\
     calls printed = []).
Proof.
  assert (forall k, k ∈ (map_to_list pivotRows).*1 <-> is_Some (pivotRows !! k)) as Hkeys.
  { intros k. rewrite list_elem_of_fmap. split.
    - intros ([k' v] & -> & Hin). apply elem_of_map_to_list in Hin. eexists. exact Hin.
    - intros [v Hv]. exists (k, v). split; [reflexivity|]. apply elem_of_map_to_list, Hv. }
  split.
  - intros k Hk Hshort. unfold printPivotRows.
    rewrite (parseKeys_short _ k (proj2 (Hkeys k) Hk) Hshort). reflexivity.
  - intros Hsort Hdots. unfold printPivotRows.
    destruct (parseKeys_dotted (map_to_list pivotRows).*1) as (cols & -> & Hstr).
    { intros k Hk. apply Hdots, Hkeys, Hk. }
    destruct (printColumns_found pivotRows (Columns_sort cols) s)
      as (s' & printed & Hrun & Htrace & Hlen & Hcalls).
    { intros c Hc. rewrite Hsort in Hc. apply Hkeys. rewrite <- Hstr.
      apply list_elem_of_fmap. exists c. split; [reflexivity|exact Hc]. }
    exists s', printed. split; [exact Hrun|]. split; [exact Htrace|].
    split; [|exact Hcalls].
    rewrite Hlen, Hsort, <- (length_fmap Column_String), Hstr, length_fmap.
    apply length_map_to_list.
Qed.

End PrintMore.

(** X17 on the pivot row of one sampled cell. *)
Lemma printPivotRows_keys_witness :
  exists s' (printed : list (@Event scripted)),
    @printPivotRows scripted {["t2.c" := exampleItem "c" "7"]} (exampleState [] [] 0 [])
    = (Ret tt, s') /\
    length printed = size ({["t2.c" := exampleItem "c" "7"]} : gmap string QueryItem).
Proof.
  destruct (proj2 (@printPivotRows_keys scripted {["t2.c" := exampleItem "c" "7"]}
                     (exampleState [] [] 0 [])))
    as (s' & printed & Hrun & _ & Hlen & _).
  - intros cols. reflexivity.
  - intros k [v Hk]. apply lookup_singleton_Some in Hk as [<- _].
    exists "t2", "c". reflexivity.
  - exists s', printed. split; [exact Hrun|exact Hlen].
Defined.

Section RunMore.
Context `{GoLib} `{Externals}.
Variable conf : Config.


End RunMore.

Section ExecAndVerifyFacts.
Context `{GoLib} `{Externals}.
Variable stmtNode : ptr SelectStmt -> Node.

(** X20. [ExecAndVerify] never answers true together with an error: when
    the statement cannot be restored or its select fails it answers false
    with that error, and a restore error means that nothing is executed.
    Otherwise it runs the one select and answers, or panics, as [verifyPQS]
    does on the rows; it never exits the process and makes no other
    call. *)
Theorem ExecAndVerify_outcome (stmt : ptr SelectStmt) (originRow : gmap string QueryItem)
    (columns : list Column) (s : State) :
  exists res s',
    ExecAndVerify stmtNode stmt originRow columns s = (res, s') /\
    match (BufferOut (stmtNode stmt)).2 with
    | Some e => res = Ret (false, Some e) /\ s' = s
    | None =>
        exists answer,
          calls (trace s') =
            calls (trace s) ++ [ESelect (BufferOut (stmtNode stmt)).1 answer] /\
          conn_Select (BufferOut (stmtNode stmt)).1 (world s) = (answer, world s') /\
          match answer with
          | inr e => res = Ret (false, Some e)
          | inl rows =>
              match verifyPQS originRow columns rows with
              | Ret b => res = Ret (b, None)
              | Panic why => res = Panic why
              | Fatal _ => False
              end
          end
    end.
Proof.
  unfold ExecAndVerify. destruct (BufferOut (stmtNode stmt)) as [sql [e|]]; simpl.
  - eexists _, _. split; [reflexivity|]. split; reflexivity.
  - unfold bind at 1.
    destruct (execSelect_run sql s) as (answer & w & Hsel & ->).
    assert (forall t : list Event,
               calls ((t ++ [ELog "debug" "execSelect"]) ++ [ESelect sql answer]) =
               calls t ++ [ESelect sql answer]) as Hcalls.
    { intros t. rewrite !calls_app. simpl. rewrite app_nil_r. reflexivity. }
    destruct answer as [rows|e].
    + unfold bind, liftRes.
      destruct (verifyPQS originRow columns rows) as [b|why|why] eqn:Hverify.
      * eexists _, _. split; [reflexivity|]. exists (inl rows). simpl.
        split; [apply Hcalls|]. split; [exact Hsel|]. rewrite Hverify. reflexivity.
      * eexists _, _. split; [reflexivity|]. exists (inl rows). simpl.
        split; [apply Hcalls|]. split; [exact Hsel|]. rewrite Hverify. reflexivity.
      * exfalso. revert Hverify. clear.
        induction rows as [|row rows IH]; simpl; [discriminate|].
        destruct (checkRow originRow columns row) as [[|]|w|w] eqn:Hrow;
          try discriminate; [exact IH|].
        intros _. exact (checkRow_no_exit _ _ _ _ Hrow).
    + eexists _, _. split; [reflexivity|]. exists (inr e). simpl.
      split; [apply Hcalls|]. split; [exact Hsel|reflexivity].
Qed.

End ExecAndVerifyFacts.

(** ** Expression indexes *)

Section ExprIndexFacts.
Context `{GoLib} `{Externals} `{!IndexExternals}.
Variable conf : Config.

Lemma after_id (s : State) : after s (rng s) (world s) [] = s.
Proof. destruct s. unfold after. simpl. rewrite app_nil_r. reflexivity. Qed.

Lemma after_after (s : State) draws w added draws' w' added' :
  after (after s draws w added) draws' w' added' = after s draws' w' (added ++ added').
Proof. unfold after. simpl. rewrite app_assoc. reflexivity. Qed.

Lemma Rd_after (n : nat) (s : State) :
  n <> 0%nat ->
  exists j draws, (j < n)%nat /\ forall w added,
    Rd n (after s (rng s) w added) = (Ret j, after s draws w added).
Proof.
  intros Hn. unfold Rd, Intn.
  destruct (Nat.eqb_spec n 0) as [|_]; [contradiction|].
  unfold bind, get. simpl. destruct (rng s) as [|x rest] eqn:Hrng.
  - exists 0%nat, []. split; [lia|]. intros w added. reflexivity.
  - exists (x mod n)%nat, rest. split; [apply Nat.mod_upper_bound, Hn|].
    intros w added. reflexivity.
Qed.

Lemma Rd_run (n : nat) (s : State) :
  n <> 0%nat ->
  exists j draws, (j < n)%nat /\ Rd n s = (Ret j, after s draws (world s) []).
Proof.
  intros Hn. destruct (Rd_after n s Hn) as (j & draws & Hj & Hrun).
  exists j, draws. split; [exact Hj|].
  specialize (Hrun (world s) []). rewrite after_id in Hrun. exact Hrun.
Qed.

Lemma exprLoop_run (table : Table) (remaining : nat) (exprs : list ExprNode) (s : State) :
  exists new draws w,
    exprLoop conf table remaining exprs s = (Ret (exprs ++ new), after s draws w []) /\
    (length new <= remaining)%nat /\
    (remaining = 3%nat -> (1 <= length new)%nat).
Proof.
  revert exprs s. induction remaining as [|remaining IH]; intros exprs s.
  - destruct (Rd_run 3 s ltac:(lia)) as (r & draws & _ & Hr).
    exists [], draws, (world s). simpl. unfold bind. rewrite Hr. unfold ret.
    rewrite app_nil_r. split; [reflexivity|]. split; [simpl; lia|]. intros [=].
  - destruct (Rd_run 3 s ltac:(lia)) as (r & draws & Hlt & Hr).
    cbn [exprLoop]. unfold bind at 1. rewrite Hr.
    destruct (3 - S remaining <? r + 1)%nat eqn:Htest.
    + unfold bind at 1, get. unfold bind at 1, call at 1.
      destruct (gen_ConditionClause _ _ _ _ _) as [expr w1] eqn:Hgen.
      match goal with |- context [exprLoop conf table remaining ?e ?s1] =>
        change s1 with (after s draws w1 []);
        destruct (IH e (after s draws w1 [])) as (new & draws' & w' & Hrun & Hlen & _) end.
      rewrite Hrun, after_after. simpl app.
      exists (ParenthesesExpr expr :: new), draws', w'.
      split; [|split].
      * rewrite <- app_assoc. reflexivity.
      * simpl. lia.
      * intros _. simpl. lia.
    + exists [], draws, (world s). unfold ret. rewrite app_nil_r.
      split; [reflexivity|]. split; [simpl; lia|].
      intros Heq. apply Nat.ltb_ge in Htest. lia.
Qed.

Lemma createExpressionIndex_empty (s : State) :
  Tables s = [] -> createExpressionIndex conf s = (Panic invalid_Intn, s).
Proof.
  intros Hts. unfold createExpressionIndex, bind, get. rewrite Hts. reflexivity.
Qed.

Lemma createExpressionIndex_run (s : State) :
  Tables s <> [] ->
  exists res draws w,
    createExpressionIndex conf s = (Ret res, after s draws w []) /\
    match res with
    | None => exists t, t ∈ Tables s /\ EqString (Table.Name t) "table_varchar" = true
    | Some n =>
        exists t suffix,
          t ∈ Tables s /\ EqString (Table.Name t) "table_varchar" = false /\
          ci_Table n = Table.Name t /\ IndexName n = ("idx_" ++ suffix)%string /\
          (1 <= length (IndexPartSpecifications n) <= 3)%nat
    end.
Proof.
  intros Hts.
  assert (Hlen : length (Tables s) <> 0%nat) by (destruct (Tables s); [contradiction|discriminate]).
  destruct (Rd_run _ s Hlen) as (i & draws & Hi & Hr).
  unfold createExpressionIndex. unfold bind at 1, get. unfold bind at 1. rewrite Hr.
  change (Tables (after s draws (world s) [])) with (Tables s) in *.
  destruct (lookup_lt_is_Some_2 (Tables s) i Hi) as [table Htable].
  rewrite Htable.
  destruct (EqString (Table.Name table) "table_varchar") eqn:Hname.
  - exists None, draws, (world s). split; [reflexivity|].
    exists table. split; [eapply list_elem_of_lookup_2; exact Htable|exact Hname].
  - destruct (exprLoop_run (withoutIdColumns table) 3 [] (after s draws (world s) []))
      as (new & draws' & w' & Hrun & Hle & Hge).
    unfold bind at 1. rewrite Hrun. rewrite after_after.
    unfold bind at 1, call at 1. simpl.
    destruct (RdStringChar 5 w') as [suffix w2] eqn:Hsuffix.
    eexists (Some _), draws', w2. split; [reflexivity|].
    exists table, suffix. simpl.
    split; [eapply list_elem_of_lookup_2; exact Htable|].
    split; [exact Hname|]. split; [reflexivity|]. split; [reflexivity|].
    specialize (Hge eq_refl). lia.
Qed.

(** X21. [createExpressionIndex] panics when no table is loaded (the bound of
    the draw is zero). Otherwise it returns, and leaves [p.Tables], the
    cache, the counters and the trace as they were: it returns nil only for
    a table called [table_varchar] (ignoring case), and otherwise an index
    on a table of [p.Tables] that is not called so, named [idx_] and a
    suffix, with one to three parts. *)
Theorem createExpressionIndex_result (s : State) :
  (Tables s = [] -> createExpressionIndex conf s = (Panic invalid_Intn, s)) /\
  (Tables s <> [] ->
   exists res draws w,
     createExpressionIndex conf s = (Ret res, after s draws w []) /\
     match res with
     | None => exists t, t ∈ Tables s /\ EqString (Table.Name t) "table_varchar" = true
     | Some n =>
         exists t suffix,
           t ∈ Tables s /\ EqString (Table.Name t) "table_varchar" = false /\
           ci_Table n = Table.Name t /\ IndexName n = ("idx_" ++ suffix)%string /\
           (1 <= length (IndexPartSpecifications n) <= 3)%nat
     end).
Proof.
  split; [apply createExpressionIndex_empty|apply createExpressionIndex_run].
Qed.

Lemma addOneExprIndex_run (s : State) :
  exists res draws w added,
    addOneExprIndex conf s = (res, after s draws w added) /\
    indexAttempt (Tables s) res added.
Proof.
  unfold addOneExprIndex. unfold bind at 1.
  destruct (Tables s) as [|t0 ts0] eqn:Hts.
  - rewrite createExpressionIndex_empty by exact Hts.
    exists (Panic invalid_Intn), (rng s), (world s), []. rewrite after_id.
    split; [reflexivity|]. apply attempt_unsent. reflexivity.
  - assert (Hne : Tables s <> []) by (rewrite Hts; discriminate).
    destruct (createExpressionIndex_run s Hne) as (n & draws & w & Hrun & Hn).
    rewrite Hrun. rewrite Hts in Hn. destruct n as [n|].
    + destruct (BufferOut (indexNode n)) as [sql [e|]] eqn:Hbuf.
      * exists (Panic e), draws, w, []. split; [reflexivity|].
        apply attempt_unsent. discriminate.
      * unfold bind at 1, call at 1. simpl.
        destruct (conn_Select sql w) as [[rows|e] w1] eqn:Hsel.
        -- exists (Ret tt), draws, w1, [ESelect sql (inl rows); EPrint indexAdded].
           split; [|apply attempt_done; discriminate].
           unfold bind, emit, after. simpl. rewrite <- !app_assoc. reflexivity.
        -- exists (Panic e), draws, w1, [ESelect sql (inr e)].
           split; [|apply attempt_failed; discriminate].
           unfold bind, emit, after, panic. simpl. rewrite <- !app_assoc. reflexivity.
    + destruct Hn as (t & Ht & Hname).
      exists (Ret tt), draws, w, []. split; [reflexivity|].
      apply (attempt_skipped _ t); assumption.
Qed.

Lemma indexAttempt_selects (ts : list Table) (res : Res unit) (added : list Event) :
  indexAttempt ts res added ->
  (forall why, res <> Fatal why) /\
  (length (List.filter isSelect added) <= 1)%nat /\
  (forall e, e ∈ added -> isSelect e = true \/ e = EPrint indexAdded) /\
  (forall sql e, ESelect sql (inr e) ∈ added -> res = Panic e) /\
  (ts = [] -> res = Panic invalid_Intn /\ added = []) /\
  (res = Ret tt ->
   (forall t, t ∈ ts -> EqString (Table.Name t) "table_varchar" = false) ->
   (1 <= length (List.filter isSelect added))%nat) /\
  (res = Ret tt ->
   length (List.filter (prints indexAdded) added) = length (List.filter isSelect added)).
Proof.
  intros Hstep. destruct Hstep as [t Ht Hname|why Hwhy|sql e Hne|sql rows Hne].
  - split; [discriminate|]. split; [simpl; lia|].
    split; [intros e He; apply elem_of_nil in He; destruct He|].
    split; [intros sql e He; apply elem_of_nil in He; destruct He|].
    split; [intros ->; apply elem_of_nil in Ht; destruct Ht|].
    split; [|reflexivity].
    intros _ Hall. rewrite (Hall t Ht) in Hname. discriminate.
  - split; [discriminate|]. split; [simpl; lia|].
    split; [intros e He; apply elem_of_nil in He; destruct He|].
    split; [intros sql e He; apply elem_of_nil in He; destruct He|].
    split; [intros Hts; rewrite (Hwhy Hts); split; reflexivity|].
    split; discriminate.
  - split; [discriminate|]. split; [simpl; lia|].
    split; [intros e' He; apply list_elem_of_singleton in He; subst e'; left; reflexivity|].
    split; [intros sql' e' He; apply list_elem_of_singleton in He; congruence|].
    split; [intros Hts; contradiction|]. split; discriminate.
  - split; [discriminate|]. split; [simpl; lia|].
    split.
    { intros e He. apply elem_of_cons in He as [->|He]; [left; reflexivity|].
      apply list_elem_of_singleton in He. right. exact He. }
    split.
    { intros sql' e He. apply elem_of_cons in He as [He|He]; [discriminate|].
      apply list_elem_of_singleton in He. discriminate. }
    split; [intros Hts; contradiction|].
    split; [intros _ _; simpl; lia|].
    intros _. cbn [List.filter isSelect prints]. rewrite String.eqb_refl. reflexivity.
Qed.

Lemma addExprLoop_run (remaining : nat) (s : State) :
  exists res draws w added,
    addExprLoop conf remaining s = (res, after s draws w added) /\
    (forall why, res <> Fatal why) /\
    (length (List.filter isSelect added) <= remaining)%nat /\
    (forall e, e ∈ added -> isSelect e = true \/ e = EPrint indexAdded) /\
    (forall sql e, ESelect sql (inr e) ∈ added -> res = Panic e) /\
    (remaining = 10%nat -> Tables s = [] -> res = Panic invalid_Intn /\ added = []) /\
    (remaining = 10%nat -> res = Ret tt ->
     (forall t, t ∈ Tables s -> EqString (Table.Name t) "table_varchar" = false) ->
     (1 <= length (List.filter isSelect added))%nat) /\
    (res = Ret tt ->
     length (List.filter (prints indexAdded) added) = length (List.filter isSelect added)).
Proof.
  revert s. induction remaining as [|remaining IH]; intros s.
  - destruct (Rd_run 10 s ltac:(lia)) as (r & draws & _ & Hr).
    exists (Ret tt), draws, (world s), []. simpl. unfold bind. rewrite Hr.
    split; [reflexivity|]. split; [discriminate|]. split; [simpl; lia|].
    split; [intros e He; apply elem_of_nil in He; destruct He|].
    split; [intros sql e He; apply elem_of_nil in He; destruct He|].
    split; [intros [=]|]. split; [intros [=]|reflexivity].
  - destruct (Rd_run 10 s ltac:(lia)) as (r & draws & Hlt & Hr).
    cbn [addExprLoop]. unfold bind at 1. rewrite Hr.
    destruct (10 - S remaining <? r + 1)%nat eqn:Htest.
    + destruct (addOneExprIndex_run (after s draws (world s) []))
        as (res1 & draws1 & w1 & added1 & Hrun1 & Hstep).
      change (Tables (after s draws (world s) [])) with (Tables s) in Hstep.
      destruct (indexAttempt_selects _ _ _ Hstep)
        as (Hfatal1 & Hlen1 & Hev1 & Herr1 & Hempty1 & Hsome1 & Hsame1).
      rewrite after_after in Hrun1. simpl app in Hrun1.
      unfold bind at 1. rewrite Hrun1.
      destruct res1 as [[]|why|why]; [| |destruct (Hfatal1 why eq_refl)].
      * destruct (IH (after s draws1 w1 added1))
          as (res & draws2 & w2 & added2 & Hrun2 & Hfatal & Hlen & Hev & Herr & _ & _ & Hsame).
        rewrite after_after in Hrun2.
        exists res, draws2, w2, (added1 ++ added2). split; [exact Hrun2|].
        split; [exact Hfatal|].
        split; [rewrite List.filter_app, length_app; lia|].
        split.
        { intros e He. apply elem_of_app in He as [He|He]; [apply Hev1|apply Hev]; exact He. }
        split.
        { intros sql e He. apply elem_of_app in He as [He|He].
          - discriminate (Herr1 sql e He).
          - apply (Herr sql e He). }
        split.
        { intros _ Hts. destruct (Hempty1 Hts) as [Hres _]. discriminate Hres. }
        split.
        { intros _ _ Hall. rewrite List.filter_app, length_app.
          specialize (Hsome1 eq_refl Hall). lia. }
        intros Hres. rewrite !List.filter_app, !length_app.
        rewrite (Hsame1 eq_refl), (Hsame Hres). reflexivity.
      * exists (Panic why), draws1, w1, added1. split; [reflexivity|].
        split; [discriminate|]. split; [lia|]. split; [exact Hev1|].
        split; [exact Herr1|]. split; [intros _ Hts; apply Hempty1, Hts|].
        split; [intros _ [=]|intros [=]].
    + exists (Ret tt), draws, (world s), []. split; [reflexivity|].
      split; [discriminate|]. split; [simpl; lia|].
      split; [intros e He; apply elem_of_nil in He; destruct He|].
      split; [intros sql e He; apply elem_of_nil in He; destruct He|].
      apply Nat.ltb_ge in Htest.
      split; [intros Heq; lia|]. split; [intros Heq; lia|reflexivity].
Qed.

(** X22. [addExprIndex] sends at most ten index statements and never exits
    the process; it prints one line for every statement that succeeded, and
    the line does not carry the statement (the [sql] printed at line 414 is
    the empty variable of line 407). A statement that fails ends it with a
    panic carrying that error. With no table loaded it panics on the first
    draw and sends nothing. When it returns, the last line printed is the
    closing one, every statement sent succeeded, and at least one statement
    was sent unless some table is called [table_varchar]. [p.Tables], the
    executor's cache and the counters are left as they were. *)
Theorem addExprIndex_outcome (s : State) :
  exists res draws w added,
    addExprIndex conf s = (res, after s draws w added) /\
    (forall why, res <> Fatal why) /\
    (length (List.filter isSelect added) <= 10)%nat /\
    (forall e, e ∈ added ->
       isSelect e = true \/ e = EPrint indexAdded \/ e = EPrint indexesDone) /\
    (forall sql e, ESelect sql (inr e) ∈ added -> res = Panic e) /\
    (Tables s = [] -> res = Panic invalid_Intn /\ added = []) /\
    (res = Ret tt ->
     last added = Some (EPrint indexesDone) /\
     length (List.filter (prints indexAdded) added) =
       length (List.filter isSelect added) /\
     ((forall t, t ∈ Tables s -> EqString (Table.Name t) "table_varchar" = false) ->
      (1 <= length (List.filter isSelect added))%nat)).
Proof.
  destruct (addExprLoop_run 10 s)
    as (res & draws & w & added & Hrun & Hfatal & Hlen & Hev & Herr & Hempty & Hsome & Hsame).
  unfold addExprIndex, bind. rewrite Hrun.
  destruct res as [[]|why|why]; [| |destruct (Hfatal why eq_refl)].
  - exists (Ret tt), draws, w, (added ++ [EPrint indexesDone]).
    split; [unfold emit, after; simpl; rewrite app_assoc; reflexivity|].
    split; [discriminate|].
    split; [rewrite List.filter_app, length_app; simpl; lia|].
    split.
    { intros e He. apply elem_of_app in He as [He|He].
      - destruct (Hev e He) as [Hs|Hp]; [left; exact Hs|right; left; exact Hp].
      - apply list_elem_of_singleton in He. right. right. exact He. }
    split.
    { intros sql e He. apply elem_of_app in He as [He|He].
      - apply (Herr sql e He).
      - apply list_elem_of_singleton in He. discriminate. }
    split.
    { intros Hts. destruct (Hempty eq_refl Hts) as [Hres _]. discriminate. }
    intros _. split; [apply last_snoc|]. split.
    + rewrite !List.filter_app, !length_app, (Hsame eq_refl). reflexivity.
    + intros Hall. rewrite List.filter_app, length_app.
      specialize (Hsome eq_refl eq_refl Hall). lia.
  - exists (Panic why), draws, w, added. split; [reflexivity|].
    split; [discriminate|]. split; [exact Hlen|].
    split.
    { intros e He. destruct (Hev e He) as [Hs|Hp]; [left; exact Hs|right; left; exact Hp]. }
    split; [exact Herr|]. split; [apply Hempty; reflexivity|]. intros [=].
Qed.

End ExprIndexFacts.

(** ** Populating the tables *)

Section PopulateFacts.
Context `{GoLib} `{Externals} `{!DataExternals}.
Variable conf : Config.

Lemma moved_id (s : State) : moved s (Tables s) (rng s) (world s) [] = s.
Proof. destruct s. unfold moved. simpl. rewrite app_nil_r. reflexivity. Qed.

Lemma moved_moved (s : State) ts draws w added ts' draws' w' added' :
  moved (moved s ts draws w added) ts' draws' w' added' = moved s ts' draws' w' (added ++ added').
Proof. unfold moved. simpl. rewrite app_assoc. reflexivity. Qed.

Lemma quiet_ret {A} (a : A) : quiet (ret a).
Proof.
  intros s res s' [= <- <-]. split; [discriminate|].
  exists (Tables s), (rng s), (world s), []. rewrite moved_id. auto.
Qed.

Lemma quiet_panic {A} (why : string) : quiet (@panic _ A why).
Proof.
  intros s res s' [= <- <-]. split; [discriminate|].
  exists (Tables s), (rng s), (world s), []. rewrite moved_id. auto.
Qed.

Lemma quiet_get : quiet get.
Proof.
  intros s res s' [= <- <-]. split; [discriminate|].
  exists (Tables s), (rng s), (world s), []. rewrite moved_id. auto.
Qed.

Lemma quiet_call {A} (f : W -> A * W) : quiet (call f).
Proof.
  intros s res s' Hrun. unfold call in Hrun. destruct (f (world s)) as [a w].
  injection Hrun as <- <-. split; [discriminate|].
  exists (Tables s), (rng s), w, []. unfold moved. rewrite app_nil_r. auto.
Qed.

Lemma quiet_log (level msg : string) : quiet (log level msg).
Proof.
  intros s res s' [= <- <-]. split; [discriminate|].
  exists (Tables s), (rng s), (world s), [ELog level msg]. auto.
Qed.

Lemma quiet_bind {A B} (m : M A) (k : A -> M B) :
  quiet m -> (forall a, quiet (k a)) -> quiet (bind m k).
Proof.
  intros Hm Hk s res s' Hrun. unfold bind in Hrun.
  destruct (m s) as [r1 s1] eqn:Hm1.
  destruct (Hm s r1 s1 Hm1) as (Hfatal1 & ts & draws & w & added & -> & Hperm & Hcalls).
  destruct r1 as [a|why|why].
  - destruct (Hk a _ _ _ Hrun) as (Hfatal & ts' & draws' & w' & added' & -> & Hperm' & Hcalls').
    split; [exact Hfatal|]. exists ts', draws', w', (added ++ added').
    rewrite moved_moved. split; [reflexivity|]. split.
    + rewrite Hperm'. exact Hperm.
    + rewrite calls_app, Hcalls, Hcalls'. reflexivity.
  - injection Hrun as <- <-. split; [discriminate|]. exists ts, draws, w, added. auto.
  - destruct (Hfatal1 why eq_refl).
Qed.

Lemma quiet_Rd (n : nat) : quiet (Rd n).
Proof.
  intros s res s' Hrun. destruct (Nat.eq_dec n 0) as [->|Hn].
  - injection Hrun as <- <-. split; [discriminate|].
    exists (Tables s), (rng s), (world s), []. rewrite moved_id. auto.
  - destruct (Rd_run n s Hn) as (j & draws & _ & Hr). rewrite Hr in Hrun.
    injection Hrun as <- <-. split; [discriminate|].
    exists (Tables s), draws, (world s), []. auto.
Qed.

Lemma quiet_randTables : quiet randTables.
Proof.
  intros s res s' Hrun.
  destruct (Nat.le_gt_cases 1 (length (Tables s))) as [Hlen|Hlen].
  - destruct (randTables_run s Hlen) as (used & ts & draws & Hrun' & _ & Hperm & _).
    rewrite Hrun' in Hrun. injection Hrun as <- <-. split; [discriminate|].
    exists ts, draws, (world s), []. unfold moved, reshuffled. rewrite app_nil_r. auto.
  - rewrite randTables_empty in Hrun by (destruct (Tables s); [reflexivity|simpl in Hlen; lia]).
    injection Hrun as <- <-. split; [discriminate|].
    exists (Tables s), (rng s), (world s), []. rewrite moved_id. auto.
Qed.

Lemma quiet_log_Panic {A} (msg : string) : quiet (@log_Panic _ A msg).
Proof. apply quiet_bind; [apply quiet_log|intros _; apply quiet_panic]. Qed.

Lemma insertData_quiet (table : Table) : quiet (insertData table).
Proof.
  unfold insertData. apply quiet_bind; [apply quiet_get|intros s0].
  apply quiet_bind; [apply quiet_call|intros [sql|err]]; [|apply quiet_panic].
  apply quiet_bind; [apply quiet_call|intros [e|]]; [apply quiet_log|apply quiet_ret].
Qed.

Lemma genDML_quiet (tables : list Table) (table : Table) : quiet (genDML conf tables table).
Proof.
  unfold genDML. apply quiet_bind; [apply quiet_Rd|intros r].
  apply quiet_bind; [apply quiet_get|intros s0].
  destruct (r =? 0)%nat.
  - apply quiet_bind; [apply quiet_call|intros [stmt [e|]]]; simpl.
    + apply quiet_bind; [apply quiet_log|intros _; apply quiet_ret].
    + apply quiet_ret.
  - apply quiet_bind; [apply quiet_call|intros [stmt [e|]]]; simpl.
    + apply quiet_bind; [apply quiet_log|intros _; apply quiet_ret].
    + apply quiet_ret.
Qed.

Lemma dmlLoop_quiet (table : Table) (i : nat) (err : option error) :
  quiet (dmlLoop conf table i err).
Proof.
  revert err. induction i as [|i IH]; intros err.
  - apply quiet_ret.
  - cbn [dmlLoop]. apply quiet_bind; [apply quiet_randTables|intros tables].
    destruct err as [e|]; [apply quiet_panic|].
    destruct (length tables =? 0)%nat; [apply quiet_log_Panic|].
    apply quiet_bind; [apply genDML_quiet|intros stmt].
    apply quiet_bind; [apply quiet_log|intros _].
    apply quiet_bind; [apply quiet_call|intros [e|]].
    + apply quiet_bind; [apply quiet_log|intros _; apply quiet_panic].
    + apply IH.
Qed.

Lemma bind_Ret {A B} (m : M A) (k : A -> M B) (s s' : State) (b : B) :
  bind m k s = (Ret b, s') ->
  exists a s1, m s = (Ret a, s1) /\ k a s1 = (Ret b, s').
Proof.
  unfold bind. destruct (m s) as [[a|why|why] s1]; intros Hrun; try discriminate.
  exists a, s1. split; [reflexivity|exact Hrun].
Qed.

Lemma dmlLoop_None (table : Table) (i : nat) (s s' : State) (e : option error) :
  dmlLoop conf table i None s = (Ret e, s') -> e = None.
Proof.
  revert s. induction i as [|i IH]; intros s Hrun.
  - injection Hrun as <- _. reflexivity.
  - cbn [dmlLoop] in Hrun.
    apply bind_Ret in Hrun as (tables & s1 & _ & Hrun).
    destruct (length tables =? 0)%nat.
    + apply bind_Ret in Hrun as (? & ? & _ & Hrun). discriminate.
    + apply bind_Ret in Hrun as (stmt & s2 & _ & Hrun).
      apply bind_Ret in Hrun as (? & s3 & _ & Hrun).
      apply bind_Ret in Hrun as ([e'|] & s4 & _ & Hrun).
      * apply bind_Ret in Hrun as (? & ? & _ & Hrun). discriminate.
      * apply (IH _ Hrun).
Qed.

Lemma quiet_cases {A B} (m : M A) (k : A -> M B) (s : State) :
  quiet m ->
  (exists a ts draws w added,
      m s = (Ret a, moved s ts draws w added) /\
      bind m k s = k a (moved s ts draws w added) /\
      ts ≡ₚ Tables s /\ calls added = []) \/
  (exists why ts draws w added,
      bind m k s = (Panic why, moved s ts draws w added) /\
      ts ≡ₚ Tables s /\ calls added = []).
Proof.
  intros Hm. unfold bind. destruct (m s) as [r1 s1] eqn:Hm1.
  destruct (Hm s r1 s1 Hm1) as (Hfatal1 & ts & draws & w & added & -> & Hperm & Hcalls).
  destruct r1 as [a|why|why].
  - left. exists a, ts, draws, w, added. auto.
  - right. exists why, ts, draws, w, added. auto.
  - destruct (Hfatal1 why eq_refl).
Qed.

Lemma populated_stop (tables : list Table) (s : State) (why : string) ts draws w added :
  ts ≡ₚ Tables s -> calls added = [] ->
  populated tables s (Panic why) (moved s ts draws w added).
Proof.
  intros Hperm Hcalls. exists ts, draws, w, added, [], [].
  split; [reflexivity|]. split; [exact Hperm|]. split; [discriminate|].
  split; [exact Hcalls|]. split; [reflexivity|]. split; [apply prefix_nil|].
  split; [discriminate|]. intros ans Hans. apply elem_of_nil in Hans. destruct Hans.
Qed.

Lemma populated_after (tables : list Table) (s : State) ts draws w added res s' :
  ts ≡ₚ Tables s -> calls added = [] ->
  populated tables (moved s ts draws w added) res s' ->
  populated tables s res s'.
Proof.
  intros Hperm Hcalls
    (ts' & draws' & w' & added' & processed & answers & -> & Hperm' & Hfatal & Hc & Hrest).
  exists ts', draws', w', (added ++ added'), processed, answers.
  rewrite moved_moved. split; [reflexivity|]. split; [rewrite Hperm'; exact Hperm|].
  split; [exact Hfatal|]. split; [rewrite calls_app, Hcalls; exact Hc|]. exact Hrest.
Qed.

Lemma populated_query_stop (table : Table) (tables : list Table) (s : State)
    (why : string) ts draws w added ans :
  ts ≡ₚ Tables s -> calls added = [ESelect (countSQL table) ans] ->
  why = index_out_of_range \/ why = nil_dereference ->
  populated (table :: tables) s (Panic why) (moved s ts draws w added).
Proof.
  intros Hperm Hcalls Hwhy. exists ts, draws, w, added, [table], [ans].
  split; [reflexivity|]. split; [exact Hperm|]. split; [discriminate|].
  split; [exact Hcalls|]. split; [reflexivity|].
  split; [exists tables; reflexivity|]. split; [discriminate|].
  intros ans' _. right. destruct Hwhy as [->| ->]; [left|right]; reflexivity.
Qed.

Lemma populated_cons (table : Table) (tables : list Table) (s : State)
    ts draws w added ans res s' :
  ts ≡ₚ Tables s -> calls added = [ESelect (countSQL table) ans] -> hasCount ans ->
  populated tables (moved s ts draws w added) res s' ->
  populated (table :: tables) s res s'.
Proof.
  intros Hperm Hcalls Hans
    (ts' & draws' & w' & added' & processed & answers & -> & Hperm' & Hfatal & Hc & Hlen &
     Hpre & Hall & Hanswers).
  exists ts', draws', w', (added ++ added'), (table :: processed), (ans :: answers).
  rewrite moved_moved. split; [reflexivity|]. split; [rewrite Hperm'; exact Hperm|].
  split; [exact Hfatal|].
  split; [rewrite calls_app, Hcalls, Hc; reflexivity|].
  split; [simpl; rewrite Hlen; reflexivity|].
  split; [apply prefix_cons, Hpre|].
  split; [intros Hres; rewrite (Hall Hres); reflexivity|].
  intros ans' Hin. apply elem_of_cons in Hin as [->|Hin]; [left; exact Hans|].
  apply Hanswers, Hin.
Qed.

Lemma populateTables_populated (tables : list Table) (s : State) :
  exists res s', populateTables conf tables None s = (res, s') /\ populated tables s res s'.
Proof.
  revert s. induction tables as [|table tables IH]; intros s.
  - exists (Ret tt), s. split; [reflexivity|].
    exists (Tables s), (rng s), (world s), [], [], [].
    rewrite moved_id. split; [reflexivity|]. split; [reflexivity|].
    split; [discriminate|]. split; [reflexivity|]. split; [reflexivity|].
    split; [reflexivity|]. split; [reflexivity|].
    intros ans Hans. apply elem_of_nil in Hans. destruct Hans.
  - cbn [populateTables].
    match goal with |- context [bind (insertData table) ?k s] =>
      destruct (quiet_cases (insertData table) k s (insertData_quiet table))
        as [(a1 & ts1 & d1 & w1 & added1 & _ & -> & Hp1 & Hc1)
           |(why & ts1 & d1 & w1 & added1 & -> & Hp1 & Hc1)] end;
      [|eexists _, _; split; [reflexivity|apply populated_stop; assumption]].
    set (s1 := moved s ts1 d1 w1 added1).
    match goal with |- context [bind (Rd 4) ?k s1] =>
      destruct (quiet_cases (Rd 4) k s1 (quiet_Rd 4))
        as [(i & ts2 & d2 & w2 & added2 & _ & -> & Hp2 & Hc2)
           |(why & ts2 & d2 & w2 & added2 & -> & Hp2 & Hc2)] end;
      [|eexists _, _; split; [reflexivity|];
        apply (populated_after _ s ts1 d1 w1 added1); [assumption..|];
        apply populated_stop; assumption].
    set (s2 := moved s1 ts2 d2 w2 added2).
    match goal with |- context [bind (dmlLoop conf table i None) ?k s2] =>
      destruct (quiet_cases (dmlLoop conf table i None) k s2 (dmlLoop_quiet table i None))
        as [(err & ts3 & d3 & w3 & added3 & Hloop & -> & Hp3 & Hc3)
           |(why & ts3 & d3 & w3 & added3 & -> & Hp3 & Hc3)] end;
      [|eexists _, _; split; [reflexivity|];
        apply (populated_after _ s ts1 d1 w1 added1); [assumption..|];
        apply (populated_after _ s1 ts2 d2 w2 added2); [assumption..|];
        apply populated_stop; assumption].
    apply dmlLoop_None in Hloop. subst err.
    set (s3 := moved s2 ts3 d3 w3 added3).
    assert (Hback : forall res s', populated (table :: tables) s3 res s' ->
                                   populated (table :: tables) s res s').
    { intros res s' Hpop.
      apply (populated_after _ s ts1 d1 w1 added1); [assumption..|].
      apply (populated_after _ s1 ts2 d2 w2 added2); [assumption..|].
      apply (populated_after _ s2 ts3 d3 w3 added3); [assumption..|]. exact Hpop. }
    clearbody s3. clear s1 s2 Hp1 Hc1 Hp2 Hc2 Hp3 Hc3.
    unfold bind at 1, call at 1.
    destruct (conn_Select (countSQL table) (world s3)) as [ans w4] eqn:Hsel.
    unfold bind at 1, emit at 1. cbn [Tables batch roundInBatch e_tables rng world trace].
    destruct ans as [[|[|[cell|] row] rows]|e].
    + eexists _, _. split; [reflexivity|]. apply Hback.
      apply (populated_query_stop table tables s3 _ (Tables s3) (rng s3) w4
               [ESelect (countSQL table) (inl [])] (inl []));
        [reflexivity|reflexivity|left; reflexivity].
    + eexists _, _. split; [reflexivity|]. apply Hback.
      apply (populated_query_stop table tables s3 _ (Tables s3) (rng s3) w4
               [ESelect (countSQL table) (inl ([] :: rows))] (inl ([] :: rows)));
        [reflexivity|reflexivity|left; reflexivity].
    + unfold bind at 1, ret at 1. unfold bind at 1, log at 1, emit at 1.
      cbn [Tables batch roundInBatch e_tables rng world trace].
      set (ans := inl ((Some cell :: row) :: rows) : resultRows + error).
      set (s4 := mkState _ _ _ _ _ _ _ _).
      assert (Hs4 : s4 = moved s3 (Tables s3) (rng s3) w4
                      [ESelect (countSQL table) ans; ELog "debug" "table check records count"]).
      { unfold s4, moved. rewrite <- app_assoc. reflexivity. }
      clearbody s4. subst s4.
      set (again := if (ParseUint (ValString cell) =? 0)%N
                    then bind (log "info" (Table.Name table ++ " is empty after DELETE"))
                              (fun _ => insertData table)
                    else ret tt).
      assert (Hagain : quiet again).
      { unfold again. destruct (ParseUint (ValString cell) =? 0)%N; [|apply quiet_ret].
        apply quiet_bind; [apply quiet_log|intros _; apply insertData_quiet]. }
      match goal with |- context [bind again ?k ?s4] =>
        destruct (quiet_cases again k s4 Hagain)
          as [(a5 & ts5 & d5 & w5 & added5 & _ & -> & Hp5 & Hc5)
             |(why & ts5 & d5 & w5 & added5 & -> & Hp5 & Hc5)] end.
      * match goal with |- context [populateTables conf tables None ?s5] =>
          destruct (IH s5) as (res & s' & Hrun & Hpop) end.
        exists res, s'. split; [exact Hrun|]. apply Hback.
        rewrite moved_moved in Hpop.
        eapply (populated_cons table tables s3 ts5 d5 w5 _ ans res s'); [| | |exact Hpop];
          [exact Hp5| |exists cell, row, rows; reflexivity].
        rewrite calls_app, Hc5. reflexivity.
      * eexists _, _. split; [reflexivity|]. apply Hback. rewrite moved_moved.
        exists ts5, d5, w5,
          ([ESelect (countSQL table) ans; ELog "debug" "table check records count"] ++ added5),
          [table], [ans].
        split; [reflexivity|]. split; [exact Hp5|]. split; [discriminate|].
        split; [rewrite calls_app, Hc5; reflexivity|]. split; [reflexivity|].
        split; [exists tables; reflexivity|]. split; [discriminate|].
        intros ans' Hin. apply list_elem_of_singleton in Hin. subst ans'.
        left. exists cell, row, rows. reflexivity.
    + eexists _, _. split; [reflexivity|]. apply Hback.
      apply (populated_query_stop table tables s3 _ (Tables s3) (rng s3) w4
               [ESelect (countSQL table) (inl ((None :: row) :: rows))]
               (inl ((None :: row) :: rows)));
        [reflexivity|reflexivity|right; reflexivity].
    + eexists _, _. split; [reflexivity|]. apply Hback.
      unfold bind, log, emit, ret, panic.
      cbn [Tables batch roundInBatch e_tables rng world trace].
      match goal with |- populated _ _ _ ?st =>
        replace st with (moved s3 (Tables s3) (rng s3) w4
                           [ESelect (countSQL table) (inr e); ELog "error" "insert data failed"])
          by (unfold moved; rewrite <- app_assoc; reflexivity) end.
      apply (populated_query_stop table tables s3 _ _ _ _ _ (inr e));
        [reflexivity|reflexivity|left; reflexivity].
Qed.

Lemma returns_ret {A} (Q : A -> Prop) (a : A) : Q a -> returns Q (ret a).
Proof. intros Ha s Hs. exists a, s. auto. Qed.

Lemma returns_bind {A B} (Q : A -> Prop) (Q' : B -> Prop) (m : M A) (k : A -> M B) :
  returns Q m -> (forall a, Q a -> returns Q' (k a)) -> returns Q' (bind m k).
Proof.
  intros Hm Hk s Hs. destruct (Hm s Hs) as (a & s1 & Hrun & Hs1 & Ha).
  destruct (Hk a Ha s1 Hs1) as (b & s' & Hrun' & Hs' & Hb).
  exists b, s'. unfold bind. rewrite Hrun. auto.
Qed.

Lemma returns_get : returns (fun _ => True) get.
Proof. intros s Hs. exists s, s. auto. Qed.

Lemma returns_call {A} (Q : A -> Prop) (f : W -> A * W) :
  (forall w, Q (fst (f w))) -> returns Q (call f).
Proof.
  intros Hf s Hs. unfold call. specialize (Hf (world s)).
  destruct (f (world s)) as [a w]. eexists a, _. split; [reflexivity|]. auto.
Qed.

Lemma returns_log (level msg : string) : returns (fun _ => True) (log level msg).
Proof. intros s Hs. eexists tt, _. split; [reflexivity|]. auto. Qed.

Lemma returns_Rd (n : nat) : n <> 0%nat -> returns (fun _ => True) (Rd n).
Proof.
  intros Hn s Hs. destruct (Rd_run n s Hn) as (j & draws & _ & Hr).
  exists j, (after s draws (world s) []). auto.
Qed.

Lemma returns_randTables : returns (fun tables => tables <> []) randTables.
Proof.
  intros s Hs.
  assert (Hlen : (1 <= length (Tables s))%nat)
    by (destruct (Tables s); [contradiction|simpl; lia]).
  destruct (randTables_run s Hlen) as (used & ts & draws & Hrun & Hused & Hperm & _).
  exists used, (reshuffled s ts draws). split; [exact Hrun|]. split.
  - simpl. intros ->. apply Permutation_nil in Hperm. contradiction.
  - intros ->. simpl in Hused. lia.
Qed.

Section Completes.
Hypothesis Hexec : forall sql w, fst (executor_Exec sql w) = None.
Hypothesis Hinsert : forall cache name w,
  exists sql, fst (executor_GenerateDMLInsertByTable cache name w) = inl sql.
Hypothesis Hcount : forall table w, hasCount (fst (conn_Select (countSQL table) w)).

Lemma insertData_returns (table : Table) : returns (fun _ => True) (insertData table).
Proof.
  unfold insertData. eapply returns_bind; [apply returns_get|intros s0 _].
  eapply (returns_bind (fun r => exists sql, r = inl sql));
    [apply returns_call; intros w; apply Hinsert|intros r [sql ->]].
  eapply (returns_bind (fun e => e = None));
    [apply returns_call; intros w; apply Hexec|intros e ->].
  apply returns_ret. exact I.
Qed.

Lemma genDML_returns (tables : list Table) (table : Table) :
  returns (fun _ => True) (genDML conf tables table).
Proof.
  unfold genDML. eapply returns_bind; [apply returns_Rd; lia|intros r _].
  eapply returns_bind; [apply returns_get|intros s0 _].
  destruct (r =? 0)%nat.
  - eapply (returns_bind (fun _ => True)); [apply returns_call; intros w; exact I|].
    intros [stmt [e|]] _; simpl.
    + eapply returns_bind; [apply returns_log|intros _ _; apply returns_ret; exact I].
    + apply returns_ret. exact I.
  - eapply (returns_bind (fun _ => True)); [apply returns_call; intros w; exact I|].
    intros [stmt [e|]] _; simpl.
    + eapply returns_bind; [apply returns_log|intros _ _; apply returns_ret; exact I].
    + apply returns_ret. exact I.
Qed.

Lemma dmlLoop_returns (table : Table) (i : nat) :
  returns (fun err => err = None) (dmlLoop conf table i None).
Proof.
  induction i as [|i IH].
  - apply returns_ret. reflexivity.
  - cbn [dmlLoop]. eapply returns_bind; [apply returns_randTables|intros tables Htables].
    destruct (Nat.eqb_spec (length tables) 0) as [Hlen|_].
    { destruct tables; [contradiction|discriminate]. }
    eapply returns_bind; [apply genDML_returns|intros stmt _].
    eapply returns_bind; [apply returns_log|intros _ _].
    eapply (returns_bind (fun e => e = None));
      [apply returns_call; intros w; apply Hexec|intros e ->].
    exact IH.
Qed.

Lemma populateTables_returns (tables : list Table) :
  returns (fun _ => True) (populateTables conf tables None).
Proof.
  induction tables as [|table tables IH].
  - apply returns_ret. exact I.
  - cbn [populateTables].
    eapply returns_bind; [apply insertData_returns|intros _ _].
    eapply returns_bind; [apply returns_Rd; lia|intros i _].
    eapply returns_bind; [apply dmlLoop_returns|intros err ->].
    eapply (returns_bind hasCount);
      [apply returns_call; intros w; apply Hcount|intros res (cell & row & rows & ->)].
    eapply (returns_bind (fun _ => True)); [intros s Hs; eexists tt, _; split; [reflexivity|auto]|].
    intros _ _.
    eapply (returns_bind (fun qi => qi = (Some cell :: row) :: rows));
      [apply returns_ret; reflexivity|intros qi ->].
    eapply returns_bind; [apply returns_log|intros _ _].
    eapply (returns_bind (fun _ => True)); [|intros _ _; exact IH].
    destruct (ParseUint (ValString cell) =? 0)%N; [|apply returns_ret; exact I].
    eapply returns_bind; [apply returns_log|intros _ _; apply insertData_returns].
Qed.

Lemma populateData_returns : returns (fun _ => True) (populateData conf).
Proof.
  unfold populateData.
  eapply (returns_bind (fun _ => True)); [apply returns_call; intros w; exact I|intros b _].
  eapply (returns_bind (fun _ => True)); [intros s Hs; eexists tt, _; split; [reflexivity|auto]|].
  intros _ _. destruct b as [e|]; [apply returns_log|].
  eapply returns_bind; [apply returns_get|intros s0 _].
  eapply returns_bind; [apply populateTables_returns|intros _ _].
  eapply (returns_bind (fun _ => True)); [apply returns_call; intros w; exact I|intros c _].
  eapply (returns_bind (fun _ => True)); [intros s Hs; eexists tt, _; split; [reflexivity|auto]|].
  intros _ _. destruct c as [e|]; [apply returns_log|apply returns_ret; exact I].
Qed.

End Completes.

(** X23. [populateData] never exits the process, leaves the executor's cache
    and the counters as they were and [p.Tables] with the same tables. It
    begins a transaction; if that fails nothing else is sent and it returns.
    Otherwise it sends one count query for each table of the cache in turn,
    up to the table at which it panics, and an answer without a first cell
    (a failed query, no row, an empty row, a nil cell) makes it panic with
    an index or nil error. It commits exactly when it returns after all the
    tables: a panic leaves the transaction open. *)
Theorem populateData_outcome (s : State) :
  exists res s' processed answers closing,
    populateData conf s = (res, s') /\
    e_tables s' = e_tables s /\ counters s' = counters s /\ Tables s' ≡ₚ Tables s /\
    (forall why, res <> Fatal why) /\
    calls (trace s') =
      calls (trace s) ++
      EBegin (fst (conn_Begin (world s))) :: countQueries processed answers ++ closing /\
    length answers = length processed /\
    processed `prefix_of` (snd <$> map_to_list (e_tables s)) /\
    (forall ans, ans ∈ answers ->
       hasCount ans \/ res = Panic index_out_of_range \/ res = Panic nil_dereference) /\
    match fst (conn_Begin (world s)) with
    | Some _ => res = Ret tt /\ processed = [] /\ closing = []
    | None =>
        (res = Ret tt ->
         processed = snd <$> map_to_list (e_tables s) /\ exists err, closing = [ECommit err]) /\
        (res <> Ret tt -> closing = [])
    end.
Proof.
  unfold populateData. unfold bind at 1, call at 1.
  destruct (conn_Begin (world s)) as [b w0] eqn:Hbegin. cbn [fst].
  unfold bind at 1, emit at 1. cbn [Tables batch roundInBatch e_tables rng world trace].
  destruct b as [e|].
  - eexists (Ret tt), _, [], [], []. split; [reflexivity|].
    cbn [Tables batch roundInBatch e_tables rng world trace counters].
    split; [reflexivity|]. split; [reflexivity|]. split; [reflexivity|].
    split; [discriminate|].
    split; [rewrite !calls_app, <- !app_assoc; reflexivity|]. split; [reflexivity|].
    split; [apply prefix_nil|].
    split; [intros ans Hans; apply elem_of_nil in Hans; destruct Hans|auto].
  - unfold bind at 1, get at 1.
    cbn [Tables batch roundInBatch e_tables rng world trace].
    set (tables := snd <$> map_to_list (e_tables s)).
    set (s1 := mkState _ _ _ _ _ _ _ _).
    destruct (populateTables_populated tables s1)
      as (res & s2 & Hrun & ts & draws & w & added & processed & answers & -> & Hperm &
          Hfatal & Hcalls & Hlen & Hpre & Hall & Hans).
    unfold bind at 1. rewrite Hrun.
    destruct res as [[]|why|why]; [| |destruct (Hfatal why eq_refl)].
    + unfold bind at 1, call at 1. cbn [world moved].
      destruct (conn_Commit w) as [c w'] eqn:Hcommit.
      unfold bind at 1, emit at 1. cbn [Tables batch roundInBatch e_tables rng world trace].
      exists (Ret tt).
      assert (Hclose : calls ((trace s ++ [EBegin None]) ++ added) ++ [ECommit c] =
                       calls (trace s) ++
                       EBegin None :: countQueries processed answers ++ [ECommit c]).
      { rewrite !calls_app, Hcalls, <- !app_assoc. reflexivity. }
      destruct c as [e|].
      * eexists _, processed, answers, [ECommit (Some e)]. split; [reflexivity|].
        unfold log, emit, moved, s1.
        cbn [Tables batch roundInBatch e_tables rng world trace counters].
        split; [reflexivity|]. split; [reflexivity|]. split; [exact Hperm|].
        split; [discriminate|].
        split.
        { rewrite calls_app, calls_app. change (calls [ECommit (Some e)]) with [ECommit (Some e)].
          change (calls [ELog "error" "commit txn failed"]) with (@nil Event).
          rewrite app_nil_r. exact Hclose. }
        split; [exact Hlen|]. split; [exact Hpre|]. split; [exact Hans|].
        split; [|intros Hne; destruct (Hne eq_refl)].
        intros _. split; [apply Hall; reflexivity|eexists; reflexivity].
      * eexists _, processed, answers, [ECommit None]. split; [reflexivity|].
        unfold ret, moved, s1.
        cbn [Tables batch roundInBatch e_tables rng world trace counters].
        split; [reflexivity|]. split; [reflexivity|]. split; [exact Hperm|].
        split; [discriminate|].
        split.
        { rewrite calls_app. change (calls [ECommit None]) with [ECommit None].
          exact Hclose. }
        split; [exact Hlen|]. split; [exact Hpre|]. split; [exact Hans|].
        split; [|intros Hne; destruct (Hne eq_refl)].
        intros _. split; [apply Hall; reflexivity|eexists; reflexivity].
    + exists (Panic why). eexists _, processed, answers, []. split; [reflexivity|].
      split; [reflexivity|]. split; [reflexivity|]. split; [exact Hperm|].
      split; [discriminate|].
      split.
      { unfold moved, s1. cbn [trace]. rewrite !calls_app, Hcalls, app_nil_r, <- !app_assoc.
        reflexivity. }
      split; [exact Hlen|]. split; [exact Hpre|]. split; [exact Hans|].
      split; [intros [=]|reflexivity].
Qed.

(** X24. If no statement fails to execute, an INSERT can be generated for
    every table and every count query is answered with a count, then
    [populateData] returns whenever a table is loaded, whatever [DeleteStmt]
    and [UpdateStmt] report: an error of the generator is logged, and the
    tests of lines 176 and 179 never stop the run. *)
Theorem populateData_completes (s : State) :
  (forall sql w, fst (executor_Exec sql w) = None) ->
  (forall cache name w,
     exists sql, fst (executor_GenerateDMLInsertByTable cache name w) = inl sql) ->
  (forall table w, hasCount (fst (conn_Select (countSQL table) w))) ->
  Tables s <> [] ->
  exists s', populateData conf s = (Ret tt, s').
Proof.
  intros Hexec Hinsert Hcount Hs.
  destruct (populateData_returns Hexec Hinsert Hcount s Hs) as ([] & s' & Hrun & _).
  exists s'. exact Hrun.
Qed.

End PopulateFacts.

(** X24 where the generator has no DELETE to offer: the first draw asks for
    one statement, the second chooses DELETE. *)
Lemma populateData_completes_witness :
  exists s',
    @populateData counting countingData (exampleConf 0 true)
      (mkState counting [exampleTable "t0"] 0 0 {["t0" := exampleTable "t0"]}
         [1; 0; 0; 0]%nat [] [])
    = (Ret tt, s').
Proof.
  apply (@populateData_completes counting countingData (exampleConf 0 true)).
  - intros sql w. reflexivity.
  - intros cache name w. eexists. reflexivity.
  - intros table w. eexists _, _, _. reflexivity.
  - discriminate.
Defined.
